(** * tor-watch monitor: a Rocq model of [tools/tor-watch/monitor/monitor.py]

    The development embeds the monitor's functions ([normalize_text],
    [content_signature], [discover_onion_candidates], [save_discoveries],
    [recently_seen_signature], [run]) as Rocq functions, together with
    models of the library calls they make, and then states and proves
    the properties of the design document against them.

    Conventions.
    - A Python [str] is a [string]; a character is a code point below 256
      (Latin-1), on which [str.isspace], [str.lower] and the [re] module
      are modelled exactly.
    - SQL [NULL] is [None]; a nullable column has an [option] type.
    - The process runs in a monad [M] over a [world]: the open sqlite
      connection and the traces of what the process did.  What the world
      outside answers (clock, network, disk, targets file) is an [env]. *)

From Stdlib Require Import ZArith Ascii String List Lia Bool.
From stdpp Require Import base list strings gmap.

Local Open Scope Z_scope.

(** ** Python [str] methods *)

Module Str.

Definition ord (c : ascii) : Z := Z.of_N (N_of_ascii c).
Definition chr (z : Z) : ascii := ascii_of_N (Z.to_N z).

(** [c.isspace()] for a code point below 256. *)
Definition isspace (c : ascii) : bool :=
  let n := ord c in
  ((9 <=? n) && (n <=? 13)) || ((28 <=? n) && (n <=? 32))
  || (n =? 133) || (n =? 160).

(** [c.lower()] for a code point below 256: [A-Z], and the Latin-1
    capitals U+00C0..U+00DE except the multiplication sign U+00D7. *)
Definition lower_char (c : ascii) : ascii :=
  let n := ord c in
  if ((65 <=? n) && (n <=? 90))
     || ((192 <=? n) && (n <=? 222) && negb (n =? 215))
  then chr (n + 32) else c.

Fixpoint lower (s : string) : string :=
  match s with
  | EmptyString => EmptyString
  | String c r => String (lower_char c) (lower r)
  end.

Definition is_empty (s : string) : bool :=
  match s with EmptyString => true | _ => false end.

Definition starts_space (s : string) : bool :=
  match s with String c _ => isspace c | EmptyString => false end.

Fixpoint lstrip (s : string) : string :=
  match s with
  | String c r => if isspace c then lstrip r else s
  | EmptyString => EmptyString
  end.

Fixpoint rstrip (s : string) : string :=
  match s with
  | String c r =>
      let r' := rstrip r in
      if is_empty r' && isspace c then EmptyString else String c r'
  | EmptyString => EmptyString
  end.

(** [s.strip()] *)
Definition strip (s : string) : string := rstrip (lstrip s).

(** [sep.join(parts)] *)
Fixpoint join (sep : string) (parts : list string) : string :=
  match parts with
  | [] => EmptyString
  | [p] => p
  | p :: ps => p +:+ sep +:+ join sep ps
  end.

(** [s.startswith(p)] *)
Fixpoint startswith (p s : string) : bool :=
  match p, s with
  | EmptyString, _ => true
  | String a p', String b s' => Ascii.eqb a b && startswith p' s'
  | String _ _, EmptyString => false
  end.

(** [c in s] for a character [c]. *)
Fixpoint contains (c : ascii) (s : string) : bool :=
  match s with
  | EmptyString => false
  | String a r => Ascii.eqb a c || contains c r
  end.

(** [s[n:]] *)
Fixpoint drop (n : nat) (s : string) : string :=
  match n, s with
  | O, _ => s
  | S n', String _ r => drop n' r
  | S _, EmptyString => EmptyString
  end.

(** [s[:n]] *)
Fixpoint take (n : nat) (s : string) : string :=
  match n, s with
  | O, _ => EmptyString
  | S n', String c r => String c (take n' r)
  | S _, EmptyString => EmptyString
  end.

(** [s.partition(c)]: the text before the first [c], whether [c] was
    found, and the text after it. *)
Fixpoint partition (c : ascii) (s : string) : string * bool * string :=
  match s with
  | EmptyString => (EmptyString, false, EmptyString)
  | String a r =>
      if Ascii.eqb a c then (EmptyString, true, r)
      else let '(h, f, t) := partition c r in (String a h, f, t)
  end.

(** [s.rpartition(c)]: as [partition], at the last [c]; when [c] does not
    occur the whole string is the third component. *)
Fixpoint rpartition (c : ascii) (s : string) : string * bool * string :=
  match s with
  | EmptyString => (EmptyString, false, EmptyString)
  | String a r =>
      let '(h, f, t) := rpartition c r in
      if f then (String a h, true, t)
      else if Ascii.eqb a c then (EmptyString, true, r)
      else (EmptyString, false, String a t)
  end.

(** [s.split(c)] for a one-character separator. *)
Fixpoint split (c : ascii) (s : string) : list string :=
  match s with
  | EmptyString => [EmptyString]
  | String a r =>
      if Ascii.eqb a c then EmptyString :: split c r
      else match split c r with
           | w :: ws => String a w :: ws
           | [] => [String a EmptyString]
           end
  end.

(** [s.split()]: the maximal runs of non-whitespace characters. *)
Fixpoint words (s : string) : list string :=
  match s with
  | EmptyString => []
  | String c r =>
      if isspace c then words r
      else if is_empty r || starts_space r then String c EmptyString :: words r
      else match words r with
           | w :: ws => String c w :: ws
           | [] => [String c EmptyString]
           end
  end.

(** [s.endswith(p)] *)
Definition endswith (p s : string) : bool :=
  startswith p (drop (String.length s - String.length p) s)
  && (String.length p <=? String.length s)%nat.

(** [s.encode("utf-8")] for code points below 256. *)
Fixpoint encode_utf8 (s : string) : list Z :=
  match s with
  | EmptyString => []
  | String c r =>
      let n := ord c in
      if n <? 128 then n :: encode_utf8 r
      else Z.lor 192 (Z.shiftr n 6) :: Z.lor 128 (Z.land n 63) :: encode_utf8 r
  end.

End Str.

(** ** [hashlib.sha256] (FIPS 180-4), on 32-bit words held in [Z] *)

Module hashlib.

Definition add32 (x y : Z) : Z := (x + y) mod 2 ^ 32.
Definition rotr (n x : Z) : Z :=
  Z.lor (Z.shiftr x n) (Z.shiftl x (32 - n) mod 2 ^ 32).
Definition not32 (x : Z) : Z := Z.lxor x 0xFFFFFFFF.

Definition Ch (x y z : Z) : Z := Z.lxor (Z.land x y) (Z.land (not32 x) z).
Definition Maj (x y z : Z) : Z :=
  Z.lxor (Z.lxor (Z.land x y) (Z.land x z)) (Z.land y z).
Definition Sigma0 (x : Z) : Z := Z.lxor (Z.lxor (rotr 2 x) (rotr 13 x)) (rotr 22 x).
Definition Sigma1 (x : Z) : Z := Z.lxor (Z.lxor (rotr 6 x) (rotr 11 x)) (rotr 25 x).
Definition sigma0 (x : Z) : Z := Z.lxor (Z.lxor (rotr 7 x) (rotr 18 x)) (Z.shiftr x 3).
Definition sigma1 (x : Z) : Z := Z.lxor (Z.lxor (rotr 17 x) (rotr 19 x)) (Z.shiftr x 10).

(** The constants are the ones FIPS 180-4 defines: the first 32 bits of the
    fractional parts of the cube roots of the first 64 primes (round
    constants) and of the square roots of the first 8 primes (initial hash
    value). *)
Definition is_prime (n : Z) : bool :=
  (1 <? n) && forallb (fun d => negb (n mod d =? 0)) (map Z.of_nat (seq 2 (Z.to_nat n - 2))).

Definition primes (n : nat) : list Z :=
  firstn n (filter is_prime (map Z.of_nat (seq 2 310))).

(** Integer cube root, bit by bit from bit [bits - 1] down. *)
Fixpoint cbrt_from (bits : nat) (n r : Z) : Z :=
  match bits with
  | O => r
  | S b =>
      let r' := r + 2 ^ Z.of_nat b in
      cbrt_from b n (if r' * r' * r' <=? n then r' else r)
  end.

Definition frac_cbrt (p : Z) : Z := cbrt_from 36 (p * 2 ^ 96) 0 mod 2 ^ 32.
Definition frac_sqrt (p : Z) : Z := Z.sqrt (p * 2 ^ 64) mod 2 ^ 32.

Definition K : list Z := Eval vm_compute in map frac_cbrt (primes 64).

Definition H0 : list Z := Eval vm_compute in map frac_sqrt (primes 8).

(** The [n]-byte big-endian encoding of [x]. *)
Fixpoint be_bytes (n : nat) (x : Z) : list Z :=
  match n with
  | O => []
  | S n' => Z.shiftr x (8 * Z.of_nat n') mod 256 :: be_bytes n' x
  end.

(** Padding: a [0x80] byte, zeros up to 56 modulo 64, the bit length. *)
Definition pad (msg : list Z) : list Z :=
  let l := Z.of_nat (length msg) in
  msg ++ [0x80] ++ repeat 0 (Z.to_nat ((55 - l) mod 64)) ++ be_bytes 8 (8 * l).

(** Big-endian 32-bit words of a byte string. *)
Fixpoint to_words (n : nat) (bytes : list Z) : list Z :=
  match n with
  | O => []
  | S n' =>
      match bytes with
      | a :: b :: c :: d :: rest =>
          (((a * 256 + b) * 256 + c) * 256 + d) :: to_words n' rest
      | _ => []
      end
  end.

(** The message schedule, most recent word first: [n] more words. *)
Fixpoint schedule (n : nat) (w : list Z) : list Z :=
  match n with
  | O => w
  | S n' =>
      let x := add32 (add32 (sigma1 (nth 1 w 0)) (nth 6 w 0))
                     (add32 (sigma0 (nth 14 w 0)) (nth 15 w 0)) in
      schedule n' (x :: w)
  end.

Record regs := Regs { ra : Z; rb : Z; rc : Z; rd : Z; re : Z; rf : Z; rg : Z; rh : Z }.

Definition round (s : regs) (kw : Z * Z) : regs :=
  let '(k, w) := kw in
  let t1 := add32 (add32 (add32 (rh s) (Sigma1 (re s))) (Ch (re s) (rf s) (rg s)))
                  (add32 k w) in
  let t2 := add32 (Sigma0 (ra s)) (Maj (ra s) (rb s) (rc s)) in
  Regs (add32 t1 t2) (ra s) (rb s) (rc s) (add32 (rd s) t1) (re s) (rf s) (rg s).

Definition regs_of (h : list Z) : regs :=
  Regs (nth 0 h 0) (nth 1 h 0) (nth 2 h 0) (nth 3 h 0)
       (nth 4 h 0) (nth 5 h 0) (nth 6 h 0) (nth 7 h 0).

Definition compress (h : list Z) (block : list Z) : list Z :=
  let w := rev (schedule 48 (rev block)) in
  let s0 := regs_of h in
  let s := fold_left round (combine K w) s0 in
  [ add32 (ra s0) (ra s); add32 (rb s0) (rb s); add32 (rc s0) (rc s);
    add32 (rd s0) (rd s); add32 (re s0) (re s); add32 (rf s0) (rf s);
    add32 (rg s0) (rg s); add32 (rh s0) (rh s) ].

Fixpoint blocks (n : nat) (h : list Z) (ws : list Z) : list Z :=
  match n with
  | O => h
  | S n' => blocks n' (compress h (firstn 16 ws)) (skipn 16 ws)
  end.

Definition sha256 (msg : list Z) : list Z :=
  let p := pad msg in
  let ws := to_words (length p / 4) p in
  blocks (length ws / 16) H0 ws.

Definition hex_digit (n : Z) : ascii :=
  if n <? 10 then Str.chr (48 + n) else Str.chr (87 + n).

Fixpoint hex_of (n : nat) (x : Z) : string :=
  match n with
  | O => EmptyString
  | S n' => String (hex_digit (Z.shiftr x (4 * Z.of_nat n') mod 16)) (hex_of n' x)
  end.

(** [hashlib.sha256(msg).hexdigest()] *)
Definition hexdigest (msg : list Z) : string :=
  fold_right (fun w acc => hex_of 8 w +:+ acc) EmptyString (sha256 msg).

End hashlib.

(** ** Python exceptions

    Every class here derives from [Exception], so [except Exception]
    catches all of them; [str(exc)] is the message. *)

Inductive exception :=
| ValueError (msg : string)
| RequestException (msg : string)
| sqlite3_Error (msg : string)
| OSError (msg : string).

Definition str_exc (e : exception) : string :=
  match e with
  | ValueError m | RequestException m | sqlite3_Error m | OSError m => m
  end.

(** The outcome of a call: a value, or an exception raised. *)
Inductive result (A : Type) :=
| Ok (a : A)
| Raise (e : exception).
Arguments Ok {A} a.
Arguments Raise {A} e.

(** ** The [re] module, for patterns without alternation or star

    Such a pattern matches at a position in at most one way, so
    [match_here] returns the text left after the match.  With
    [IGNORECASE] a character is lowered before it is compared; on code
    points below 256 this is what [re] does for an ASCII class or
    literal. *)

Module re.

Inductive regex :=
| Eps
| Lit (c : ascii)
| Class (p : ascii -> bool)
| Repeat (n : nat) (r : regex)
| Seq (r1 r2 : regex).

Fixpoint literal (s : string) : regex :=
  match s with
  | EmptyString => Eps
  | String c r => Seq (Lit c) (literal r)
  end.

Record Pattern := compile { pattern : regex; IGNORECASE : bool }.

Definition fold_case (ic : bool) (c : ascii) : ascii :=
  if ic then Str.lower_char c else c.

Fixpoint match_here (ic : bool) (r : regex) (s : string) : option string :=
  match r with
  | Eps => Some s
  | Lit a =>
      match s with
      | String c rest =>
          if Ascii.eqb (fold_case ic c) (fold_case ic a) then Some rest else None
      | EmptyString => None
      end
  | Class p =>
      match s with
      | String c rest => if p (fold_case ic c) then Some rest else None
      | EmptyString => None
      end
  | Repeat n r1 =>
      (fix rep (n : nat) (s : string) : option string :=
         match n with
         | O => Some s
         | S n' =>
             match match_here ic r1 s with
             | Some rest => rep n' rest
             | None => None
             end
         end) n s
  | Seq r1 r2 =>
      match match_here ic r1 s with
      | Some rest => match_here ic r2 rest
      | None => None
      end
  end.

(** [P.fullmatch(s)], as a truth value. *)
Definition fullmatch (P : Pattern) (s : string) : bool :=
  match match_here (IGNORECASE P) (pattern P) s with
  | Some EmptyString => true
  | _ => false
  end.

(** The scan of [P.findall(s)]: [skip] characters of a match found
    earlier are still to be passed over. *)
Fixpoint findall_from (P : Pattern) (skip : nat) (s : string) : list string :=
  match s with
  | EmptyString =>
      match skip, match_here (IGNORECASE P) (pattern P) EmptyString with
      | O, Some _ => [EmptyString]
      | _, _ => []
      end
  | String _ tl =>
      match skip with
      | S k => findall_from P k tl
      | O =>
          match match_here (IGNORECASE P) (pattern P) s with
          | Some rest =>
              let n := (String.length s - String.length rest)%nat in
              Str.take n s :: findall_from P (n - 1) tl
          | None => findall_from P 0 tl
          end
      end
  end.

(** [P.findall(s)]: the non-overlapping matches, left to right. *)
Definition findall (P : Pattern) (s : string) : list string := findall_from P 0 s.

(** [re.sub(r"\s+", repl, s)]: every maximal run of whitespace becomes
    [repl]. *)
Fixpoint sub_spaces (repl s : string) : string :=
  match s with
  | EmptyString => EmptyString
  | String c r =>
      if Str.isspace c then
        (if Str.starts_space r then sub_spaces repl r else repl +:+ sub_spaces repl r)
      else String c (sub_spaces repl r)
  end.

End re.

(** ** [urllib.parse]: [urlparse], [urljoin] and the [hostname] property

    After CPython 3.11.  [urlsplit] raises [ValueError] on a netloc whose
    square brackets do not pair up; the further validation of a bracketed
    host as an IP literal (module [ipaddress]) is not part of the model. *)

Module urllib.

Definition uses_relative : list string :=
  [ ""; "ftp"; "http"; "gopher"; "nntp"; "imap"; "wais"; "file"; "https";
    "shttp"; "mms"; "prospero"; "rtsp"; "rtspu"; "sftp"; "svn"; "svn+ssh";
    "ws"; "wss" ].

Definition uses_netloc : list string :=
  [ ""; "ftp"; "http"; "gopher"; "nntp"; "telnet"; "imap"; "wais"; "file";
    "mms"; "https"; "shttp"; "snews"; "prospero"; "rtsp"; "rtspu"; "rsync";
    "svn"; "svn+ssh"; "sftp"; "nfs"; "git"; "git+ssh"; "ws"; "wss" ].

Definition uses_params : list string :=
  [ ""; "ftp"; "hdl"; "prospero"; "http"; "imap"; "https"; "shttp"; "rtsp";
    "rtspu"; "sip"; "sips"; "mms"; "sftp"; "tel" ].

Definition mem (s : string) (l : list string) : bool := existsb (String.eqb s) l.

Definition is_alpha (c : ascii) : bool :=
  let n := Str.ord c in
  ((65 <=? n) && (n <=? 90)) || ((97 <=? n) && (n <=? 122)).
Definition is_digit (c : ascii) : bool :=
  let n := Str.ord c in (48 <=? n) && (n <=? 57).
Definition scheme_char (c : ascii) : bool :=
  is_alpha c || is_digit c || Str.contains c "+-.".

Fixpoint all_chars (p : ascii -> bool) (s : string) : bool :=
  match s with
  | EmptyString => true
  | String c r => p c && all_chars p r
  end.

(** [url.lstrip(_WHATWG_C0_CONTROL_OR_SPACE)] *)
Fixpoint lstrip_c0 (s : string) : string :=
  match s with
  | String c r => if Str.ord c <=? 32 then lstrip_c0 r else s
  | EmptyString => EmptyString
  end.

(** Removal of tab, carriage return and newline. *)
Fixpoint remove_unsafe (s : string) : string :=
  match s with
  | EmptyString => EmptyString
  | String c r =>
      let n := Str.ord c in
      if (n =? 9) || (n =? 10) || (n =? 13) then remove_unsafe r
      else String c (remove_unsafe r)
  end.

(** [_splitnetloc(url, 2)] on the text after the two slashes. *)
Fixpoint splitnetloc (s : string) : string * string :=
  match s with
  | EmptyString => (EmptyString, EmptyString)
  | String c r =>
      if Str.contains c "/?#" then (EmptyString, s)
      else let '(n, rest) := splitnetloc r in (String c n, rest)
  end.

Record SplitResult := mkSplit {
  s_scheme : string; s_netloc : string; s_path : string;
  s_query : string; s_fragment : string }.

Record ParseResult := mkParse {
  scheme : string; netloc : string; path : string;
  params : string; query : string; fragment : string }.

Definition check_bracketed_netloc (nl : string) : bool :=
  let '(_, _, hostname_and_port) := Str.rpartition "@" nl in
  let '(before_bracket, have_open_br, bracketed) := Str.partition "[" hostname_and_port in
  if have_open_br then
    if negb (Str.is_empty before_bracket) then false
    else
      let '(_, _, port) := Str.partition "]" bracketed in
      negb (negb (Str.is_empty port) && negb (Str.startswith ":" port))
  else true.

Definition urlsplit (url0 scheme0 : string) : result SplitResult :=
  let url := remove_unsafe (lstrip_c0 url0) in
  let sch0 := remove_unsafe (Str.rstrip (lstrip_c0 scheme0)) in
  let '(pre, found, post) := Str.partition ":" url in
  let '(sch, url) :=
    if found && negb (Str.is_empty pre)
       && is_alpha (match pre with String c _ => c | EmptyString => " "%char end)
       && all_chars scheme_char pre
    then (Str.lower pre, post) else (sch0, url) in
  let go (nl url : string) :=
    let '(url, _, frag) := Str.partition "#" url in
    let '(url, _, qry) := Str.partition "?" url in
    Ok (mkSplit sch nl url qry frag) in
  if Str.startswith "//" url then
    let '(nl, rest) := splitnetloc (Str.drop 2 url) in
    if xorb (Str.contains "[" nl) (Str.contains "]" nl)
    then Raise (ValueError "Invalid IPv6 URL")
    else if Str.contains "[" nl && negb (check_bracketed_netloc nl)
    then Raise (ValueError "Invalid IPv6 URL")
    else go nl rest
  else go EmptyString url.

(** [_splitparams(url)] *)
Definition splitparams (url : string) : string * string :=
  if Str.contains "/" url then
    let '(dir, _, last) := Str.rpartition "/" url in
    let '(pre, found, post) := Str.partition ";" last in
    if found then (dir +:+ "/" +:+ pre, post) else (url, EmptyString)
  else
    let '(pre, found, post) := Str.partition ";" url in
    if found then (pre, post) else (Str.take (String.length url - 1) url, url).

Definition urlparse (url scheme0 : string) : result ParseResult :=
  match urlsplit url scheme0 with
  | Raise e => Raise e
  | Ok r =>
      let '(p, prm) :=
        if mem (s_scheme r) uses_params && Str.contains ";" (s_path r)
        then splitparams (s_path r) else (s_path r, EmptyString) in
      Ok (mkParse (s_scheme r) (s_netloc r) p prm (s_query r) (s_fragment r))
  end.

Definition urlunsplit (sch nl url qry frag : string) : string :=
  let url :=
    if negb (Str.is_empty nl)
       || (negb (Str.is_empty sch) && mem sch uses_netloc
           && negb (Str.startswith "//" url))
    then "//" +:+ nl +:+
         (if negb (Str.is_empty url) && negb (Str.startswith "/" url)
          then "/" +:+ url else url)
    else url in
  let url := if Str.is_empty sch then url else sch +:+ ":" +:+ url in
  let url := if Str.is_empty qry then url else url +:+ "?" +:+ qry in
  if Str.is_empty frag then url else url +:+ "#" +:+ frag.

Definition urlunparse (sch nl url prm qry frag : string) : string :=
  urlunsplit sch nl (if Str.is_empty prm then url else url +:+ ";" +:+ prm) qry frag.

(** The loop of [urljoin] that resolves [.] and [..] segments;
    [resolved] is held last segment first. *)
Fixpoint resolve (segments resolved : list string) : list string :=
  match segments with
  | [] => rev resolved
  | seg :: rest =>
      if String.eqb seg ".." then resolve rest (tl resolved)
      else if String.eqb seg "." then resolve rest resolved
      else resolve rest (seg :: resolved)
  end.

(** [segments[1:-1] = filter(None, segments[1:-1])] *)
Definition filter_inner (segments : list string) : list string :=
  match segments with
  | [] => []
  | first :: rest =>
      match rev rest with
      | [] => [first]
      | lst :: mid =>
          first :: List.filter (fun s => negb (Str.is_empty s)) (rev mid) ++ [lst]
      end
  end.

Definition urljoin (base url : string) : result string :=
  if Str.is_empty base then Ok url
  else if Str.is_empty url then Ok base
  else
    match urlparse base EmptyString with
    | Raise e => Raise e
    | Ok b =>
      match urlparse url (scheme b) with
      | Raise e => Raise e
      | Ok u =>
        if negb (String.eqb (scheme u) (scheme b)) || negb (mem (scheme u) uses_relative)
        then Ok url
        else if mem (scheme u) uses_netloc && negb (Str.is_empty (netloc u))
        then Ok (urlunparse (scheme u) (netloc u) (path u) (params u) (query u) (fragment u))
        else
          let nl := if mem (scheme u) uses_netloc then netloc b else netloc u in
          if Str.is_empty (path u) && Str.is_empty (params u) then
            Ok (urlunparse (scheme u) nl (path b) (params b)
                  (if Str.is_empty (query u) then query b else query u) (fragment u))
          else
            let base_parts := Str.split "/" (path b) in
            let base_parts :=
              if Str.is_empty (List.last base_parts EmptyString) then base_parts
              else removelast base_parts in
            let segments :=
              if Str.startswith "/" (path u) then Str.split "/" (path u)
              else filter_inner (base_parts ++ Str.split "/" (path u)) in
            let resolved := resolve segments [] in
            let resolved :=
              if mem (List.last segments EmptyString) ["."; ".."]
              then resolved ++ [EmptyString] else resolved in
            let joined := Str.join "/" resolved in
            Ok (urlunparse (scheme u) nl
                  (if Str.is_empty joined then "/" else joined)
                  (params u) (query u) (fragment u))
      end
    end.

(** [urlparse(url).hostname]; [None] when the URL has no host. *)
Definition hostname (r : ParseResult) : option string :=
  let '(_, _, hostinfo) := Str.rpartition "@" (netloc r) in
  let '(_, have_open_br, bracketed) := Str.partition "[" hostinfo in
  let host :=
    if have_open_br then fst (fst (Str.partition "]" bracketed))
    else fst (fst (Str.partition ":" hostinfo)) in
  if Str.is_empty host then None
  else
    let '(h, percent, zone) := Str.partition "%" host in
    Some (Str.lower h +:+ (if percent then "%" else EmptyString) +:+ zone).

End urllib.

(** ** [html.parser.HTMLParser], as [bs4] drives it

    [goahead] is the tokenizer loop: it turns the markup into the handler
    calls the parser makes.  The model covers text, start tags with
    attributes, end tags, comments, [<!...>] and [<?...>] constructs and
    the raw text of [script] and [style] elements.  Character references
    are not decoded (an ampersand is text), and marked sections
    ([<![...]>]) are read like other [<!...>] constructs.  The loop runs
    at most once per character of the markup, which is what [fuel]
    counts. *)

Module html_parser.

Inductive event :=
| handle_starttag (tag : string) (attrs : list (string * option string))
| handle_startendtag (tag : string) (attrs : list (string * option string))
| handle_endtag (tag : string)
| handle_data (data : string)
| handle_comment (data : string)
| handle_decl (data : string)
| handle_pi (data : string).

Definition CDATA_CONTENT_ELEMENTS : list string := ["script"; "style"].

(** The longest prefix whose characters satisfy [p], and the rest. *)
Fixpoint span (p : ascii -> bool) (s : string) : string * string :=
  match s with
  | EmptyString => (EmptyString, EmptyString)
  | String c r =>
      if p c then let '(a, b) := span p r in (String c a, b)
      else (EmptyString, s)
  end.

Definition is_char (a c : ascii) : bool := Ascii.eqb a c.

(** The double quote. *)
Definition dquote : ascii := Str.chr 34.

(** [[^\t\n\r\f />\x00]], the characters of a tag name after the first. *)
Definition name_char (c : ascii) : bool :=
  let n := Str.ord c in
  negb ((n =? 9) || (n =? 10) || (n =? 13) || (n =? 12) || (n =? 32)
        || (n =? 47) || (n =? 62) || (n =? 0)).

(** [[^\s/=>]], the characters of an attribute name after the first. *)
Definition attr_name_char (c : ascii) : bool :=
  negb (Str.isspace c || Str.contains c "/=>").

(** [[-.a-zA-Z0-9:_]], the characters of the name of a regular end tag. *)
Definition endtag_name_char (c : ascii) : bool :=
  urllib.is_alpha c || urllib.is_digit c || Str.contains c "-.:_".

(** [(?:\s|/(?!>))*] *)
Fixpoint skip_space_slash (s : string) : string :=
  match s with
  | String c r =>
      if Str.isspace c then skip_space_slash r
      else if is_char "/" c && negb (Str.startswith ">" r) then skip_space_slash r
      else s
  | EmptyString => EmptyString
  end.

(** The attributes of a start tag and its end: the attributes, whether
    the tag ends in [/>], and the markup after the tag.  [None] when the
    tag is not complete. *)
Fixpoint parse_attrs (fuel : nat) (s : string) (acc : list (string * option string))
  : option (list (string * option string) * bool * string) :=
  match fuel with
  | O => None
  | S fuel' =>
      match skip_space_slash s with
      | EmptyString => None
      | String c r =>
          if is_char ">" c then Some (rev acc, false, r)
          else if is_char "/" c then Some (rev acc, true, Str.drop 1 r)
          else
            let '(nm, s1) := span attr_name_char r in
            let name := Str.lower (String c nm) in
            let s2 := Str.lstrip s1 in
            if Str.startswith "=" s2 then
              match Str.lstrip (snd (span (is_char "=") s2)) with
              | EmptyString => None
              | String q r3 =>
                  if is_char dquote q || is_char "'" q then
                    match Str.partition q r3 with
                    | (v, true, rest) => parse_attrs fuel' rest ((name, Some v) :: acc)
                    | _ => None
                    end
                  else
                    let '(v, rest) :=
                      span (fun c => negb (is_char ">" c || Str.isspace c)) (String q r3) in
                    parse_attrs fuel' rest ((name, Some v) :: acc)
              end
            else parse_attrs fuel' s1 ((name, None) :: acc)
      end
  end.

(** [\s*>] at the head of [s]: the markup after it. *)
Fixpoint space_gt (s : string) : option string :=
  match s with
  | String c r =>
      if is_char ">" c then Some r
      else if Str.isspace c then space_gt r else None
  | EmptyString => None
  end.

(** [commentclose.search]: the text before the first [--\s*>] and the
    markup after it. *)
Fixpoint find_commentclose (s : string) : option (string * string) :=
  match s with
  | EmptyString => None
  | String c r =>
      match (if Str.startswith "--" s then space_gt (Str.drop 2 s) else None) with
      | Some rest => Some (EmptyString, rest)
      | None =>
          match find_commentclose r with
          | Some (b, rest) => Some (String c b, rest)
          | None => None
          end
      end
  end.

(** The text of a comment that the end of the markup cuts short. *)
Definition trim_comment (s : string) : string :=
  let n := String.length s in
  if Str.endswith "--!" s then Str.take (n - 3) s
  else if Str.endswith "--" s then Str.take (n - 2) s
  else if Str.endswith "-" s then Str.take (n - 1) s
  else s.

(** [</\s*elem\s*>] at the head of [s], ignoring case. *)
Definition close_of (elem s : string) : option string :=
  if Str.startswith "</" s then
    let s1 := Str.lstrip (Str.drop 2 s) in
    let n := String.length elem in
    if String.eqb (Str.lower (Str.take n s1)) elem then space_gt (Str.drop n s1)
    else None
  else None.

(** In the raw text of a [script] or [style] element: the text before
    its end tag and the markup after the end tag. *)
Fixpoint find_cdata_close (elem s : string) : option (string * string) :=
  match s with
  | EmptyString => None
  | String c r =>
      match close_of elem s with
      | Some rest => Some (EmptyString, rest)
      | None =>
          match find_cdata_close elem r with
          | Some (b, rest) => Some (String c b, rest)
          | None => None
          end
      end
  end.

(** [parse_endtag] on the markup after [</]. *)
Definition parse_endtag (s : string) : option (list event * string) :=
  match Str.partition ">" s with
  | (body, true, rest) =>
      let inner := Str.strip body in
      let '(nm, junk) := span endtag_name_char inner in
      match inner with
      | String c _ =>
          if urllib.is_alpha c && Str.is_empty junk
          then Some ([handle_endtag (Str.lower nm)], rest)
          else
            match body with
            | String c0 _ =>
                if urllib.is_alpha c0
                then Some ([handle_endtag (Str.lower (fst (span name_char body)))], rest)
                else Some ([handle_comment body], rest)
            | EmptyString => Some ([], rest)
            end
      | EmptyString =>
          if Str.is_empty body then Some ([], rest)
          else Some ([handle_comment body], rest)
      end
  | _ => None
  end.

Fixpoint goahead (fuel : nat) (cdata_elem : option string) (rawdata : string)
  : list event :=
  match fuel with
  | O => []
  | S fuel' =>
    match cdata_elem with
    | Some elem =>
        match find_cdata_close elem rawdata with
        | Some (data, rest) =>
            (if Str.is_empty data then [] else [handle_data data])
            ++ handle_endtag elem :: goahead fuel' None rest
        | None => []
        end
    | None =>
      match rawdata with
      | EmptyString => []
      | String c r =>
        if negb (is_char "<" c) then
          let '(text, rest) := span (fun c => negb (is_char "<" c)) rawdata in
          handle_data text :: goahead fuel' None rest
        else
          match r with
          | EmptyString => [handle_data "<"]
          | String c1 r1 =>
            if urllib.is_alpha c1 then
              let '(nm, s1) := span name_char r in
              let tag := Str.lower nm in
              match parse_attrs (S (String.length s1)) s1 [] with
              | Some (attrs, true, rest) =>
                  handle_startendtag tag attrs :: goahead fuel' None rest
              | Some (attrs, false, rest) =>
                  handle_starttag tag attrs
                  :: goahead fuel'
                       (if urllib.mem tag CDATA_CONTENT_ELEMENTS then Some tag else None)
                       rest
              | None => []
              end
            else if is_char "/" c1 then
              match parse_endtag r1 with
              | Some (evs, rest) => evs ++ goahead fuel' None rest
              | None =>
                  match r1 with
                  | EmptyString => [handle_data "</"]
                  | String c2 _ =>
                      if urllib.is_alpha c2 then [] else [handle_comment r1]
                  end
              end
            else if Str.startswith "!--" r then
              match find_commentclose (Str.drop 3 r) with
              | Some (body, rest) => handle_comment body :: goahead fuel' None rest
              | None => [handle_comment (trim_comment (Str.drop 3 r))]
              end
            else if is_char "?" c1 then
              match Str.partition ">" r1 with
              | (body, true, rest) => handle_pi body :: goahead fuel' None rest
              | _ => [handle_pi r1]
              end
            else if is_char "!" c1 then
              match Str.partition ">" r1 with
              | (body, true, rest) =>
                  (if String.eqb (Str.lower (Str.take 7 r1)) "doctype"
                   then handle_decl body else handle_comment body)
                  :: goahead fuel' None rest
              | _ =>
                  [if String.eqb (Str.lower (Str.take 7 r1)) "doctype"
                   then handle_decl r1 else handle_comment r1]
              end
            else handle_data "<" :: goahead fuel' None r
          end
      end
    end
  end.

(** [parser.feed(markup); parser.close()] *)
Definition feed (markup : string) : list event :=
  goahead (String.length markup) None markup.

End html_parser.

(** ** [bs4]: the tree [BeautifulSoup(markup, "html.parser")] builds, and
    the parts of its interface the monitor uses *)

Module bs4.

(** The classes of the strings of a document. *)
Inductive string_class :=
| NavigableString | CData | Comment | Declaration | Doctype
| ProcessingInstruction | Script | Stylesheet | TemplateString
| RubyTextString | RubyParenthesisString.

Definition string_class_eqb (a b : string_class) : bool :=
  match a, b with
  | NavigableString, NavigableString | CData, CData | Comment, Comment
  | Declaration, Declaration | Doctype, Doctype
  | ProcessingInstruction, ProcessingInstruction | Script, Script
  | Stylesheet, Stylesheet | TemplateString, TemplateString
  | RubyTextString, RubyTextString
  | RubyParenthesisString, RubyParenthesisString => true
  | _, _ => false
  end.

#[warnings="-register-all"]
Inductive PageElement :=
| Tag (name : string) (attrs : list (string * string)) (contents : list PageElement)
| Text (cls : string_class) (text : string).

(** [HTMLTreeBuilder.DEFAULT_STRING_CONTAINERS] *)
Definition string_containers (name : string) : option string_class :=
  if String.eqb name "rt" then Some RubyTextString
  else if String.eqb name "rp" then Some RubyParenthesisString
  else if String.eqb name "style" then Some Stylesheet
  else if String.eqb name "script" then Some Script
  else if String.eqb name "template" then Some TemplateString
  else None.

Definition empty_element_tags : list string :=
  [ "area"; "base"; "br"; "col"; "embed"; "hr"; "img"; "input"; "keygen";
    "link"; "menuitem"; "meta"; "param"; "source"; "track"; "wbr";
    "basefont"; "bgsound"; "command"; "frame"; "image"; "isindex";
    "nextid"; "spacer" ].

Definition preserve_whitespace_tags : list string := ["pre"; "textarea"].

(** An open tag: its name, attributes, and the children it has so far,
    last child first. *)
Record frame := Frame {
  f_name : string;
  f_attrs : list (string * string);
  f_rev : list PageElement }.

(** The tree builder's state: the open tags, innermost first, below them
    the children of the document root (last first), the text gathered
    since the last tag, and the void tags already closed. *)
Record builder := Builder {
  tagStack : list frame;
  root_rev : list PageElement;
  current_data : option string;
  already_closed_empty_element : list string }.

Definition object_was_parsed (o : PageElement) (b : builder) : builder :=
  match tagStack b with
  | f :: fs =>
      Builder (Frame (f_name f) (f_attrs f) (o :: f_rev f) :: fs)
              (root_rev b) (current_data b) (already_closed_empty_element b)
  | [] =>
      Builder [] (o :: root_rev b) (current_data b) (already_closed_empty_element b)
  end.

(** The class a string gets: inside [script], [style], [template], [rt]
    or [rp] a plain string takes the class of the innermost such tag. *)
Fixpoint innermost_container (stack : list frame) : option string_class :=
  match stack with
  | [] => None
  | f :: fs =>
      match string_containers (f_name f) with
      | Some c => Some c
      | None => innermost_container fs
      end
  end.

Definition string_container (b : builder) (base_class : string_class) : string_class :=
  match base_class with
  | NavigableString =>
      match innermost_container (tagStack b) with
      | Some c => c
      | None => NavigableString
      end
  | c => c
  end.

Definition ascii_space (c : ascii) : bool :=
  let n := Str.ord c in
  (n =? 32) || (n =? 10) || (n =? 9) || (n =? 12) || (n =? 13).

Definition endData (containerClass : string_class) (b : builder) : builder :=
  match current_data b with
  | None => b
  | Some d =>
      let d :=
        if urllib.all_chars ascii_space d
           && negb (existsb (fun f => urllib.mem (f_name f) preserve_whitespace_tags)
                      (tagStack b))
        then (if Str.contains (Str.chr 10) d then String (Str.chr 10) EmptyString
              else " "%string)
        else d in
      object_was_parsed (Text (string_container b containerClass) d)
        (Builder (tagStack b) (root_rev b) None (already_closed_empty_element b))
  end.

Definition add_data (d : string) (b : builder) : builder :=
  Builder (tagStack b) (root_rev b)
    (Some (match current_data b with Some old => old +:+ d | None => d end))
    (already_closed_empty_element b).

Definition pushTag (name : string) (attrs : list (string * string)) (b : builder) : builder :=
  Builder (Frame name attrs [] :: tagStack b) (root_rev b) (current_data b)
    (already_closed_empty_element b).

Definition cons_opt (o : option PageElement) (l : list PageElement) : list PageElement :=
  match o with Some e => e :: l | None => l end.

(** Closes the open tags down to the innermost one called [name]: the
    element that results and the tags left open. *)
Fixpoint pop_to (name : string) (child : option PageElement) (stack : list frame)
  : option PageElement * list frame :=
  match stack with
  | [] => (child, [])
  | f :: fs =>
      let node := Tag (f_name f) (f_attrs f) (rev (cons_opt child (f_rev f))) in
      if String.eqb (f_name f) name then (Some node, fs)
      else pop_to name (Some node) fs
  end.

(** [_popToTag(name)]: nothing happens when no open tag has that name. *)
Definition popToTag (name : string) (b : builder) : builder :=
  if existsb (fun f => String.eqb (f_name f) name) (tagStack b) then
    let '(node, rest) := pop_to name None (tagStack b) in
    let b' := Builder rest (root_rev b) (current_data b)
                (already_closed_empty_element b) in
    match node with Some e => object_was_parsed e b' | None => b' end
  else b.

(** Closes every open tag, at the end of the document. *)
Fixpoint pop_all (child : option PageElement) (stack : list frame) : option PageElement :=
  match stack with
  | [] => child
  | f :: fs =>
      pop_all (Some (Tag (f_name f) (f_attrs f) (rev (cons_opt child (f_rev f))))) fs
  end.

(** The attribute dictionary of a tag: a missing value is the empty
    string, and a later value of the same attribute replaces an earlier
    one, at the earlier one's place. *)
Fixpoint dict_set (k v : string) (d : list (string * string)) : list (string * string) :=
  match d with
  | [] => [(k, v)]
  | (k', v') :: r =>
      if String.eqb k' k then (k, v) :: r else (k', v') :: dict_set k v r
  end.

Definition attr_dict (attrs : list (string * option string)) : list (string * string) :=
  fold_left (fun d '(k, v) => dict_set k (match v with Some x => x | None => EmptyString end) d)
    attrs [].

Definition soup_handle_starttag (name : string) (attrs : list (string * option string))
  (b : builder) : builder :=
  pushTag name (attr_dict attrs) (endData NavigableString b).

Definition soup_handle_endtag (name : string) (b : builder) : builder :=
  popToTag name (endData NavigableString b).

Fixpoint remove_first (name : string) (l : list string) : list string :=
  match l with
  | [] => []
  | x :: r => if String.eqb x name then r else x :: remove_first name r
  end.

(** [BeautifulSoupHTMLParser.handle_endtag] *)
Definition parser_handle_endtag (name : string) (check_already_closed : bool)
  (b : builder) : builder :=
  if check_already_closed && urllib.mem name (already_closed_empty_element b) then
    Builder (tagStack b) (root_rev b) (current_data b)
      (remove_first name (already_closed_empty_element b))
  else soup_handle_endtag name b.

(** [BeautifulSoupHTMLParser.handle_starttag] *)
Definition parser_handle_starttag (name : string) (attrs : list (string * option string))
  (handle_empty_element : bool) (b : builder) : builder :=
  let b := soup_handle_starttag name attrs b in
  if urllib.mem name empty_element_tags && handle_empty_element then
    let b := parser_handle_endtag name false b in
    Builder (tagStack b) (root_rev b) (current_data b)
      (already_closed_empty_element b ++ [name])
  else b.

Definition special (cls : string_class) (data : string) (b : builder) : builder :=
  endData cls (add_data data (endData NavigableString b)).

Definition handle (b : builder) (e : html_parser.event) : builder :=
  match e with
  | html_parser.handle_starttag name attrs => parser_handle_starttag name attrs true b
  | html_parser.handle_startendtag name attrs =>
      parser_handle_endtag name true (parser_handle_starttag name attrs false b)
  | html_parser.handle_endtag name => parser_handle_endtag name true b
  | html_parser.handle_data d => add_data d b
  | html_parser.handle_comment d => special Comment d b
  | html_parser.handle_decl d => special Doctype (Str.drop 8 d) b
  | html_parser.handle_pi d => special ProcessingInstruction d b
  end.

(** [BeautifulSoup(markup, "html.parser")]: the document root. *)
Definition BeautifulSoup (markup : string) : PageElement :=
  let b := endData NavigableString
             (fold_left handle (html_parser.feed markup) (Builder [] [] None [])) in
  Tag "[document]" [] (rev (cons_opt (pop_all None (tagStack b)) (root_rev b))).

(** [element.descendants], in document order. *)
Fixpoint descendants (e : PageElement) : list PageElement :=
  match e with
  | Tag _ _ cs =>
      (fix go (l : list PageElement) : list PageElement :=
         match l with
         | [] => []
         | c :: l' => c :: descendants c ++ go l'
         end) cs
  | Text _ _ => []
  end.

(** The string classes [get_text] looks at, for a tag of a given name. *)
Definition interesting_string_types (e : PageElement) : list string_class :=
  match e with
  | Tag name _ _ =>
      match string_containers name with
      | Some c => [c]
      | None => [NavigableString; CData]
      end
  | Text _ _ => []
  end.

(** [element._all_strings(strip)] *)
Definition all_strings (strip : bool) (e : PageElement) : list string :=
  flat_map
    (fun d =>
       match d with
       | Text cls s =>
           if existsb (string_class_eqb cls) (interesting_string_types e) then
             if strip then
               (if Str.is_empty (Str.strip s) then [] else [Str.strip s])
             else [s]
           else []
       | Tag _ _ _ => []
       end)
    (descendants e).

(** [element.get_text(separator, strip=strip)] *)
Definition get_text (separator : string) (strip : bool) (e : PageElement) : string :=
  Str.join separator (all_strings strip e).

Definition get (d : list (string * string)) (k : string) : option string :=
  match List.find (fun kv => String.eqb (fst kv) k) d with
  | Some kv => Some (snd kv)
  | None => None
  end.

(** [soup.find_all(name, href=True)]: the tags called [name] that have
    an [href] attribute. *)
Definition find_all_href (name : string) (e : PageElement) : list PageElement :=
  List.filter
    (fun d =>
       match d with
       | Tag n attrs _ =>
           String.eqb n name
           && match get attrs "href" with Some _ => true | None => false end
       | Text _ _ => false
       end)
    (descendants e).

(** [soup.title]: the first tag called [title], if any. *)
Definition title (e : PageElement) : option PageElement :=
  List.find
    (fun d => match d with Tag n _ _ => String.eqb n "title" | Text _ _ => false end)
    (descendants e).

End bs4.

(** ** [requests]: what a fetch returns *)

Module requests.

Record Response := mkResponse {
  text : string;
  status_code : Z;
  url : string }.

End requests.

(** ** The result store

    The two tables of [init_db], a row per record.  SQL comparisons with
    [NULL] are neither true nor false, and [WHERE] keeps the rows on
    which its condition is true. *)

Module sqlite3.

Definition sql_eq (a b : option string) : option bool :=
  match a, b with
  | Some x, Some y => Some (String.eqb x y)
  | _, _ => None
  end.

Definition sql_ne (a b : option string) : option bool :=
  match sql_eq a b with Some t => Some (negb t) | None => None end.

Definition sql_and (p q : option bool) : option bool :=
  match p, q with
  | Some false, _ | _, Some false => Some false
  | Some true, Some true => Some true
  | _, _ => None
  end.

Definition is_true (c : option bool) : bool :=
  match c with Some true => true | _ => false end.

End sqlite3.

(** A row of [checks]. *)
Module checks.

Record row := mk {
  id : Z;
  checked_at : string;
  target_url : string;
  final_url : option string;
  status_code : option Z;
  ok : Z;
  error : option string;
  content_sig : option string;
  title : option string }.

End checks.

(** A row of [discovered_onions]. *)
Module discovered_onions.

Record row := mk {
  id : Z;
  discovered_at : string;
  source_url : string;
  discovered_url : string }.

End discovered_onions.

Record database := mkDatabase {
  t_checks : list checks.row;
  t_discovered_onions : list discovered_onions.row }.

(** The id an [AUTOINCREMENT] key gives the next row: one more than the
    largest id drawn so far.  For [checks], whose inserts are never
    ignored and whose rows are never deleted, these are the ids of the
    table; for [discovered_onions] see [next_discovery_id]. *)
Definition next_id (ids : list Z) : Z := 1 + fold_right Z.max 0 ids.

(** [INSERT INTO checks (...) VALUES (...)] *)
Definition insert_check (checked_at target_url : string) (final_url : option string)
  (status_code : option Z) (ok : Z) (error content_sig title : option string)
  (db : database) : database :=
  mkDatabase
    (t_checks db ++
       [checks.mk (next_id (List.map checks.id (t_checks db))) checked_at target_url
          final_url status_code ok error content_sig title])
    (t_discovered_onions db).

(** The [UNIQUE(source_url, discovered_url)] key of a discovery. *)
Definition pair_of (r : discovered_onions.row) : string * string :=
  (discovered_onions.source_url r, discovered_onions.discovered_url r).

Definition same_pair (source_url discovered_url : string) (r : discovered_onions.row) : bool :=
  String.eqb (discovered_onions.source_url r) source_url
  && String.eqb (discovered_onions.discovered_url r) discovered_url.

(** [INSERT OR IGNORE INTO discovered_onions (...) VALUES (?, ?, ?)],
    for the id [AUTOINCREMENT] has drawn for the row: the row is left
    out when its pair is in the table. *)
Definition insert_or_ignore_discovery (id : Z)
  (discovered_at source_url discovered_url : string) (db : database) : database :=
  if existsb (same_pair source_url discovered_url) (t_discovered_onions db) then db
  else
    mkDatabase (t_checks db)
      (t_discovered_onions db ++
         [discovered_onions.mk id discovered_at source_url discovered_url]).

(** [SELECT DISTINCT]: of the rows with the same [target_url], the first
    the scan meets stays. *)
Fixpoint distinct_target (seen : list string) (rows : list checks.row) : list checks.row :=
  match rows with
  | [] => []
  | r :: rest =>
      if urllib.mem (checks.target_url r) seen then distinct_target seen rest
      else r :: distinct_target (checks.target_url r :: seen) rest
  end.

(** [ORDER BY checked_at DESC]: an insertion sort on the text of the
    timestamps; rows with equal timestamps keep the order of the scan
    (a row goes before the rows of the same timestamp that the scan met
    after it). *)
Fixpoint insert_desc (r : checks.row) (sorted : list checks.row) : list checks.row :=
  match sorted with
  | [] => [r]
  | x :: rest =>
      if String.ltb (checks.checked_at r) (checks.checked_at x) then x :: insert_desc r rest
      else r :: sorted
  end.

Definition order_by_checked_at_desc (rows : list checks.row) : list checks.row :=
  fold_right insert_desc [] rows.

(** ** The monitor *)

Definition base32 (c : ascii) : bool :=
  let n := Str.ord c in
  ((97 <=? n) && (n <=? 122)) || ((50 <=? n) && (n <=? 55)).

(** [re.compile(r"[a-z2-7]{56}\.onion", re.IGNORECASE)] *)
Definition ONION_RE : re.Pattern :=
  re.compile (re.Seq (re.Repeat 56 (re.Class base32)) (re.literal ".onion")) true.

Record Config := mkConfig {
  socks_host : string;
  socks_port : Z;
  interval_s : Z;
  targets_file : string;
  db_path : string;
  follow_redirects : bool }.

(** [Config()] when no environment variable is set. *)
Definition default_config : Config :=
  mkConfig "tor" 9050 300 "/app/targets.txt" "/data/monitor.db" true.

Definition normalize_text (html : string) : string :=
  let soup := bs4.BeautifulSoup html in
  let text := bs4.get_text " " true soup in
  Str.lower (re.sub_spaces " " text).

Definition content_signature (html : string) : string :=
  let normalized := normalize_text html in
  hashlib.hexdigest (Str.encode_utf8 normalized).

(** The body of the loop over the anchors: [found] after one anchor. *)
Definition add_anchor (base_url : string) (found : result (gset string))
  (a : bs4.PageElement) : result (gset string) :=
  match found with
  | Raise e => Raise e
  | Ok found =>
      let href :=
        match a with
        | bs4.Tag _ attrs _ => default EmptyString (bs4.get attrs "href")
        | bs4.Text _ _ => EmptyString
        end in
      match urllib.urljoin base_url href with
      | Raise e => Raise e
      | Ok full =>
          match urllib.urlparse full EmptyString with
          | Raise e => Raise e
          | Ok parsed =>
              let host := Str.lower (default EmptyString (urllib.hostname parsed)) in
              if re.fullmatch ONION_RE host then Ok ({[ host ]} ∪ found) else Ok found
          end
      end
  end.

Definition discover_onion_candidates (base_url html : string) : result (gset string) :=
  let soup := bs4.BeautifulSoup html in
  let found : gset string := list_to_set (re.findall ONION_RE html) in
  match fold_left (add_anchor base_url) (bs4.find_all_href "a" soup) (Ok found) with
  | Raise e => Raise e
  | Ok found => Ok (set_map (fun host => "http://" +:+ host +:+ "/") found)
  end.

(** The statement of [recently_seen_signature], on the connection's
    tables. *)
Definition recently_seen_signature (conn : database) (signature current_target : string)
  : list string :=
  let rows :=
    List.filter
      (fun r =>
         sqlite3.is_true
           (sqlite3.sql_and
              (sqlite3.sql_eq (checks.content_sig r) (Some signature))
              (sqlite3.sql_ne (Some (checks.target_url r)) (Some current_target))))
      (t_checks conn) in
  List.map checks.target_url
    (firstn 5 (order_by_checked_at_desc (distinct_target [] rows))).

(** ** The process and its surroundings *)

(** What the world outside answers: the clock at the [n]-th reading, the
    network at the [n]-th request, whether the [n]-th statement on the
    sqlite connection fails (and how), and the lines of a file at the
    [n]-th opening. *)
Record env := mkEnv {
  clock : nat -> string;
  network : nat -> string -> Z -> bool -> result requests.Response;
  disk : nat -> option string;
  files : nat -> string -> result (list string) }.

(** A line of the process output. *)
Inductive line :=
| mirror_line (checked_at target : string) (mirrors : list string)
| redirect_line (checked_at target final_url : string)
| ok_line (checked_at target : string) (status_code : Z)
| fail_line (checked_at target exc : string).

(** The state of the process: the connection's tables, how often each
    part of the surroundings was asked, the traces of the requests
    made, of the mirror queries run, of the lines printed and of the
    time slept, and the counter [sqlite_sequence] keeps for the
    [AUTOINCREMENT] key of [discovered_onions]: the last id drawn for
    the table, whether the row was inserted or ignored. *)
Record world := mkWorld {
  conn : database;
  n_now : nat;
  n_get : nat;
  n_sql : nat;
  n_open : nat;
  fetched : list string;
  queried : list (string * string);
  stdout : list line;
  slept : list Z;
  seq_discovered_onions : Z }.

Definition M (A : Type) : Type := world -> result A * world.

Definition ret {A : Type} (a : A) : M A := fun w => (Ok a, w).

Definition bind {A B : Type} (m : M A) (k : A -> M B) : M B :=
  fun w =>
    match m w with
    | (Ok a, w') => k a w'
    | (Raise e, w') => (Raise e, w')
    end.

(** [try: body except Exception as exc: handler(exc)] *)
Definition try_except {A : Type} (body : M A) (handler : exception -> M A) : M A :=
  fun w =>
    match body w with
    | (Ok a, w') => (Ok a, w')
    | (Raise e, w') => handler e w'
    end.

(** A call that changes nothing by itself and may raise. *)
Definition lift {A : Type} (r : result A) : M A := fun w => (r, w).

Declare Scope monitor_scope.
Delimit Scope monitor_scope with monitor.
Notation "x <- m ;; k" := (bind m (fun x => k))
  (at level 100, m at next level, right associativity) : monitor_scope.
Notation "m ;; k" := (bind m (fun _ => k))
  (at level 100, right associativity) : monitor_scope.
Local Open Scope monitor_scope.

(** [for x in xs: body(x)] *)
Fixpoint for_each {A : Type} (xs : list A) (body : A -> M unit) : M unit :=
  match xs with
  | [] => ret tt
  | x :: rest => body x ;; for_each rest body
  end.

(** The changes a step makes to the world. *)

Definition ticked (w : world) : world :=
  mkWorld (conn w) (S (n_now w)) (n_get w) (n_sql w) (n_open w)
    (fetched w) (queried w) (stdout w) (slept w)
    (seq_discovered_onions w).

Definition requested (target : string) (w : world) : world :=
  mkWorld (conn w) (n_now w) (S (n_get w)) (n_sql w) (n_open w)
    (fetched w ++ [target]) (queried w) (stdout w) (slept w)
    (seq_discovered_onions w).

Definition executed (statement : database -> database) (w : world) : world :=
  mkWorld (statement (conn w)) (n_now w) (n_get w) (S (n_sql w)) (n_open w)
    (fetched w) (queried w) (stdout w) (slept w)
    (seq_discovered_onions w).

Definition selected (signature current_target : string) (w : world) : world :=
  mkWorld (conn w) (n_now w) (n_get w) (S (n_sql w)) (n_open w)
    (fetched w) (queried w ++ [(signature, current_target)]) (stdout w) (slept w)
    (seq_discovered_onions w).

Definition printed (l : line) (w : world) : world :=
  mkWorld (conn w) (n_now w) (n_get w) (n_sql w) (n_open w)
    (fetched w) (queried w) (stdout w ++ [l]) (slept w)
    (seq_discovered_onions w).

Definition asleep (seconds : Z) (w : world) : world :=
  mkWorld (conn w) (n_now w) (n_get w) (n_sql w) (n_open w)
    (fetched w) (queried w) (stdout w) (slept w ++ [seconds])
    (seq_discovered_onions w).

Definition opened (w : world) : world :=
  mkWorld (conn w) (n_now w) (n_get w) (n_sql w) (S (n_open w))
    (fetched w) (queried w) (stdout w) (slept w)
    (seq_discovered_onions w).

(** The id [AUTOINCREMENT] draws for the next row of
    [discovered_onions]: one more than the largest of the ids of the
    table and the counter. *)
Definition next_discovery_id (w : world) : Z :=
  next_id (seq_discovered_onions w
           :: List.map discovered_onions.id (t_discovered_onions (conn w))).

Definition counted (id : Z) (w : world) : world :=
  mkWorld (conn w) (n_now w) (n_get w) (n_sql w) (n_open w)
    (fetched w) (queried w) (stdout w) (slept w) id.

Section Process.

Variable E : env.

Definition utc_now : M string :=
  fun w => (Ok (clock E (n_now w)), ticked w).

(** [session.get(target, timeout=..., allow_redirects=...)] *)
Definition session_get (target : string) (timeout : Z) (allow_redirects : bool)
  : M requests.Response :=
  fun w => (network E (n_get w) target timeout allow_redirects, requested target w).

(** [conn.execute(statement)] for a statement that writes, and
    [conn.commit()]: the statement takes effect unless the disk fails. *)
Definition conn_execute (statement : database -> database) : M unit :=
  fun w =>
    match disk E (n_sql w) with
    | Some msg => (Raise (sqlite3_Error msg), executed (fun db => db) w)
    | None => (Ok tt, executed statement w)
    end.

Definition conn_commit : M unit := conn_execute (fun db => db).

(** [conn.execute] of the [INSERT OR IGNORE] into [discovered_onions]:
    an id is drawn, and the counter keeps it, also when the row is
    ignored. *)
Definition conn_insert_discovery (discovered_at source_url discovered_url : string)
  : M unit :=
  fun w =>
    match disk E (n_sql w) with
    | Some msg => (Raise (sqlite3_Error msg), executed (fun db => db) w)
    | None =>
        (Ok tt,
         counted (next_discovery_id w)
           (executed
              (insert_or_ignore_discovery (next_discovery_id w)
                 discovered_at source_url discovered_url) w))
    end.

(** [conn.execute(select).fetchall()] for the mirror query. *)
Definition conn_select_mirrors (signature current_target : string) : M (list string) :=
  fun w =>
    match disk E (n_sql w) with
    | Some msg => (Raise (sqlite3_Error msg), selected signature current_target w)
    | None =>
        (Ok (recently_seen_signature (conn w) signature current_target),
         selected signature current_target w)
    end.

Definition print (l : line) : M unit := fun w => (Ok tt, printed l w).

(** [time.sleep(seconds)] *)
Definition sleep (seconds : Z) : M unit := fun w => (Ok tt, asleep seconds w).

(** [open(path)] and the reading of its lines. *)
Definition read_lines (path : string) : M (list string) :=
  fun w => (files E (n_open w) path, opened w).

Definition load_targets (path : string) : M (list string) :=
  lines <- read_lines path ;;
  ret (flat_map
         (fun raw =>
            let line := Str.strip raw in
            if Str.is_empty line || Str.startswith "#" line then [] else [line])
         lines).

(** [CREATE TABLE IF NOT EXISTS] twice and a commit: the tables of an
    existing store stay as they are. *)
Definition init_db : M unit :=
  conn_execute (fun db => db) ;;
  conn_execute (fun db => db) ;;
  conn_commit.

Definition save_discoveries (source_url : string) (discoveries : list string) : M unit :=
  for_each discoveries
    (fun url =>
       now <- utc_now ;;
       conn_insert_discovery now source_url url) ;;
  conn_commit.

(** The fingerprint recorded for a body: none for the empty body. *)
Definition sig_of (html : string) : option string :=
  if Str.is_empty html then None else Some (content_signature html).

(** The suite of [try] in [run]: fetch, fingerprint, record, discover,
    look for mirrors, report. *)
Definition attempt (cfg : Config) (target checked_at : string) : M unit :=
  response <- session_get target 45 (follow_redirects cfg) ;;
  let html := requests.text response in
  let sig := sig_of html in
  let title := bs4.title (bs4.BeautifulSoup html) in
  let title_text := option_map (bs4.get_text EmptyString true) title in
  let final_url := requests.url response in
  conn_execute
    (insert_check checked_at target (Some final_url)
       (Some (requests.status_code response)) 1 None sig title_text) ;;
  conn_commit ;;
  discoveries <- lift (discover_onion_candidates final_url html) ;;
  (if decide (discoveries = ∅) then ret tt
   else save_discoveries target (elements discoveries)) ;;
  match sig with
  | Some sig =>
      if Str.is_empty sig then ret tt
      else
        mirrors <- conn_select_mirrors sig target ;;
        match mirrors with
        | [] => ret tt
        | _ => print (mirror_line checked_at target mirrors)
        end
  | None => ret tt
  end ;;
  (if String.eqb final_url target then ret tt
   else print (redirect_line checked_at target final_url)) ;;
  print (ok_line checked_at target (requests.status_code response)).

(** The suite of [except Exception as exc] in [run]. *)
Definition record_failure (target checked_at : string) (exc : exception) : M unit :=
  conn_execute
    (insert_check checked_at target None None 0 (Some (str_exc exc)) None None) ;;
  conn_commit ;;
  print (fail_line checked_at target (str_exc exc)).

(** The body of [for target in targets] in [run]. *)
Definition poll (cfg : Config) (target : string) : M unit :=
  checked_at <- utc_now ;;
  try_except (attempt cfg target checked_at) (record_failure target checked_at).

(** One turn of [while True]. *)
Definition cycle (cfg : Config) : M unit :=
  targets <- load_targets (targets_file cfg) ;;
  for_each targets (poll cfg) ;;
  sleep (interval_s cfg).

(** The first [cycles] turns of the loop. *)
Fixpoint loop (cycles : nat) (cfg : Config) : M unit :=
  match cycles with
  | O => ret tt
  | S n => cycle cfg ;; loop n cfg
  end.

(** [run()], for the first [cycles] turns of its loop; the loop itself
    has no exit, so the process ends only when an exception leaves it. *)
Definition run (cfg : Config) (cycles : nat) : M unit :=
  init_db ;;
  loop cycles cfg.

End Process.

(** ** Definitions used to state the properties *)

(** The rows the query selects from, before [LIMIT]: one row per target,
    each with the signature asked for and of another target. *)
Definition candidates (conn : database) (s A : string) : list checks.row :=
  order_by_checked_at_desc
    (distinct_target []
       (List.filter
          (fun r =>
             sqlite3.is_true
               (sqlite3.sql_and (sqlite3.sql_eq (checks.content_sig r) (Some s))
                  (sqlite3.sql_ne (Some (checks.target_url r)) (Some A))))
          (t_checks conn))).


(** A check that succeeded, for the examples. *)
Definition ok_row (id : Z) (checked_at target sig : string) : checks.row :=
  checks.mk id checked_at target (Some target) (Some 200) 1 None (Some sig) None.

(** A store in which seven targets served the same content: [b.example]
    first, then [a.example], then five others. *)
Definition crowded_store : database :=
  mkDatabase
    [ ok_row 1 "2024-01-01T00:00:00+00:00" "http://b.example/" "c0ffee";
      ok_row 2 "2024-01-01T00:00:01+00:00" "http://a.example/" "c0ffee";
      ok_row 3 "2024-01-01T00:00:02+00:00" "http://m1.example/" "c0ffee";
      ok_row 4 "2024-01-01T00:00:03+00:00" "http://m2.example/" "c0ffee";
      ok_row 5 "2024-01-01T00:00:04+00:00" "http://m3.example/" "c0ffee";
      ok_row 6 "2024-01-01T00:00:05+00:00" "http://m4.example/" "c0ffee";
      ok_row 7 "2024-01-01T00:00:06+00:00" "http://m5.example/" "c0ffee" ]
    [].

(** A store with two targets that served the same content. *)
Definition two_mirrors : database :=
  mkDatabase
    [ ok_row 1 "2024-01-01T00:00:00+00:00" "http://a.example/" "c0ffee";
      ok_row 2 "2024-01-01T00:00:01+00:00" "http://b.example/" "c0ffee" ]
    [].

(** The store without the checks that recorded no fingerprint. *)
Definition without_null_sig (conn : database) : database :=
  mkDatabase
    (List.filter
       (fun r => match checks.content_sig r with Some _ => true | None => false end)
       (t_checks conn))
    (t_discovered_onions conn).

(** [m] relates the world it starts in to the world it leaves, however it
    ends. *)
Definition preserves {A : Type} (R : world -> world -> Prop) (m : M A) : Prop :=
  forall w, R w (snd (m w)).

(** The two shapes of a check row. *)
Definition success_shape (r : checks.row) : Prop :=
  checks.ok r = 1 /\ checks.status_code r <> None.

Definition failure_shape (r : checks.row) : Prop :=
  checks.ok r = 0 /\ checks.error r <> None /\ checks.status_code r = None
  /\ checks.content_sig r = None /\ checks.final_url r = None /\ checks.title r = None.

Definition check_invariant (r : checks.row) : Prop :=
  (success_shape r /\ ~ failure_shape r) \/ (failure_shape r /\ ~ success_shape r).

(** The check ledger of [w'] is that of [w] with rows added at its end,
    each of one of the two shapes. *)
Definition appends_checks (w w' : world) : Prop :=
  exists new, t_checks (conn w') = t_checks (conn w) ++ new /\ Forall check_invariant new.

(** What [attempt] does after the commit of the [ok = 1] row. *)
Definition after_commit (E : env) (target checked_at : string)
  (response : requests.Response) : M unit :=
  discoveries <-
    lift (discover_onion_candidates (requests.url response) (requests.text response)) ;;
  (if decide (discoveries = ∅) then ret tt
   else save_discoveries E target (elements discoveries)) ;;
  match sig_of (requests.text response) with
  | Some sig =>
      if Str.is_empty sig then ret tt
      else
        mirrors <- conn_select_mirrors E sig target ;;
        match mirrors with
        | [] => ret tt
        | _ => print (mirror_line checked_at target mirrors)
        end
  | None => ret tt
  end ;;
  (if String.eqb (requests.url response) target then ret tt
   else print (redirect_line checked_at target (requests.url response))) ;;
  print (ok_line checked_at target (requests.status_code response)).

(** The row [attempt] writes for a response, and the row
    [record_failure] writes for an exception, into the store [db]. *)
Definition success_row (db : database) (checked_at target : string)
  (response : requests.Response) : checks.row :=
  checks.mk (next_id (List.map checks.id (t_checks db))) checked_at target
    (Some (requests.url response)) (Some (requests.status_code response)) 1 None
    (sig_of (requests.text response))
    (option_map (bs4.get_text EmptyString true)
       (bs4.title (bs4.BeautifulSoup (requests.text response)))).

Definition failure_row (db : database) (checked_at target : string) (exc : exception)
  : checks.row :=
  checks.mk (next_id (List.map checks.id (t_checks db))) checked_at target
    None None 0 (Some (str_exc exc)) None None.

(** The disk never fails. *)
Definition disk_ok (E : env) : Prop := forall n, disk E n = None.

(** The check ledger and the trace of requests are the same in both
    worlds. *)
Definition same_ledger (w w' : world) : Prop :=
  t_checks (conn w') = t_checks (conn w) /\ fetched w' = fetched w /\ n_get w' = n_get w.

(** No mirror query was run between the two worlds. *)
Definition same_queries (w w' : world) : Prop := queried w' = queried w.

(** An empty store and a process that has done nothing yet. *)
Definition empty_store : database := mkDatabase [] [].

Definition fresh (db : database) : world := mkWorld db 0 0 0 0 [] [] [] [] 0.

(** Example surroundings: a clock that shows the second, a disk that
    never fails, a targets file of three lines, and a network on which
    [down.example] times out while every other target serves the same
    small page. *)
Definition second (n : nat) : string :=
  "2024-01-01T00:00:0" +:+ String (Str.chr (48 + Z.of_nat n)) "+00:00".

Definition small_page : string := "<title>Mirror</title><p>Hello   World</p>".

Definition flaky_network (n : nat) (target : string) (timeout : Z) (allow_redirects : bool)
  : result requests.Response :=
  if String.eqb target "http://down.example/" then Raise (RequestException "timed out")
  else Ok (requests.mkResponse small_page 200 target).

Definition three_targets (n : nat) (path : string) : result (list string) :=
  Ok ["http://a.example/"; "http://down.example/"; "http://b.example/"].

Definition flaky_env : env := mkEnv second flaky_network (fun _ => None) three_targets.

(** Surroundings in which the network works and the disk fails once, at
    the first statement. *)
Definition steady_network (n : nat) (target : string) (timeout : Z) (allow_redirects : bool)
  : result requests.Response :=
  Ok (requests.mkResponse small_page 200 target).

Definition locked_once (n : nat) : option string :=
  match n with O => Some "database is locked"%string | S _ => None end.

Definition locked_env : env := mkEnv second steady_network locked_once three_targets.

(** Surroundings in which the network is down and the disk always
    fails. *)
Definition broken_env : env :=
  mkEnv second flaky_network (fun _ => Some "disk I/O error"%string) three_targets.

(** A store in which two targets only ever served empty bodies, and
    surroundings in which every body is empty. *)
Definition empty_bodies : database :=
  mkDatabase
    [ checks.mk 1 "2024-01-01T00:00:00+00:00" "http://a.example/"
        (Some "http://a.example/"%string) (Some 200) 1 None None None;
      checks.mk 2 "2024-01-01T00:00:01+00:00" "http://b.example/"
        (Some "http://b.example/"%string) (Some 200) 1 None None None ]
    [].

Definition blank_network (n : nat) (target : string) (timeout : Z) (allow_redirects : bool)
  : result requests.Response :=
  Ok (requests.mkResponse EmptyString 200 target).

Definition blank_env : env := mkEnv second blank_network (fun _ => None) three_targets.

(** The [UNIQUE(source_url, discovered_url)] constraint holds. *)
Definition unique_pairs (db : database) : Prop :=
  List.NoDup (List.map pair_of (t_discovered_onions db)).

(** The pair is in the discovery ledger. *)
Definition recorded (source_url discovered_url : string) (db : database) : Prop :=
  existsb (same_pair source_url discovered_url) (t_discovered_onions db) = true.

(** An onion address, for the examples. *)
Definition label56 : string := "abcdefghijklmnopqrstuvwxyz234567abcdefghijklmnopqrstuvwx".
Definition onion_url : string := "http://" +:+ label56 +:+ ".onion/".

(** Surroundings in which every target serves a page of markup without
    text. *)
Definition markup_network (n : nat) (target : string) (timeout : Z) (allow_redirects : bool)
  : result requests.Response :=
  Ok (requests.mkResponse "<div></div>" 200 target).

Definition markup_env : env := mkEnv second markup_network (fun _ => None) three_targets.

(** The SHA-256 digest of the empty string. *)
Definition empty_digest : string :=
  "e3b0c44298fc1c149afbf4c8996fb92427ae41e4649b934ca495991b7852b855".

(** The text strings of a document, as they stand in the markup
    (comments, scripts and styles left out). *)
Definition text_strings (html : string) : list string :=
  bs4.all_strings false (bs4.BeautifulSoup html).

(** The visible text of a document: its text strings, one after the
    other. *)
Definition visible_text (html : string) : string :=
  Str.join EmptyString (text_strings html).

(** The words of the visible text, in lower case: the whitespace-free
    runs of each text string, in document order. *)
Definition word_sequence (html : string) : list string :=
  List.map Str.lower (flat_map Str.words (text_strings html)).

(** The markup of an anchor with the given link target, in double
    quotes. *)
Definition anchor (href : string) : string :=
  "<a href=" +:+ String html_parser.dquote (href +:+ String html_parser.dquote ">").

(** The label of the design document's example; it has 51 characters. *)
Definition upper_label51 : string := "ABCDEFGHIJKLMNOPQRSTUVWXYZABCDEFGHIJKLMNOPQRSTUVWXY".

(** The same label, continued to 56 characters. *)
Definition upper_label56 : string := upper_label51 +:+ "ZABCD".

(** Labels of 57 and of 55 characters. *)
Definition label57 : string := "7" +:+ label56.
Definition label55 : string := Str.drop 1 label56.

(** The number of characters a pattern matches. *)
Fixpoint width (r : re.regex) : nat :=
  match r with
  | re.Eps => 0
  | re.Lit _ | re.Class _ => 1
  | re.Repeat n r1 => n * width r1
  | re.Seq r1 r2 => width r1 + width r2
  end.

(** Outcomes can be compared by computation. *)
#[global] Instance exception_eq_dec : EqDecision exception.
Proof. solve_decision. Defined.

#[global] Instance result_eq_dec {A : Type} `{EqDecision A} : EqDecision (result A).
Proof. solve_decision. Defined.


(** A page with a link to an onion address, and a network on which
    every target serves it. *)
Definition onion_page : string := anchor ("http://" +:+ label56 +:+ ".onion/x").

Definition onion_network (n : nat) (target : string) (timeout : Z) (allow_redirects : bool)
  : result requests.Response :=
  Ok (requests.mkResponse onion_page 200 target).

(** The statements [attempt] sends to the store for a response, on a
    disk that works: the insert of the [ok = 1] row and its commit; in
    [save_discoveries], when there is a discovery, one insert for each
    and a commit; the mirror query, when the body has a fingerprint.
    Nothing follows the commit when [discover_onion_candidates]
    raises. *)
Definition save_statements (response : requests.Response) : nat :=
  match discover_onion_candidates (requests.url response) (requests.text response) with
  | Ok discoveries =>
      if decide (discoveries = ∅) then 0%nat else S (length (elements discoveries))
  | Raise _ => 0%nat
  end.

Definition query_statements (response : requests.Response) : nat :=
  match discover_onion_candidates (requests.url response) (requests.text response) with
  | Ok _ =>
      match sig_of (requests.text response) with
      | Some sig => if Str.is_empty sig then 0%nat else 1%nat
      | None => 0%nat
      end
  | Raise _ => 0%nat
  end.

Definition attempt_statements (response : requests.Response) : nat :=
  (2 + save_statements response + query_statements response)%nat.

(** The check ledger after an attempt that a storage failure ended at
    its statement of index [k]: the [ok = 1] row is there unless its
    insert is what failed. *)
Definition checks_after_failure (db : database) (checked_at target : string)
  (response : requests.Response) (k : nat) : list checks.row :=
  t_checks db
  ++ match k with
     | O => []
     | S _ => [success_row db checked_at target response]
     end.

(** A disk on which the statement of index [k] fails, and no other. *)
Definition failing_at (k : nat) (msg : string) (n : nat) : option string :=
  if Nat.eqb n k then Some msg else None.

(** Surroundings in which every target serves the page with the onion
    link and the disk is full at statement [k]; and surroundings in
    which the network is down and the commit of the handler fails. *)
Definition full_disk_env (k : nat) : env :=
  mkEnv second onion_network (failing_at k "database or disk is full") three_targets.

Definition commit_fails_env : env :=
  mkEnv second flaky_network (failing_at 1 "disk I/O error") three_targets.

(** A store in which seven targets served the same document at the same
    second. *)
Definition tied_check (id : Z) (target : string) : checks.row :=
  checks.mk id "2024-01-01T00:00:00+00:00" target (Some target) (Some 200) 1 None
    (Some (content_signature small_page)) (Some "Mirror"%string).

Definition tied_store : database :=
  mkDatabase
    [ tied_check 1 "http://a.example/"; tied_check 2 "http://b.example/";
      tied_check 3 "http://c.example/"; tied_check 4 "http://d.example/";
      tied_check 5 "http://e.example/"; tied_check 6 "http://f.example/";
      tied_check 7 "http://g.example/" ]
    [].
(** ** Definitions used to state further properties *)

(** A lower-case hexadecimal digit, and a text made of such digits. *)
Definition hex_char (c : ascii) : bool :=
  let n := Str.ord c in
  ((48 <=? n) && (n <=? 57)) || ((97 <=? n) && (n <=? 102)).

Definition hex_string (s : string) : bool := urllib.all_chars hex_char s.

(** A text without whitespace. *)
Definition whitespace_free (s : string) : bool :=
  urllib.all_chars (fun c => negb (Str.isspace c)) s.

(** What [attempt] prints about mirrors and about a redirect. *)
Definition mirror_report (checked_at target : string) (mirrors : list string) : list line :=
  match mirrors with
  | [] => []
  | _ => [mirror_line checked_at target mirrors]
  end.

Definition redirect_report (checked_at target final_url : string) : list line :=
  if String.eqb final_url target then []
  else [redirect_line checked_at target final_url].

(** The mirrors [attempt] looks up for a response, in the store [db]:
    none without a fingerprint. *)
Definition mirrors_for (db : database) (target : string) (response : requests.Response)
  : list string :=
  match sig_of (requests.text response) with
  | Some sig => recently_seen_signature db sig target
  | None => []
  end.

(** The mirror query [attempt] runs for a response. *)
Definition query_for (target : string) (response : requests.Response)
  : list (string * string) :=
  match sig_of (requests.text response) with
  | Some sig => [(sig, target)]
  | None => []
  end.

(** Nothing was printed, slept or opened between the two worlds. *)
Definition same_output (w w' : world) : Prop :=
  stdout w' = stdout w /\ slept w' = slept w /\ n_open w' = n_open w.

(** The store [db] with the row [r] at the end of its check ledger. *)
Definition with_check (db : database) (r : checks.row) : database :=
  mkDatabase (t_checks db ++ [r]) (t_discovered_onions db).

(** Surroundings in which every target serves a page whose only link
    has a target that [urljoin] rejects. *)
Definition bracket_page : string := anchor "http://[".

Definition bracket_network (n : nat) (target : string) (timeout : Z) (allow_redirects : bool)
  : result requests.Response :=
  Ok (requests.mkResponse bracket_page 200 target).

Definition bracket_env : env := mkEnv second bracket_network (fun _ => None) three_targets.

(** A store in which [a.example] served the small page of the examples. *)
Definition mirror_store : database :=
  mkDatabase
    [ checks.mk 1 "2024-01-01T00:00:00+00:00" "http://a.example/"
        (Some "http://a.example/"%string) (Some 200) 1 None
        (Some (content_signature small_page)) (Some "Mirror"%string) ]
    [].

(** A line of the output is justified by the store [db]: a mirror line
    names at least one and at most five other targets, and each of them
    shares a fingerprint in the check ledger with the target of the
    line. *)
Definition justified (db : database) (l : line) : Prop :=
  match l with
  | mirror_line _ target mirrors =>
      mirrors <> [] /\ (length mirrors <= 5)%nat
      /\ forall m, In m mirrors ->
           m <> target
           /\ exists s r r',
                In r (t_checks db) /\ In r' (t_checks db)
                /\ checks.target_url r = m /\ checks.target_url r' = target
                /\ checks.content_sig r = Some s /\ checks.content_sig r' = Some s
  | _ => True
  end.

(** The check ledger of [w'] extends that of [w], and the lines printed
    between the two worlds are justified by the store of [w']. *)
Definition prints_justified (w w' : world) : Prop :=
  (exists rows, t_checks (conn w') = t_checks (conn w) ++ rows)
  /\ exists new, stdout w' = stdout w ++ new /\ Forall (justified (conn w')) new.

(** The canonical form of a candidate: [http://<host>/] for a host that
    [ONION_RE] matches in full. *)
Definition canonical_onion_url (u : string) : Prop :=
  exists host, u = "http://" +:+ host +:+ "/" /\ re.fullmatch ONION_RE host = true.

(** The discovery ledger of [w'] is that of [w] with rows added at its
    end, each with a canonical candidate and with a target requested
    between the two worlds as its source; the [UNIQUE] constraint is
    kept. *)
Definition appends_discoveries (w w' : world) : Prop :=
  exists new more,
    t_discovered_onions (conn w') = t_discovered_onions (conn w) ++ new
    /\ fetched w' = fetched w ++ more
    /\ Forall (fun r => canonical_onion_url (discovered_onions.discovered_url r)
                        /\ In (discovered_onions.source_url r) more) new
    /\ (unique_pairs (conn w) -> unique_pairs (conn w')).

(** The connection's tables are the same in both worlds. *)
Definition same_conn (w w' : world) : Prop := conn w' = conn w.

(** A text of whitespace only. *)
Definition blank (s : string) : bool := urllib.all_chars Str.isspace s.

(** A target as [load_targets] returns it: stripped, not empty, and no
    comment. *)
Definition is_target (t : string) : Prop :=
  Str.strip t = t /\ t <> EmptyString /\ Str.startswith "#" t = false.

(** A line of the targets file that holds the target [t], with
    whitespace around it (the end of the line at least, as a rule). *)
Definition line_of (raw t : string) : Prop :=
  exists pre post, raw = pre +:+ t +:+ post /\ blank pre = true /\ blank post = true.

(** [time.sleep] accepts the seconds: they are not negative and within
    the range of the clock. *)
Definition sleepable (seconds : Z) : Prop := 0 <= seconds < 2 ^ 32.

(** The file at [path] can be read whenever it is opened. *)
Definition files_ok (E : env) (path : string) : Prop :=
  forall n, exists lines, files E n path = Ok lines.

(** Surroundings without a targets file. *)
Definition missing_file (n : nat) (path : string) : result (list string) :=
  Raise (OSError "[Errno 2] No such file or directory").

Definition missing_env : env := mkEnv second flaky_network (fun _ => None) missing_file.

(** A targets file with a comment, a blank line and padded targets. *)
Definition padded_lines : list string :=
  [ "# mirrors" +:+ String (Str.chr 10) EmptyString;
    String (Str.chr 10) EmptyString;
    "  http://a.example/" +:+ String (Str.chr 10) EmptyString;
    "http://b.example/ " ].

Definition padded_file (n : nat) (path : string) : result (list string) := Ok padded_lines.

Definition padded_env : env := mkEnv second flaky_network (fun _ => None) padded_file.

(** Surroundings in which every target serves the page with a link to
    an onion address, and the disk works. *)
Definition onion_env : env := mkEnv second onion_network (fun _ => None) three_targets.

(** A page that names an onion address in a comment only. *)
Definition comment_page : string := "<!-- " +:+ label56 +:+ ".onion -->".

(** ** [Config()] and the environment

    The defaults of the fields are computed from the environment when
    the class is defined. *)

Module os.

(** [os.getenv(key, default)], in the environment [environ]. *)
Definition getenv (environ : string -> option string) (key default : string) : string :=
  match environ key with
  | Some v => v
  | None => default
  end.

End os.

Module builtins.

(** The whitespace [int] skips, on code points below 256. *)
Definition int_space (c : ascii) : bool :=
  let n := Str.ord c in
  ((9 <=? n) && (n <=? 13)) || (n =? 32) || (n =? 133) || (n =? 160).

Definition is_digit (c : ascii) : bool :=
  let n := Str.ord c in (48 <=? n) && (n <=? 57).

Fixpoint skip_space (s : string) : string :=
  match s with
  | String c r => if int_space c then skip_space r else s
  | EmptyString => EmptyString
  end.

(** The digits of a numeral, with single underscores between them: the
    value, the number of digits and the text left. *)
Fixpoint scan (s : string) (acc : Z) (count : nat) (after_underscore : bool)
  : option (Z * nat * string) :=
  match s with
  | String c r =>
      if is_digit c then scan r (10 * acc + (Str.ord c - 48)) (S count) false
      else if Ascii.eqb c "_" then
        if after_underscore then None else scan r acc count true
      else if after_underscore then None else Some (acc, count, s)
  | EmptyString => if after_underscore then None else Some (acc, count, s)
  end.

(** [int(s)] for a text [s]: whitespace, a sign, digits, whitespace;
    [None] when it raises [ValueError] (no numeral, or more than 4300
    digits). *)
Definition int (s : string) : option Z :=
  let s1 := skip_space s in
  let '(sign, s2) :=
    match s1 with
    | String "+" r => (1, r)
    | String "-" r => (-1, r)
    | _ => (1, s1)
    end in
  match s2 with
  | String c _ =>
      if is_digit c then
        match scan s2 0 0 false with
        | Some (v, count, rest) =>
            if (4300 <? count)%nat then None
            else if Str.is_empty (skip_space rest) then Some (sign * v) else None
        | None => None
        end
      else None
  | EmptyString => None
  end.

End builtins.

(** [Config()] in the environment [environ]; [None] when a default
    cannot be computed, [int] raising [ValueError]. *)
Definition Config_of (environ : string -> option string) : option Config :=
  match builtins.int (os.getenv environ "TOR_SOCKS_PORT" "9050") with
  | None => None
  | Some socks_port =>
      match builtins.int (os.getenv environ "MONITOR_INTERVAL_SECONDS" "300") with
      | None => None
      | Some interval_s =>
          Some (mkConfig
                  (os.getenv environ "TOR_SOCKS_HOST" "tor")
                  socks_port
                  interval_s
                  (os.getenv environ "MONITOR_TARGETS_FILE" "/app/targets.txt")
                  (os.getenv environ "MONITOR_DB_PATH" "/data/monitor.db")
                  (String.eqb
                     (Str.lower (os.getenv environ "MONITOR_FOLLOW_REDIRECTS" "true"))
                     "true"))
      end
  end.

(** The numeral with the decimal digits [ds], and its value. *)
Definition numeral (ds : list Z) : string :=
  fold_right (fun d s => String (Str.chr (48 + d)) s) EmptyString ds.

Definition value (ds : list Z) : Z := fold_left (fun a d => 10 * a + d) ds 0.

(** A text of the whitespace [int] skips. *)
Definition int_blank (s : string) : bool := urllib.all_chars builtins.int_space s.

(** The text [s] is a decimal numeral of at most 4300 digits for the
    integer [n]: whitespace, a minus sign if [n] is written negative,
    the digits, whitespace. *)
Definition reads_as (s : string) (n : Z) : Prop :=
  exists (pre post : string) (ds : list Z) (negative : bool),
    s = pre +:+ (if negative then "-" else EmptyString) +:+ numeral ds +:+ post
    /\ int_blank pre = true /\ int_blank post = true
    /\ ds <> [] /\ Forall (fun d => 0 <= d <= 9) ds /\ (length ds <= 4300)%nat
    /\ n = if negative then - value ds else value ds.

(** An environment that sets the port, with whitespace around it, and a
    negative interval; and one that sets the port to the empty text. *)
Definition odd_environ (key : string) : option string :=
  if String.eqb key "TOR_SOCKS_PORT" then Some " 9150 "%string
  else if String.eqb key "MONITOR_INTERVAL_SECONDS" then Some "-5"%string
  else if String.eqb key "MONITOR_FOLLOW_REDIRECTS" then Some "1"%string
  else None.

Definition empty_port_environ (key : string) : option string :=
  if String.eqb key "TOR_SOCKS_PORT" then Some EmptyString else None.

(** The ids of both ledgers grow along the ledgers, so no two rows of a
    ledger share an id. *)
Fixpoint increasing (ids : list Z) : Prop :=
  match ids with
  | [] => True
  | i :: rest => Forall (Z.lt i) rest /\ increasing rest
  end.

Definition increasing_ids (db : database) : Prop :=
  increasing (List.map checks.id (t_checks db))
  /\ increasing (List.map discovered_onions.id (t_discovered_onions db)).

(** A step from [w] to [w'] keeps the ids growing. *)
Definition keeps_ids (w w' : world) : Prop :=
  increasing_ids (conn w) -> increasing_ids (conn w').

(** * Properties *)

(** A conjunction of closed equations, each settled by evaluation. *)
Ltac by_computation :=
  repeat match goal with |- _ /\ _ => split end; vm_compute; reflexivity.

(** ** The digest

    [hashlib.hexdigest] on the test vectors of FIPS 180-2, appendix B: the
    empty message, one block and two blocks. *)
Example hexdigest_test_vectors :
  hashlib.hexdigest (Str.encode_utf8 "") = empty_digest /\
  hashlib.hexdigest (Str.encode_utf8 "abc")
  = "ba7816bf8f01cfea414140de5dae2223b00361a396177a9cb410ff61f20015ad"%string /\
  hashlib.hexdigest (Str.encode_utf8 "abcdbcdecdefdefgefghfghighijhijkijkljklmklmnlmnomnopnopq")
  = "248d6a61d20638b8e5c026930c3e6039a33ce45964ff2167f6ecedd419db06c1"%string.
Proof. by_computation. Qed.

(** ** The mirror query *)

Lemma mem_In (s : string) (l : list string) : urllib.mem s l = true <-> In s l.
Proof.
  unfold urllib.mem. rewrite existsb_exists. split.
  - intros (x & Hx & Heq). apply String.eqb_eq in Heq. now subst.
  - intros H. exists s. split; [assumption | apply String.eqb_refl].
Qed.

(** The [WHERE] clause keeps the rows with the signature asked for, of
    another target. *)
Lemma where_clause_iff (s A : string) (r : checks.row) :
  sqlite3.is_true
    (sqlite3.sql_and (sqlite3.sql_eq (checks.content_sig r) (Some s))
       (sqlite3.sql_ne (Some (checks.target_url r)) (Some A))) = true
  <-> checks.content_sig r = Some s /\ checks.target_url r <> A.
Proof.
  unfold sqlite3.sql_ne, sqlite3.sql_eq.
  destruct (checks.content_sig r) as [c|]; simpl.
  - destruct (String.eqb_spec c s) as [->|Hc];
      destruct (String.eqb_spec (checks.target_url r) A) as [Ht|Ht]; simpl;
      intuition congruence.
  - destruct (String.eqb_spec (checks.target_url r) A); simpl; intuition congruence.
Qed.

Lemma distinct_target_In (seen : list string) (rows : list checks.row) (r : checks.row) :
  In r (distinct_target seen rows) -> In r rows /\ ~ In (checks.target_url r) seen.
Proof.
  revert seen. induction rows as [|x rows IH]; intros seen; simpl; [tauto|].
  destruct (urllib.mem (checks.target_url x) seen) eqn:Hm.
  - intros H. apply IH in H. tauto.
  - intros [->|H].
    + split; [now left|]. rewrite <- mem_In, Hm. discriminate.
    + apply IH in H. simpl in H. tauto.
Qed.

Lemma distinct_target_NoDup (seen : list string) (rows : list checks.row) :
  List.NoDup (List.map checks.target_url (distinct_target seen rows)).
Proof.
  revert seen. induction rows as [|x rows IH]; intros seen; simpl; [constructor|].
  destruct (urllib.mem (checks.target_url x) seen); [apply IH|].
  simpl. constructor; [|apply IH].
  rewrite in_map_iff. intros (y & Hy & Hin).
  apply distinct_target_In in Hin. destruct Hin as [_ Hin].
  apply Hin. rewrite Hy. now left.
Qed.

Lemma distinct_target_complete (seen : list string) (rows : list checks.row) (r : checks.row) :
  In r rows -> ~ In (checks.target_url r) seen ->
  In (checks.target_url r) (List.map checks.target_url (distinct_target seen rows)).
Proof.
  revert seen. induction rows as [|x rows IH]; intros seen; simpl; [tauto|].
  intros [->|Hin] Hseen.
  - destruct (urllib.mem (checks.target_url r) seen) eqn:Hm.
    + apply mem_In in Hm. contradiction.
    + now left.
  - destruct (urllib.mem (checks.target_url x) seen) eqn:Hm; [now apply IH|].
    simpl. destruct (String.eqb_spec (checks.target_url x) (checks.target_url r)) as [He|He].
    + now left.
    + right. apply IH; [assumption|]. simpl. intros [H|H]; [congruence | contradiction].
Qed.

Lemma insert_desc_Permutation (r : checks.row) (l : list checks.row) :
  Permutation (insert_desc r l) (r :: l).
Proof.
  induction l as [|x l IH]; simpl; [reflexivity|].
  destruct (String.ltb (checks.checked_at r) (checks.checked_at x)); [|reflexivity].
  rewrite IH. apply perm_swap.
Qed.

Lemma order_by_Permutation (l : list checks.row) :
  Permutation (order_by_checked_at_desc l) l.
Proof.
  induction l as [|x l IH]; simpl; [reflexivity|].
  rewrite insert_desc_Permutation. now constructor.
Qed.

Lemma In_firstn {A : Type} (n : nat) (l : list A) (x : A) : In x (firstn n l) -> In x l.
Proof.
  intros H. rewrite <- (firstn_skipn n l). apply in_or_app. now left.
Qed.

Lemma NoDup_firstn_list {A : Type} (n : nat) (l : list A) : List.NoDup l -> List.NoDup (firstn n l).
Proof.
  intros H. rewrite <- (firstn_skipn n l) in H. now apply NoDup_app_remove_r in H.
Qed.

Lemma recently_seen_signature_unfold (conn : database) (s A : string) :
  recently_seen_signature conn s A
  = List.map checks.target_url (firstn 5 (candidates conn s A)).
Proof. reflexivity. Qed.

Lemma candidates_In (conn : database) (s A : string) (r : checks.row) :
  In r (candidates conn s A) ->
  In r (t_checks conn) /\ checks.content_sig r = Some s /\ checks.target_url r <> A.
Proof.
  unfold candidates. intros H.
  apply (Permutation_in _ (order_by_Permutation _)) in H.
  apply distinct_target_In in H. destruct H as [H _].
  apply filter_In in H. destruct H as [Hin Hc].
  apply where_clause_iff in Hc. tauto.
Qed.

Lemma candidates_complete (conn : database) (s A : string) (r : checks.row) :
  In r (t_checks conn) -> checks.content_sig r = Some s -> checks.target_url r <> A ->
  In (checks.target_url r) (List.map checks.target_url (candidates conn s A)).
Proof.
  intros Hin Hs HA. unfold candidates.
  eapply Permutation_in.
  - apply Permutation_map. symmetry. apply order_by_Permutation.
  - apply distinct_target_complete; [|simpl; tauto].
    apply filter_In. split; [assumption|]. apply where_clause_iff. tauto.
Qed.

Lemma candidates_NoDup (conn : database) (s A : string) :
  List.NoDup (List.map checks.target_url (candidates conn s A)).
Proof.
  unfold candidates.
  eapply Permutation_NoDup.
  - apply Permutation_map. symmetry. apply order_by_Permutation.
  - apply distinct_target_NoDup.
Qed.

(** C1, as the claim states it, fails: with [LIMIT 5] a mirror can be
    left out.  In [crowded_store] the targets [a.example] and [b.example]
    both have a check with the signature [c0ffee], and the mirrors found
    for [a.example] are the five checked later, without [b.example]. *)
Lemma find_mirrors_can_omit_a_mirror :
  "http://a.example/" <> "http://b.example/"
  /\ In (ok_row 2 "2024-01-01T00:00:01+00:00" "http://a.example/" "c0ffee")
        (t_checks crowded_store)
  /\ In (ok_row 1 "2024-01-01T00:00:00+00:00" "http://b.example/" "c0ffee")
        (t_checks crowded_store)
  /\ recently_seen_signature crowded_store "c0ffee" "http://a.example/"
     = [ "http://m5.example/"; "http://m4.example/"; "http://m3.example/";
         "http://m2.example/"; "http://m1.example/" ]
  /\ ~ In "http://b.example/"
        (recently_seen_signature crowded_store "c0ffee" "http://a.example/").
Proof.
  split; [discriminate|].
  split; [simpl; tauto|].
  split; [simpl; tauto|].
  assert (Hres : recently_seen_signature crowded_store "c0ffee" "http://a.example/"
                 = [ "http://m5.example/"; "http://m4.example/"; "http://m3.example/";
                     "http://m2.example/"; "http://m1.example/" ])
    by (vm_compute; reflexivity).
  split; [exact Hres|].
  rewrite Hres. simpl. intros H.
  repeat (destruct H as [H|H]; [discriminate H|]). exact H.
Qed.

(** C1 (amended): for every store with check rows for two distinct
    targets [A] and [B] that have the same non-null signature [s], the
    list [recently_seen_signature] returns for [s], excluding [A],
    contains [B] unless the cap is reached (it then has exactly 5
    entries), has no duplicates, never contains [A], contains only
    targets that have a check row with signature [s], and has at most 5
    entries. *)
Theorem find_mirrors_sound_up_to_limit (conn : database) (s A B : string) :
  A <> B ->
  (exists r, In r (t_checks conn) /\ checks.target_url r = A /\ checks.content_sig r = Some s) ->
  (exists r, In r (t_checks conn) /\ checks.target_url r = B /\ checks.content_sig r = Some s) ->
  (In B (recently_seen_signature conn s A)
   \/ length (recently_seen_signature conn s A) = 5%nat)
  /\ List.NoDup (recently_seen_signature conn s A)
  /\ ~ In A (recently_seen_signature conn s A)
  /\ (forall t, In t (recently_seen_signature conn s A) ->
        exists r, In r (t_checks conn) /\ checks.target_url r = t
                  /\ checks.content_sig r = Some s)
  /\ (length (recently_seen_signature conn s A) <= 5)%nat.
Proof.
  intros HAB _ (rB & HinB & HtB & HsB).
  rewrite recently_seen_signature_unfold.
  assert (Hsound : forall t, In t (List.map checks.target_url (firstn 5 (candidates conn s A))) ->
            exists r, In r (t_checks conn) /\ checks.target_url r = t
                      /\ checks.content_sig r = Some s /\ t <> A).
  { intros t Ht. apply in_map_iff in Ht. destruct Ht as (r & <- & Hr).
    apply In_firstn, candidates_In in Hr. exists r. tauto. }
  repeat split.
  - destruct (Nat.le_gt_cases (length (candidates conn s A)) 5) as [Hle|Hgt].
    + left. rewrite firstn_all2 by exact Hle.
      rewrite <- HtB. apply candidates_complete; congruence.
    + right. rewrite length_map, length_firstn. lia.
  - rewrite <- (firstn_map checks.target_url).
    apply NoDup_firstn_list, candidates_NoDup.
  - intros HA. apply Hsound in HA. destruct HA as (r & _ & _ & _ & HA). now apply HA.
  - intros t Ht. apply Hsound in Ht. destruct Ht as (r & ? & ? & ? & _). eauto.
  - rewrite length_map, length_firstn. lia.
Qed.

(** The theorem at [two_mirrors]: each of the two targets is found as
    the mirror of the other. *)
Lemma find_mirrors_sound_up_to_limit_witness :
  (In "http://b.example/" (recently_seen_signature two_mirrors "c0ffee" "http://a.example/")
   \/ length (recently_seen_signature two_mirrors "c0ffee" "http://a.example/") = 5%nat)
  /\ List.NoDup (recently_seen_signature two_mirrors "c0ffee" "http://a.example/")
  /\ ~ In "http://a.example/" (recently_seen_signature two_mirrors "c0ffee" "http://a.example/")
  /\ (forall t, In t (recently_seen_signature two_mirrors "c0ffee" "http://a.example/") ->
        exists r, In r (t_checks two_mirrors) /\ checks.target_url r = t
                  /\ checks.content_sig r = Some "c0ffee")
  /\ (length (recently_seen_signature two_mirrors "c0ffee" "http://a.example/") <= 5)%nat.
Proof.
  apply (find_mirrors_sound_up_to_limit two_mirrors "c0ffee"
           "http://a.example/" "http://b.example/").
  - discriminate.
  - exists (ok_row 1 "2024-01-01T00:00:00+00:00" "http://a.example/" "c0ffee").
    simpl. tauto.
  - exists (ok_row 2 "2024-01-01T00:00:01+00:00" "http://b.example/" "c0ffee").
    simpl. tauto.
Defined.

(** Rows of the same timestamp come out in the order of the scan: of
    seven targets that served the document at the same second, the
    query reports the first five. *)
Example find_mirrors_keeps_scan_order_on_ties :
  recently_seen_signature tied_store (content_signature small_page) "http://z.example/"
  = ["http://a.example/"; "http://b.example/"; "http://c.example/"; "http://d.example/";
     "http://e.example/"].
Proof. vm_compute. reflexivity. Qed.

Example find_mirrors_two_mirrors :
  recently_seen_signature two_mirrors "c0ffee" "http://a.example/" = ["http://b.example/"]
  /\ recently_seen_signature two_mirrors "c0ffee" "http://b.example/" = ["http://a.example/"].
Proof. split; reflexivity. Qed.

(** ** Reasoning about the process *)

Section Preserves.

Context (R : world -> world -> Prop) (R_refl : forall w, R w w)
  (R_trans : forall a b c, R a b -> R b c -> R a c).

Lemma preserves_ret {A : Type} (a : A) : preserves R (ret a).
Proof. intros w. apply R_refl. Qed.

Lemma preserves_lift {A : Type} (r : result A) : preserves R (lift r).
Proof. intros w. apply R_refl. Qed.

Lemma preserves_bind {A B : Type} (m : M A) (k : A -> M B) :
  preserves R m -> (forall a, preserves R (k a)) -> preserves R (bind m k).
Proof.
  intros Hm Hk w. unfold bind. specialize (Hm w).
  destruct (m w) as [[a|e] w1]; simpl in *; [|exact Hm].
  eapply R_trans; [exact Hm | apply Hk].
Qed.

Lemma preserves_try_except {A : Type} (body : M A) (handler : exception -> M A) :
  preserves R body -> (forall e, preserves R (handler e)) ->
  preserves R (try_except body handler).
Proof.
  intros Hb Hh w. unfold try_except. specialize (Hb w).
  destruct (body w) as [[a|e] w1]; simpl in *; [exact Hb|].
  eapply R_trans; [exact Hb | apply Hh].
Qed.

Lemma preserves_for_each {A : Type} (xs : list A) (body : A -> M unit) :
  (forall x, preserves R (body x)) -> preserves R (for_each xs body).
Proof.
  intros Hb. induction xs as [|x xs IH]; simpl.
  - apply preserves_ret.
  - apply preserves_bind; [apply Hb | intros _; exact IH].
Qed.

End Preserves.

Lemma bind_eq {A B : Type} (m : M A) (k : A -> M B) (w : world) :
  bind m k w
  = match m w with
    | (Ok a, w1) => k a w1
    | (Raise e, w1) => (Raise e, w1)
    end.
Proof. reflexivity. Qed.

Lemma bind_ok {A B : Type} (m : M A) (k : A -> M B) (w w1 : world) (a : A) :
  m w = (Ok a, w1) -> bind m k w = k a w1.
Proof. intros H. unfold bind. now rewrite H. Qed.

Lemma bind_raise {A B : Type} (m : M A) (k : A -> M B) (w w1 : world) (e : exception) :
  m w = (Raise e, w1) -> bind m k w = (Raise e, w1).
Proof. intros H. unfold bind. now rewrite H. Qed.

Lemma for_each_cons {A : Type} (x : A) (xs : list A) (body : A -> M unit) (w : world) :
  for_each (x :: xs) body w
  = match body x w with
    | (Ok _, w1) => for_each xs body w1
    | (Raise e, w1) => (Raise e, w1)
    end.
Proof. reflexivity. Qed.

Lemma save_one_eq (E : env) (s u : string) (w : world) :
  (now <- utc_now E ;; conn_insert_discovery E now s u) w
  = match disk E (n_sql w) with
    | Some msg => (Raise (sqlite3_Error msg), executed (fun db => db) (ticked w))
    | None =>
        (Ok tt,
         counted (next_discovery_id w)
           (executed (insert_or_ignore_discovery (next_discovery_id w)
                        (clock E (n_now w)) s u) (ticked w)))
    end.
Proof. reflexivity. Qed.

Lemma appends_checks_refl (w : world) : appends_checks w w.
Proof. exists []. split; [now rewrite app_nil_r | constructor]. Qed.

Lemma appends_checks_trans (a b c : world) :
  appends_checks a b -> appends_checks b c -> appends_checks a c.
Proof.
  intros (n1 & H1 & F1) (n2 & H2 & F2). exists (n1 ++ n2). split.
  - now rewrite H2, H1, <- app_assoc.
  - apply Forall_app. now split.
Qed.

(** A step that leaves the connection's tables as they are. *)
Lemma appends_checks_same_conn (w w' : world) : conn w' = conn w -> appends_checks w w'.
Proof. intros H. exists []. split; [now rewrite H, app_nil_r | constructor]. Qed.

Lemma conn_execute_appends (E : env) (statement : database -> database) :
  (forall db, exists new, t_checks (statement db) = t_checks db ++ new
                          /\ Forall check_invariant new) ->
  preserves appends_checks (conn_execute E statement).
Proof.
  intros H w. unfold conn_execute. destruct (disk E (n_sql w)); simpl.
  - now apply appends_checks_same_conn.
  - apply H.
Qed.

Lemma statement_same_checks (statement : database -> database) :
  (forall db, t_checks (statement db) = t_checks db) ->
  forall db, exists new, t_checks (statement db) = t_checks db ++ new
                         /\ Forall check_invariant new.
Proof. intros H db. exists []. split; [now rewrite H, app_nil_r | constructor]. Qed.

Lemma insert_or_ignore_same_checks (id : Z) (now src u : string) (db : database) :
  t_checks (insert_or_ignore_discovery id now src u db) = t_checks db.
Proof.
  unfold insert_or_ignore_discovery.
  now destruct (existsb (same_pair src u) (t_discovered_onions db)).
Qed.

Lemma conn_insert_discovery_appends (E : env) (now src u : string) :
  preserves appends_checks (conn_insert_discovery E now src u).
Proof.
  intros w. unfold conn_insert_discovery. destruct (disk E (n_sql w)); cbn [snd].
  - now apply appends_checks_same_conn.
  - exists []. cbn [conn counted executed]. rewrite insert_or_ignore_same_checks, app_nil_r.
    split; [reflexivity | constructor].
Qed.

Lemma success_row_invariant (id : Z) (checked_at target final_url : string) (status : Z)
  (sig title : option string) :
  check_invariant
    (checks.mk id checked_at target (Some final_url) (Some status) 1 None sig title).
Proof.
  left. split.
  - split; [reflexivity | discriminate].
  - intros (H & _). discriminate H.
Qed.

Lemma failure_row_invariant (id : Z) (checked_at target msg : string) :
  check_invariant (checks.mk id checked_at target None None 0 (Some msg) None None).
Proof.
  right. split.
  - repeat split; try reflexivity. discriminate.
  - intros (H & _). discriminate H.
Qed.

Lemma utc_now_appends (E : env) : preserves appends_checks (utc_now E).
Proof. intros w. now apply appends_checks_same_conn. Qed.

Lemma commit_appends (E : env) : preserves appends_checks (conn_commit E).
Proof. apply conn_execute_appends, statement_same_checks. reflexivity. Qed.

Lemma print_appends (l : line) : preserves appends_checks (print l).
Proof. intros w. now apply appends_checks_same_conn. Qed.

(** One step of a proof that a composite action only appends to the
    check ledger. *)
Ltac appends_step :=
  first
    [ apply (preserves_bind appends_checks appends_checks_trans)
    | apply (preserves_try_except appends_checks appends_checks_trans)
    | apply (preserves_for_each appends_checks appends_checks_refl appends_checks_trans)
    | apply (preserves_ret appends_checks appends_checks_refl)
    | apply (preserves_lift appends_checks appends_checks_refl)
    | apply utc_now_appends
    | apply commit_appends
    | apply print_appends ].

Lemma save_discoveries_appends (E : env) (src : string) (urls : list string) :
  preserves appends_checks (save_discoveries E src urls).
Proof.
  unfold save_discoveries. appends_step; [|intros _; appends_step].
  appends_step. intros u. appends_step; [appends_step|].
  intros now. apply conn_insert_discovery_appends.
Qed.

Lemma insert_check_appends (E : env) (checked_at target : string)
  (final_url : option string) (status : option Z) (ok : Z)
  (error sig title : option string) :
  check_invariant
    (checks.mk 0 checked_at target final_url status ok error sig title) ->
  preserves appends_checks
    (conn_execute E (insert_check checked_at target final_url status ok error sig title)).
Proof.
  intros Hinv. apply conn_execute_appends. intros db.
  eexists. split; [reflexivity|]. constructor; [|constructor].
  exact Hinv.
Qed.

Lemma attempt_appends (E : env) (cfg : Config) (target checked_at : string) :
  preserves appends_checks (attempt E cfg target checked_at).
Proof.
  unfold attempt. appends_step.
  { intros w. now apply appends_checks_same_conn. }
  intros response. appends_step.
  { apply insert_check_appends, success_row_invariant. }
  intros _. appends_step; [appends_step|].
  intros _. appends_step; [appends_step|].
  intros discoveries. appends_step.
  { destruct (decide (discoveries = ∅)); [appends_step | apply save_discoveries_appends]. }
  intros _. appends_step.
  { destruct (sig_of (requests.text response)) as [sig|]; [|appends_step].
    destruct (Str.is_empty sig); [appends_step|].
    appends_step.
    - intros w. apply appends_checks_same_conn. unfold conn_select_mirrors.
      now destruct (disk E (n_sql w)).
    - intros [|m ms]; appends_step. }
  intros _. appends_step.
  { destruct (String.eqb (requests.url response) target); appends_step. }
  intros _. appends_step.
Qed.

Lemma record_failure_appends (E : env) (target checked_at : string) (exc : exception) :
  preserves appends_checks (record_failure E target checked_at exc).
Proof.
  unfold record_failure. appends_step.
  { apply insert_check_appends, failure_row_invariant. }
  intros _. appends_step; [appends_step|].
  intros _. appends_step.
Qed.

Lemma poll_appends (E : env) (cfg : Config) (target : string) :
  preserves appends_checks (poll E cfg target).
Proof.
  unfold poll. appends_step; [appends_step|].
  intros checked_at. appends_step.
  - apply attempt_appends.
  - intros e. apply record_failure_appends.
Qed.

Lemma cycle_appends (E : env) (cfg : Config) : preserves appends_checks (cycle E cfg).
Proof.
  unfold cycle, load_targets. appends_step.
  { appends_step; [|intros lines; appends_step].
    intros w. now apply appends_checks_same_conn. }
  intros targets. appends_step.
  { appends_step. intros t. apply poll_appends. }
  intros _ w. now apply appends_checks_same_conn.
Qed.

Lemma loop_appends (E : env) (cfg : Config) (cycles : nat) :
  preserves appends_checks (loop E cycles cfg).
Proof.
  induction cycles as [|n IH]; simpl; [appends_step|].
  appends_step; [apply cycle_appends | intros _; exact IH].
Qed.

Lemma init_db_appends (E : env) : preserves appends_checks (init_db E).
Proof.
  unfold init_db. appends_step; [appends_step|].
  intros _. appends_step; [appends_step|].
  intros _. appends_step.
Qed.

(** C7: whatever the surroundings do, and for any number of turns of the
    loop, the check ledger [run] leaves is the ledger it found with rows
    added at its end (no row is changed or removed), and each added row
    has exactly one of the two shapes: [ok = 1] with a status code, or
    [ok = 0] with an error and with [status_code], [content_sig],
    [final_url] and [title] all null. *)
Theorem run_only_appends_well_shaped_checks (E : env) (cfg : Config) (cycles : nat)
  (w : world) :
  exists new,
    t_checks (conn (snd (run E cfg cycles w))) = t_checks (conn w) ++ new
    /\ Forall check_invariant new.
Proof.
  revert w. change (preserves appends_checks (run E cfg cycles)).
  unfold run. appends_step; [apply init_db_appends | intros _; apply loop_appends].
Qed.

(** ** One target: what [attempt], [record_failure] and [poll] do *)

Lemma attempt_unfold (E : env) (cfg : Config) (target checked_at : string) :
  attempt E cfg target checked_at
  = (response <- session_get E target 45 (follow_redirects cfg) ;;
     conn_execute E
       (insert_check checked_at target (Some (requests.url response))
          (Some (requests.status_code response)) 1 None
          (sig_of (requests.text response))
          (option_map (bs4.get_text EmptyString true)
             (bs4.title (bs4.BeautifulSoup (requests.text response))))) ;;
     conn_commit E ;;
     after_commit E target checked_at response).
Proof. reflexivity. Qed.

Lemma same_ledger_refl (w : world) : same_ledger w w.
Proof. now repeat split. Qed.

Lemma same_ledger_trans (a b c : world) :
  same_ledger a b -> same_ledger b c -> same_ledger a c.
Proof.
  intros (H1 & H2 & H3) (G1 & G2 & G3). repeat split; congruence.
Qed.

Lemma conn_execute_same_ledger (E : env) (statement : database -> database) :
  (forall db, t_checks (statement db) = t_checks db) ->
  preserves same_ledger (conn_execute E statement).
Proof.
  intros H w. unfold conn_execute.
  destruct (disk E (n_sql w)); repeat split; simpl; auto.
Qed.

Lemma select_same_ledger (E : env) (sig target : string) :
  preserves same_ledger (conn_select_mirrors E sig target).
Proof.
  intros w. unfold conn_select_mirrors. destruct (disk E (n_sql w)); now repeat split.
Qed.

Ltac ledger_step :=
  first
    [ apply (preserves_bind same_ledger same_ledger_trans)
    | apply (preserves_for_each same_ledger same_ledger_refl same_ledger_trans)
    | apply (preserves_ret same_ledger same_ledger_refl)
    | apply (preserves_lift same_ledger same_ledger_refl)
    | apply select_same_ledger
    | apply conn_execute_same_ledger
    | (intros ?w; now repeat split) ].

Lemma conn_insert_discovery_same_ledger (E : env) (now src u : string) :
  preserves same_ledger (conn_insert_discovery E now src u).
Proof.
  intros w. unfold conn_insert_discovery. destruct (disk E (n_sql w)); cbn [snd].
  - now repeat split.
  - repeat split. cbn [conn counted executed]. apply insert_or_ignore_same_checks.
Qed.

Lemma save_discoveries_same_ledger (E : env) (src : string) (urls : list string) :
  preserves same_ledger (save_discoveries E src urls).
Proof.
  unfold save_discoveries. ledger_step.
  - ledger_step. intros u. ledger_step; [ledger_step|].
    intros now. apply conn_insert_discovery_same_ledger.
  - intros _. ledger_step. reflexivity.
Qed.

Lemma after_commit_same_ledger (E : env) (target checked_at : string)
  (response : requests.Response) :
  preserves same_ledger (after_commit E target checked_at response).
Proof.
  unfold after_commit. ledger_step; [ledger_step|].
  intros discoveries. ledger_step.
  { destruct (decide (discoveries = ∅)); [ledger_step | apply save_discoveries_same_ledger]. }
  intros _. ledger_step.
  { destruct (sig_of (requests.text response)) as [sig|]; [|ledger_step].
    destruct (Str.is_empty sig); [ledger_step|].
    ledger_step; [ledger_step|]. intros [|m ms]; ledger_step. }
  intros _. ledger_step.
  { destruct (String.eqb (requests.url response) target); ledger_step. }
  intros _. ledger_step.
Qed.

(** [attempt], step by step. *)
Lemma attempt_eq (E : env) (cfg : Config) (target checked_at : string) (w : world) :
  attempt E cfg target checked_at w
  = match network E (n_get w) target 45 (follow_redirects cfg) with
    | Raise e => (Raise e, requested target w)
    | Ok response =>
        let insert :=
          insert_check checked_at target (Some (requests.url response))
            (Some (requests.status_code response)) 1 None
            (sig_of (requests.text response))
            (option_map (bs4.get_text EmptyString true)
               (bs4.title (bs4.BeautifulSoup (requests.text response)))) in
        match disk E (n_sql w) with
        | Some msg => (Raise (sqlite3_Error msg), executed (fun db => db) (requested target w))
        | None =>
            match disk E (S (n_sql w)) with
            | Some msg =>
                (Raise (sqlite3_Error msg),
                 executed (fun db => db) (executed insert (requested target w)))
            | None =>
                after_commit E target checked_at response
                  (executed (fun db => db) (executed insert (requested target w)))
            end
        end
    end.
Proof.
  rewrite attempt_unfold. unfold bind, session_get, conn_commit, conn_execute.
  destruct (network E (n_get w) target 45 (follow_redirects cfg)) as [response|e];
    [|reflexivity].
  cbn [n_sql requested executed].
  destruct (disk E (n_sql w)); [reflexivity|].
  cbn [n_sql requested executed].
  destruct (disk E (S (n_sql w))); reflexivity.
Qed.

(** What [attempt] leaves behind, however it ends: one more request in
    the trace, and at most one more check row, the [ok = 1] row of the
    response; the row is there whenever [attempt] returns. *)
Lemma attempt_ledger (E : env) (cfg : Config) (target checked_at : string) (w : world) :
  fetched (snd (attempt E cfg target checked_at w)) = fetched w ++ [target]
  /\ n_get (snd (attempt E cfg target checked_at w)) = S (n_get w)
  /\ ((t_checks (conn (snd (attempt E cfg target checked_at w))) = t_checks (conn w)
       /\ exists e, fst (attempt E cfg target checked_at w) = Raise e)
      \/ exists response,
           network E (n_get w) target 45 (follow_redirects cfg) = Ok response
           /\ disk E (n_sql w) = None
           /\ t_checks (conn (snd (attempt E cfg target checked_at w)))
              = t_checks (conn w) ++ [success_row (conn w) checked_at target response]).
Proof.
  rewrite attempt_eq.
  destruct (network E (n_get w) target 45 (follow_redirects cfg)) as [response|e] eqn:Hnet.
  2:{ simpl. repeat split. left. split; [reflexivity | now exists e]. }
  cbv zeta.
  destruct (disk E (n_sql w)) as [msg|] eqn:Hd1.
  { simpl. repeat split. left. split; [reflexivity | eauto]. }
  destruct (disk E (S (n_sql w))) as [msg|] eqn:Hd2.
  { simpl. repeat split. right. exists response. now repeat split. }
  match goal with
  | |- context [after_commit E target checked_at response ?w2] =>
      destruct (after_commit_same_ledger E target checked_at response w2) as (H1 & H2 & H3);
      cbn [conn fetched n_get executed requested] in H1, H2, H3
  end.
  repeat split; [exact H2 | exact H3 |].
  right. exists response. repeat split. rewrite H1. reflexivity.
Qed.

Lemma record_failure_eq (E : env) (target checked_at : string) (exc : exception) (w : world) :
  record_failure E target checked_at exc w
  = let insert := insert_check checked_at target None None 0 (Some (str_exc exc)) None None in
    match disk E (n_sql w) with
    | Some msg => (Raise (sqlite3_Error msg), executed (fun db => db) w)
    | None =>
        match disk E (S (n_sql w)) with
        | Some msg => (Raise (sqlite3_Error msg), executed (fun db => db) (executed insert w))
        | None =>
            (Ok tt,
             printed (fail_line checked_at target (str_exc exc))
               (executed (fun db => db) (executed insert w)))
        end
    end.
Proof.
  unfold record_failure, bind, conn_commit, conn_execute, print.
  destruct (disk E (n_sql w)); [reflexivity|].
  cbn [n_sql executed].
  destruct (disk E (S (n_sql w))); reflexivity.
Qed.

Lemma poll_eq (E : env) (cfg : Config) (target : string) (w : world) :
  poll E cfg target w
  = match attempt E cfg target (clock E (n_now w)) (ticked w) with
    | (Ok a, w') => (Ok a, w')
    | (Raise e, w') => record_failure E target (clock E (n_now w)) e w'
    end.
Proof. reflexivity. Qed.

(** A transport failure, on a disk that works for the two statements of
    the handler: [poll] returns, and has written the [ok = 0] row. *)
Lemma poll_transport_failure (E : env) (cfg : Config) (target : string) (exc : exception)
  (w : world) :
  network E (n_get w) target 45 (follow_redirects cfg) = Raise exc ->
  disk E (n_sql w) = None -> disk E (S (n_sql w)) = None ->
  poll E cfg target w
  = (Ok tt,
     printed (fail_line (clock E (n_now w)) target (str_exc exc))
       (executed (fun db => db)
          (executed
             (insert_check (clock E (n_now w)) target None None 0 (Some (str_exc exc))
                None None)
             (requested target (ticked w))))).
Proof.
  intros Hnet Hd1 Hd2. rewrite poll_eq, attempt_eq.
  cbn [n_get n_sql ticked]. rewrite Hnet.
  rewrite record_failure_eq. cbn [n_sql requested ticked]. now rewrite Hd1, Hd2.
Qed.

(** On a disk that never fails [poll] always returns; it has made one
    request, for its target, and has added check rows, one of them at
    least for its target. *)
Lemma poll_returns (E : env) (cfg : Config) (target : string) (w : world) :
  disk_ok E ->
  exists w',
    poll E cfg target w = (Ok tt, w')
    /\ fetched w' = fetched w ++ [target]
    /\ n_get w' = S (n_get w)
    /\ exists rows,
         t_checks (conn w') = t_checks (conn w) ++ rows
         /\ exists r, In r rows /\ checks.target_url r = target.
Proof.
  intros Hdisk. rewrite poll_eq.
  destruct (attempt_ledger E cfg target (clock E (n_now w)) (ticked w))
    as (Hf & Hn & Hrows).
  destruct (attempt E cfg target (clock E (n_now w)) (ticked w)) as [[[]|e] w1] eqn:Ha;
    cbn [fst snd] in *.
  - exists w1. repeat split; [exact Hf | exact Hn |].
    destruct Hrows as [(_ & e & He) | (response & _ & _ & Hrow)]; [discriminate He|].
    eexists. split; [exact Hrow|]. eexists. split; [now left | reflexivity].
  - rewrite record_failure_eq. cbv zeta. rewrite !Hdisk.
    eexists. split; [reflexivity|]. cbn [fetched n_get conn printed executed].
    repeat split; [exact Hf | exact Hn |].
    destruct Hrows as [(Hsame & _) | (response & _ & _ & Hrow)].
    + eexists. split; [unfold insert_check; cbn [t_checks]; rewrite Hsame; reflexivity|].
      eexists. split; [now left | reflexivity].
    + eexists. split.
      { unfold insert_check. cbn [t_checks]. rewrite Hrow, <- app_assoc. reflexivity. }
      eexists. split; [now left | reflexivity].
Qed.

Lemma for_each_app {A : Type} (l1 l2 : list A) (body : A -> M unit) (w : world) :
  for_each (l1 ++ l2) body w
  = match for_each l1 body w with
    | (Ok _, w1) => for_each l2 body w1
    | (Raise e, w1) => (Raise e, w1)
    end.
Proof.
  revert w. induction l1 as [|x l1 IH]; intros w; simpl; [reflexivity|].
  unfold bind. destruct (body x w) as [[[]|e] w1]; [apply IH | reflexivity].
Qed.

(** A whole pass over the targets, on a disk that never fails. *)
Lemma for_each_poll_returns (E : env) (cfg : Config) (targets : list string) (w : world) :
  disk_ok E ->
  exists w',
    for_each targets (poll E cfg) w = (Ok tt, w')
    /\ fetched w' = fetched w ++ targets
    /\ n_get w' = (n_get w + length targets)%nat
    /\ exists rows,
         t_checks (conn w') = t_checks (conn w) ++ rows
         /\ forall y, In y targets -> exists r, In r rows /\ checks.target_url r = y.
Proof.
  intros Hdisk. revert w. induction targets as [|t ts IH]; intros w.
  - exists w. simpl. rewrite !app_nil_r, Nat.add_0_r. repeat split.
    exists []. rewrite app_nil_r. split; [reflexivity | intros y []].
  - destruct (poll_returns E cfg t w Hdisk) as (w1 & Hp & Hf1 & Hn1 & rows1 & Hr1 & r1 & Hin1 & Ht1).
    destruct (IH w1) as (w2 & Hl & Hf2 & Hn2 & rows2 & Hr2 & Hall).
    exists w2. simpl. unfold bind. rewrite Hp. split; [exact Hl|].
    split; [rewrite Hf2, Hf1, <- app_assoc; reflexivity|].
    split; [rewrite Hn2, Hn1; lia|].
    exists (rows1 ++ rows2). split; [rewrite Hr2, Hr1, <- app_assoc; reflexivity|].
    intros y [<-|Hy].
    + exists r1. split; [apply in_or_app; now left | exact Ht1].
    + destruct (Hall y Hy) as (r & Hr & Hty). exists r.
      split; [apply in_or_app; now right | exact Hty].
Qed.

(** C8: in a pass over the targets [pre ++ x :: post], on a disk that
    does not fail, a transport failure while fetching [x] aborts nothing:
    the pass returns; the failed attempt has added exactly one row to the
    check ledger, with [ok = 0] and the text of the error; and every
    later target is requested and gets a check row. *)
Theorem transport_failure_is_isolated (E : env) (cfg : Config) (pre post : list string)
  (x : string) (exc : exception) (w : world) :
  disk_ok E ->
  network E (n_get w + length pre)%nat x 45 (follow_redirects cfg) = Raise exc ->
  exists w1 w2 w3,
    for_each pre (poll E cfg) w = (Ok tt, w1)
    /\ poll E cfg x w1 = (Ok tt, w2)
    /\ for_each post (poll E cfg) w2 = (Ok tt, w3)
    /\ for_each (pre ++ x :: post) (poll E cfg) w = (Ok tt, w3)
    /\ t_checks (conn w2)
       = t_checks (conn w1) ++ [failure_row (conn w1) (clock E (n_now w1)) x exc]
    /\ fetched w3 = fetched w ++ pre ++ x :: post
    /\ exists later,
         t_checks (conn w3) = t_checks (conn w2) ++ later
         /\ forall y, In y post -> exists r, In r later /\ checks.target_url r = y.
Proof.
  intros Hdisk Hnet.
  destruct (for_each_poll_returns E cfg pre w Hdisk) as (w1 & Hpre & Hf1 & Hn1 & _).
  rewrite <- Hn1 in Hnet.
  pose proof (poll_transport_failure E cfg x exc w1 Hnet (Hdisk _) (Hdisk _)) as Hx.
  match type of Hx with _ = (_, ?w) => set (w2 := w) in * end.
  destruct (for_each_poll_returns E cfg post w2 Hdisk) as (w3 & Hpost & Hf3 & _ & later & Hl & Hall).
  exists w1, w2, w3. repeat split; try assumption.
  - rewrite for_each_app, Hpre. simpl. unfold bind. rewrite Hx. exact Hpost.
  - rewrite Hf3. subst w2. cbn [fetched printed executed requested ticked].
    rewrite Hf1, <- !app_assoc. reflexivity.
  - exists later. split; assumption.
Qed.

(** The theorem in [flaky_env]: [down.example] times out between
    [a.example] and [b.example]. *)
Lemma transport_failure_is_isolated_witness :
  exists w1 w2 w3,
    for_each ["http://a.example/"] (poll flaky_env default_config) (fresh empty_store)
    = (Ok tt, w1)
    /\ poll flaky_env default_config "http://down.example/" w1 = (Ok tt, w2)
    /\ for_each ["http://b.example/"] (poll flaky_env default_config) w2 = (Ok tt, w3)
    /\ for_each (["http://a.example/"] ++ "http://down.example/" :: ["http://b.example/"])
         (poll flaky_env default_config) (fresh empty_store) = (Ok tt, w3)
    /\ t_checks (conn w2)
       = t_checks (conn w1)
         ++ [failure_row (conn w1) (clock flaky_env (n_now w1)) "http://down.example/"
               (RequestException "timed out")]
    /\ fetched w3
       = fetched (fresh empty_store)
         ++ ["http://a.example/"] ++ "http://down.example/" :: ["http://b.example/"]
    /\ exists later,
         t_checks (conn w3) = t_checks (conn w2) ++ later
         /\ forall y, In y ["http://b.example/"] ->
                      exists r, In r later /\ checks.target_url r = y.
Proof.
  apply (transport_failure_is_isolated flaky_env default_config
           ["http://a.example/"] ["http://b.example/"] "http://down.example/"
           (RequestException "timed out") (fresh empty_store)).
  - intros n. reflexivity.
  - reflexivity.
Defined.

(** ** Storage failures *)

(** C9, as the claim states it, fails: in [locked_env] the first
    statement of the attempt, the insert of the [ok = 1] row, fails with
    a storage error.  [poll] catches it, writes it into the check ledger
    as an [ok = 0] row, and returns; the pass goes on to the next
    targets. *)
Lemma storage_failure_is_recorded_as_a_check :
  disk locked_env 0 = Some "database is locked"%string
  /\ poll locked_env default_config "http://a.example/" (fresh empty_store)
     = (Ok tt,
        printed (fail_line (second 0) "http://a.example/" "database is locked")
          (executed (fun db => db)
             (executed
                (insert_check (second 0) "http://a.example/" None None 0
                   (Some "database is locked"%string) None None)
                (executed (fun db => db)
                   (requested "http://a.example/" (ticked (fresh empty_store)))))))
  /\ t_checks (conn (snd (poll locked_env default_config "http://a.example/"
                             (fresh empty_store))))
     = [checks.mk 1 (second 0) "http://a.example/" None None 0
          (Some "database is locked"%string) None None]
  /\ fst (for_each ["http://a.example/"; "http://b.example/"]
            (poll locked_env default_config) (fresh empty_store)) = Ok tt
  /\ fetched (snd (for_each ["http://a.example/"; "http://b.example/"]
                     (poll locked_env default_config) (fresh empty_store)))
     = ["http://a.example/"; "http://b.example/"].
Proof. by_computation. Qed.

(** What leaves [poll] is a storage failure of the handler: [poll]
    raises exactly when the attempt raised and one of the handler's two
    statements then fails. *)
Lemma poll_raises_iff (E : env) (cfg : Config) (target : string) (w : world)
  (e : exception) :
  fst (poll E cfg target w) = Raise e
  <-> exists e0 msg,
        fst (attempt E cfg target (clock E (n_now w)) (ticked w)) = Raise e0
        /\ e = sqlite3_Error msg
        /\ (disk E (n_sql (snd (attempt E cfg target (clock E (n_now w)) (ticked w))))
            = Some msg
            \/ (disk E (n_sql (snd (attempt E cfg target (clock E (n_now w)) (ticked w))))
                = None
                /\ disk E (S (n_sql (snd (attempt E cfg target (clock E (n_now w))
                                            (ticked w))))) = Some msg)).
Proof.
  rewrite poll_eq.
  destruct (attempt E cfg target (clock E (n_now w)) (ticked w)) as [[[]|e0] w1];
    cbn [fst snd].
  - split; [discriminate|]. intros (e1 & msg & H & _). discriminate H.
  - rewrite record_failure_eq. cbv zeta.
    destruct (disk E (n_sql w1)) as [m1|] eqn:Hd1.
    + cbn [fst]. split.
      * intros [= <-]. exists e0, m1. split; [reflexivity|]. split; [reflexivity|now left].
      * intros (e1 & msg & _ & -> & [[= ->]|[H _]]); [reflexivity | discriminate H].
    + destruct (disk E (S (n_sql w1))) as [m2|] eqn:Hd2; cbn [fst].
      * split.
        -- intros [= <-]. exists e0, m2. split; [reflexivity|]. split; [reflexivity|].
           right. now split.
        -- intros (e1 & msg & _ & -> & [H|[_ [= ->]]]); [discriminate H | reflexivity].
      * split; [discriminate|].
        intros (e1 & msg & _ & _ & [H|[_ H]]); discriminate H.
Qed.

(** An exception that leaves [poll] ends the pass over the targets. *)
Lemma for_each_poll_raises (E : env) (cfg : Config) (pre post : list string) (x : string)
  (w w1 w2 : world) (e : exception) :
  for_each pre (poll E cfg) w = (Ok tt, w1) ->
  poll E cfg x w1 = (Raise e, w2) ->
  for_each (pre ++ x :: post) (poll E cfg) w = (Raise e, w2).
Proof.
  intros Hpre Hx. rewrite for_each_app, Hpre. simpl. unfold bind. now rewrite Hx.
Qed.

(** An exception that leaves a turn of the loop ends the loop, and
    [run]. *)
Lemma loop_raises (E : env) (cfg : Config) (n : nat) (w w' : world) (e : exception) :
  cycle E cfg w = (Raise e, w') -> loop E (S n) cfg w = (Raise e, w').
Proof. intros H. simpl. unfold bind. now rewrite H. Qed.

(** An exception that leaves the pass over the targets ends the turn,
    and an exception that leaves a turn ends the loop and [run]. *)
Lemma cycle_raises (E : env) (cfg : Config) (targets : list string) (w w0 w' : world)
  (e : exception) :
  load_targets E (targets_file cfg) w = (Ok targets, w0) ->
  for_each targets (poll E cfg) w0 = (Raise e, w') ->
  cycle E cfg w = (Raise e, w').
Proof.
  intros Hload Hpass. unfold cycle. rewrite (bind_ok _ _ _ _ _ Hload).
  now rewrite (bind_raise _ _ _ _ _ Hpass).
Qed.

Lemma loop_raises_later (E : env) (cfg : Config) (m n : nat) (w w0 w' : world)
  (e : exception) :
  loop E m cfg w = (Ok tt, w0) -> cycle E cfg w0 = (Raise e, w') ->
  loop E (m + S n) cfg w = (Raise e, w').
Proof.
  revert w. induction m as [|m IH]; intros w Hloop Hcycle.
  - cbn in Hloop. injection Hloop as <-. now apply loop_raises.
  - cbn [loop Nat.add] in *. rewrite bind_eq in Hloop. rewrite bind_eq.
    destruct (cycle E cfg w) as [[[]|e1] w1]; [|discriminate Hloop].
    now apply IH.
Qed.

Lemma run_raises (E : env) (cfg : Config) (m n : nat) (w w0 w1 w' : world)
  (e : exception) :
  init_db E w = (Ok tt, w0) -> loop E m cfg w0 = (Ok tt, w1) ->
  cycle E cfg w1 = (Raise e, w') ->
  run E cfg (m + S n) w = (Raise e, w').
Proof.
  intros Hinit Hloop Hcycle. unfold run. rewrite (bind_ok _ _ _ _ _ Hinit).
  now apply (loop_raises_later E cfg m n w0 w1).
Qed.

(** ** Storage failures inside the attempt *)

(** The loop of [save_discoveries] on a disk that works for its
    statements: one statement for each discovery. *)
Lemma save_loop_statements (E : env) (s : string) (urls : list string) (w : world) :
  (forall i, (i < length urls)%nat -> disk E (n_sql w + i) = None) ->
  exists w',
    for_each urls (fun url => now <- utc_now E ;; conn_insert_discovery E now s url) w
    = (Ok tt, w')
    /\ n_sql w' = (n_sql w + length urls)%nat.
Proof.
  revert w. induction urls as [|u urls IH]; intros w Hok.
  - exists w. split; [reflexivity|]. cbn [length]. lia.
  - rewrite for_each_cons, save_one_eq.
    assert (H0 : disk E (n_sql w) = None).
    { rewrite <- (Nat.add_0_r (n_sql w)). apply Hok. cbn [length]. lia. }
    rewrite H0.
    match goal with
    | |- context [for_each urls _ ?w1] => destruct (IH w1) as (w' & Hw' & Hn)
    end.
    + intros i Hi. cbn [n_sql counted executed ticked].
      replace (S (n_sql w) + i)%nat with (n_sql w + S i)%nat by lia.
      apply Hok. cbn [length]. lia.
    + exists w'. split; [exact Hw'|]. rewrite Hn.
      cbn [n_sql counted executed ticked length]. lia.
Qed.

(** The loop on a disk that fails at its statement of index [j]: the
    storage error leaves the loop. *)
Lemma save_loop_storage_failure (E : env) (s : string) (urls : list string) (w : world)
  (j : nat) (msg : string) :
  (j < length urls)%nat ->
  (forall i, (i < j)%nat -> disk E (n_sql w + i) = None) ->
  disk E (n_sql w + j) = Some msg ->
  exists w',
    for_each urls (fun url => now <- utc_now E ;; conn_insert_discovery E now s url) w
    = (Raise (sqlite3_Error msg), w')
    /\ n_sql w' = S (n_sql w + j).
Proof.
  revert w j. induction urls as [|u urls IH]; intros w j Hj Hok Hfail.
  { cbn [length] in Hj. lia. }
  rewrite for_each_cons, save_one_eq. destruct j as [|j].
  - rewrite Nat.add_0_r in Hfail. rewrite Hfail. eexists. split; [reflexivity|].
    cbn [n_sql executed ticked]. lia.
  - assert (H0 : disk E (n_sql w) = None).
    { rewrite <- (Nat.add_0_r (n_sql w)). apply Hok. lia. }
    rewrite H0.
    match goal with
    | |- context [for_each urls _ ?w1] => destruct (IH w1 j) as (w' & Hw' & Hn)
    end.
    + cbn [length] in Hj. lia.
    + intros i Hi. cbn [n_sql counted executed ticked].
      replace (S (n_sql w) + i)%nat with (n_sql w + S i)%nat by lia.
      apply Hok. lia.
    + cbn [n_sql counted executed ticked].
      replace (S (n_sql w) + j)%nat with (n_sql w + S j)%nat by lia. exact Hfail.
    + exists w'. split; [exact Hw'|]. rewrite Hn.
      cbn [n_sql counted executed ticked]. lia.
Qed.

Lemma save_discoveries_unfold (E : env) (s : string) (urls : list string) (w : world) :
  save_discoveries E s urls w
  = match
      for_each urls (fun url => now <- utc_now E ;; conn_insert_discovery E now s url) w
    with
    | (Ok _, w1) =>
        match disk E (n_sql w1) with
        | Some msg => (Raise (sqlite3_Error msg), executed (fun db => db) w1)
        | None => (Ok tt, executed (fun db => db) w1)
        end
    | (Raise e, w1) => (Raise e, w1)
    end.
Proof. reflexivity. Qed.

(** [save_discoveries] on a disk that works for its statements, the
    inserts and the commit. *)
Lemma save_discoveries_statements (E : env) (s : string) (urls : list string) (w : world) :
  (forall i, (i <= length urls)%nat -> disk E (n_sql w + i) = None) ->
  exists w',
    save_discoveries E s urls w = (Ok tt, w')
    /\ n_sql w' = S (n_sql w + length urls).
Proof.
  intros Hok. rewrite save_discoveries_unfold.
  destruct (save_loop_statements E s urls w) as (w1 & -> & Hn).
  { intros i Hi. apply Hok. lia. }
  rewrite Hn, (Hok (length urls) (Nat.le_refl _)).
  eexists. split; [reflexivity|]. cbn [n_sql executed]. lia.
Qed.

(** [save_discoveries] on a disk that fails at its statement of index
    [j], an insert or the commit: the storage error leaves it. *)
Lemma save_discoveries_storage_failure (E : env) (s : string) (urls : list string)
  (w : world) (j : nat) (msg : string) :
  (j <= length urls)%nat ->
  (forall i, (i < j)%nat -> disk E (n_sql w + i) = None) ->
  disk E (n_sql w + j) = Some msg ->
  exists w',
    save_discoveries E s urls w = (Raise (sqlite3_Error msg), w')
    /\ n_sql w' = S (n_sql w + j).
Proof.
  intros Hj Hok Hfail. rewrite save_discoveries_unfold.
  destruct (Nat.eq_dec j (length urls)) as [->|Hne].
  - destruct (save_loop_statements E s urls w Hok) as (w1 & -> & Hn).
    rewrite Hn, Hfail. eexists. split; [reflexivity|]. cbn [n_sql executed]. lia.
  - destruct (save_loop_storage_failure E s urls w j msg) as (w1 & -> & Hn);
      [lia | exact Hok | exact Hfail |].
    exists w1. split; [reflexivity | exact Hn].
Qed.

(** The mirror query on a disk that fails. *)
Lemma select_storage_failure (E : env) (sig target : string) (k : list string -> M unit)
  (w : world) (msg : string) :
  disk E (n_sql w) = Some msg ->
  (mirrors <- conn_select_mirrors E sig target ;; k mirrors) w
  = (Raise (sqlite3_Error msg), selected sig target w).
Proof. intros H. unfold bind, conn_select_mirrors. now rewrite H. Qed.

(** What follows the commit of the [ok = 1] row, on a disk that fails at
    the statement of index [j] from there: the storage error leaves
    [after_commit], whether it strikes in [save_discoveries] or at the
    mirror query. *)
Lemma after_commit_storage_failure (E : env) (target checked_at : string)
  (response : requests.Response) (w : world) (j : nat) (msg : string) :
  (j < save_statements response + query_statements response)%nat ->
  (forall i, (i < j)%nat -> disk E (n_sql w + i) = None) ->
  disk E (n_sql w + j) = Some msg ->
  exists w',
    after_commit E target checked_at response w = (Raise (sqlite3_Error msg), w')
    /\ n_sql w' = S (n_sql w + j).
Proof.
  unfold save_statements, query_statements, after_commit. intros Hj Hok Hfail.
  rewrite bind_eq. unfold lift at 1.
  destruct (discover_onion_candidates _ _) as [discoveries|e]; [|lia].
  rewrite bind_eq.
  destruct (decide (discoveries = ∅)) as [Hempty|Hsome].
  - unfold ret at 1. rewrite bind_eq.
    destruct (sig_of (requests.text response)) as [sig|]; [|lia].
    destruct (Str.is_empty sig); [lia|].
    assert (j = 0%nat) as -> by lia. rewrite Nat.add_0_r in Hfail.
    rewrite (select_storage_failure E sig target _ w msg Hfail).
    eexists. split; [reflexivity|]. cbn [n_sql selected]. lia.
  - destruct (Nat.le_gt_cases j (length (elements discoveries))) as [Hle|Hgt].
    + destruct (save_discoveries_storage_failure E target (elements discoveries) w j msg
                  Hle Hok Hfail) as (w1 & -> & Hn).
      exists w1. split; [reflexivity | exact Hn].
    + destruct (save_discoveries_statements E target (elements discoveries) w)
        as (w1 & -> & Hn).
      { intros i Hi. apply Hok. lia. }
      rewrite bind_eq.
      destruct (sig_of (requests.text response)) as [sig|]; [|lia].
      destruct (Str.is_empty sig); [lia|].
      assert (j = S (length (elements discoveries))) as -> by lia.
      assert (Hq : disk E (n_sql w1) = Some msg).
      { rewrite Hn. rewrite <- Hfail. f_equal. lia. }
      rewrite (select_storage_failure E sig target _ w1 msg Hq).
      eexists. split; [reflexivity|]. cbn [n_sql selected]. lia.
Qed.

(** A storage failure at the statement of index [k] of the attempt,
    whichever it is: the storage error leaves the attempt, with the
    [ok = 1] row in the ledger unless its insert is what failed. *)
Lemma attempt_storage_failure (E : env) (cfg : Config) (target checked_at msg : string)
  (response : requests.Response) (w : world) (k : nat) :
  network E (n_get w) target 45 (follow_redirects cfg) = Ok response ->
  (k < attempt_statements response)%nat ->
  (forall i, (i < k)%nat -> disk E (n_sql w + i) = None) ->
  disk E (n_sql w + k) = Some msg ->
  exists w',
    attempt E cfg target checked_at w = (Raise (sqlite3_Error msg), w')
    /\ n_sql w' = S (n_sql w + k)
    /\ t_checks (conn w') = checks_after_failure (conn w) checked_at target response k.
Proof.
  intros Hnet Hk Hok Hfail. rewrite attempt_eq, Hnet. cbv zeta.
  unfold checks_after_failure. destruct k as [|[|k]].
  - rewrite Nat.add_0_r in Hfail. rewrite Hfail. eexists. split; [reflexivity|].
    cbn [n_sql conn executed requested]. split; [lia | now rewrite app_nil_r].
  - assert (H0 : disk E (n_sql w) = None).
    { rewrite <- (Nat.add_0_r (n_sql w)). apply Hok. lia. }
    rewrite H0. replace (S (n_sql w)) with (n_sql w + 1)%nat by lia. rewrite Hfail.
    eexists. split; [reflexivity|]. cbn [n_sql conn executed requested].
    split; [lia | reflexivity].
  - assert (H0 : disk E (n_sql w) = None).
    { rewrite <- (Nat.add_0_r (n_sql w)). apply Hok. lia. }
    assert (H1 : disk E (S (n_sql w)) = None).
    { replace (S (n_sql w)) with (n_sql w + 1)%nat by lia. apply Hok. lia. }
    rewrite H0, H1.
    match goal with
    | |- context [after_commit E target checked_at response ?w2] =>
        destruct (after_commit_storage_failure E target checked_at response w2 k msg)
          as (w' & Hw' & Hn);
        [ unfold attempt_statements in Hk; lia
        | intros i Hi; cbn [n_sql executed requested];
          replace (S (S (n_sql w)) + i)%nat with (n_sql w + S (S i))%nat by lia;
          apply Hok; lia
        | cbn [n_sql executed requested];
          replace (S (S (n_sql w)) + k)%nat with (n_sql w + S (S k))%nat by lia;
          exact Hfail
        | pose proof (after_commit_same_ledger E target checked_at response w2)
            as (Hrows & _ & _) ]
    end.
    rewrite Hw' in *. cbn [snd] in Hrows.
    exists w'. split; [reflexivity|]. split.
    + rewrite Hn. cbn [n_sql executed requested]. lia.
    + rewrite Hrows. reflexivity.
Qed.

(** A storage failure of a statement of the attempt, on a disk that then
    works for the two statements of the handler: [poll] returns, and the
    failure is a row of the ledger. *)
Lemma poll_storage_failure_in_attempt (E : env) (cfg : Config) (target msg : string)
  (response : requests.Response) (w : world) (k : nat) :
  network E (n_get w) target 45 (follow_redirects cfg) = Ok response ->
  (k < attempt_statements response)%nat ->
  (forall i, (i < k)%nat -> disk E (n_sql w + i) = None) ->
  disk E (n_sql w + k) = Some msg ->
  disk E (n_sql w + k + 1) = None -> disk E (n_sql w + k + 2) = None ->
  fst (poll E cfg target w) = Ok tt
  /\ let rows := checks_after_failure (conn w) (clock E (n_now w)) target response k in
     t_checks (conn (snd (poll E cfg target w)))
     = rows
       ++ [checks.mk (next_id (List.map checks.id rows)) (clock E (n_now w)) target
             None None 0 (Some msg) None None].
Proof.
  intros Hnet Hk Hok Hfail Hd1 Hd2. rewrite poll_eq.
  destruct (attempt_storage_failure E cfg target (clock E (n_now w)) msg response
              (ticked w) k Hnet Hk Hok Hfail) as (w1 & -> & Hn & Hrows).
  rewrite record_failure_eq. cbv zeta.
  replace (n_sql w1) with (n_sql w + k + 1)%nat by (rewrite Hn; cbn [n_sql ticked]; lia).
  rewrite Hd1. replace (S (n_sql w + k + 1)) with (n_sql w + k + 2)%nat by lia.
  rewrite Hd2. split; [reflexivity|].
  cbn [snd conn printed executed]. unfold insert_check. cbn [t_checks].
  rewrite Hrows. reflexivity.
Qed.

(** C9 (amended): a storage failure leaves the per-target boundary
    exactly when it strikes while the handler writes the [ok = 0] row,
    at its insert or at its commit; whatever leaves [poll] is such a
    failure, and it ends the pass over the targets, the turn, the loop
    and [run].  A storage failure inside the attempt, at any of its
    statements (the insert of the [ok = 1] row, its commit, the inserts
    and the commit of [save_discoveries], the mirror query), is caught by
    the handler like a transport failure: when the handler's own
    statements succeed, [poll] returns, and the failure is an [ok = 0]
    row that carries the text of the storage error. *)
Theorem storage_failure_propagates_from_handler_only (E : env) (cfg : Config) :
  (forall target w e,
     fst (poll E cfg target w) = Raise e
     <-> exists e0 msg,
           fst (attempt E cfg target (clock E (n_now w)) (ticked w)) = Raise e0
           /\ e = sqlite3_Error msg
           /\ (disk E (n_sql (snd (attempt E cfg target (clock E (n_now w)) (ticked w))))
               = Some msg
               \/ (disk E (n_sql (snd (attempt E cfg target (clock E (n_now w))
                                         (ticked w)))) = None
                   /\ disk E (S (n_sql (snd (attempt E cfg target (clock E (n_now w))
                                               (ticked w))))) = Some msg)))
  /\ (forall target checked_at exc w msg,
        disk E (n_sql w) = Some msg ->
        record_failure E target checked_at exc w
        = (Raise (sqlite3_Error msg), executed (fun db => db) w))
  /\ (forall target checked_at exc w msg,
        disk E (n_sql w) = None -> disk E (S (n_sql w)) = Some msg ->
        record_failure E target checked_at exc w
        = (Raise (sqlite3_Error msg),
           executed (fun db => db)
             (executed
                (insert_check checked_at target None None 0 (Some (str_exc exc)) None None)
                w)))
  /\ (forall pre post x w w1 w2 e,
        for_each pre (poll E cfg) w = (Ok tt, w1) ->
        poll E cfg x w1 = (Raise e, w2) ->
        for_each (pre ++ x :: post) (poll E cfg) w = (Raise e, w2))
  /\ (forall targets w w0 w' e,
        load_targets E (targets_file cfg) w = (Ok targets, w0) ->
        for_each targets (poll E cfg) w0 = (Raise e, w') ->
        cycle E cfg w = (Raise e, w'))
  /\ (forall m n w w0 w' e,
        loop E m cfg w = (Ok tt, w0) -> cycle E cfg w0 = (Raise e, w') ->
        loop E (m + S n) cfg w = (Raise e, w'))
  /\ (forall m n w w0 w1 w' e,
        init_db E w = (Ok tt, w0) -> loop E m cfg w0 = (Ok tt, w1) ->
        cycle E cfg w1 = (Raise e, w') ->
        run E cfg (m + S n) w = (Raise e, w'))
  /\ (forall target msg response w k,
        network E (n_get w) target 45 (follow_redirects cfg) = Ok response ->
        (k < attempt_statements response)%nat ->
        (forall i, (i < k)%nat -> disk E (n_sql w + i) = None) ->
        disk E (n_sql w + k) = Some msg ->
        disk E (n_sql w + k + 1) = None -> disk E (n_sql w + k + 2) = None ->
        fst (poll E cfg target w) = Ok tt
        /\ let rows :=
             checks_after_failure (conn w) (clock E (n_now w)) target response k in
           t_checks (conn (snd (poll E cfg target w)))
           = rows
             ++ [checks.mk (next_id (List.map checks.id rows)) (clock E (n_now w)) target
                   None None 0 (Some msg) None None]).
Proof.
  split; [|split; [|split; [|split; [|split; [|split; [|split]]]]]].
  - intros target w e. apply poll_raises_iff.
  - intros target checked_at exc w msg H. rewrite record_failure_eq. cbv zeta.
    now rewrite H.
  - intros target checked_at exc w msg H0 H1. rewrite record_failure_eq. cbv zeta.
    now rewrite H0, H1.
  - intros pre post x w w1 w2 e. apply for_each_poll_raises.
  - intros targets w w0 w' e. apply cycle_raises.
  - intros m n w w0 w' e. apply loop_raises_later.
  - intros m n w w0 w1 w' e. apply run_raises.
  - intros target msg response w k. apply poll_storage_failure_in_attempt.
Qed.

(** The theorem in four surroundings.  In [commit_fails_env] the network
    is down and the commit of the handler fails: the storage failure
    leaves [poll].  In [broken_env] the network is down and the disk
    fails: the pass ends before [b.example].  In [full_disk_env 3] the
    commit of [save_discoveries] fails, in [full_disk_env 4] the mirror
    query: [poll] returns, and the ledger has the [ok = 1] row of the
    response and then the [ok = 0] row with the storage error. *)
Lemma storage_failure_propagates_from_handler_only_witness :
  fst (poll commit_fails_env default_config "http://down.example/" (fresh empty_store))
  = Raise (sqlite3_Error "disk I/O error")
  /\ for_each ([] ++ "http://down.example/" :: ["http://b.example/"])
       (poll broken_env default_config) (fresh empty_store)
     = (Raise (sqlite3_Error "disk I/O error"),
        executed (fun db => db)
          (requested "http://down.example/" (ticked (fresh empty_store))))
  /\ (fst (poll (full_disk_env 3) default_config "http://a.example/" (fresh empty_store))
      = Ok tt
      /\ let rows :=
           checks_after_failure empty_store (second 0) "http://a.example/"
             (requests.mkResponse onion_page 200 "http://a.example/") 3 in
         t_checks (conn (snd (poll (full_disk_env 3) default_config "http://a.example/"
                                (fresh empty_store))))
         = rows
           ++ [checks.mk (next_id (List.map checks.id rows)) (second 0)
                 "http://a.example/" None None 0
                 (Some "database or disk is full"%string) None None])
  /\ (fst (poll (full_disk_env 4) default_config "http://a.example/" (fresh empty_store))
      = Ok tt
      /\ let rows :=
           checks_after_failure empty_store (second 0) "http://a.example/"
             (requests.mkResponse onion_page 200 "http://a.example/") 4 in
         t_checks (conn (snd (poll (full_disk_env 4) default_config "http://a.example/"
                                (fresh empty_store))))
         = rows
           ++ [checks.mk (next_id (List.map checks.id rows)) (second 0)
                 "http://a.example/" None None 0
                 (Some "database or disk is full"%string) None None]).
Proof.
  split; [|split; [|split]].
  - apply (proj2 (proj1 (storage_failure_propagates_from_handler_only commit_fails_env
                           default_config)
                    "http://down.example/" (fresh empty_store)
                    (sqlite3_Error "disk I/O error"))).
    exists (RequestException "timed out"), "disk I/O error"%string.
    split; [vm_compute; reflexivity|]. split; [reflexivity|].
    right. split; vm_compute; reflexivity.
  - apply (proj1 (proj2 (proj2 (proj2
             (storage_failure_propagates_from_handler_only broken_env default_config))))
             [] ["http://b.example/"] "http://down.example/" (fresh empty_store)
             (fresh empty_store)); vm_compute; reflexivity.
  - apply (proj2 (proj2 (proj2 (proj2 (proj2 (proj2 (proj2
             (storage_failure_propagates_from_handler_only (full_disk_env 3)
                default_config))))))));
      try (vm_compute; reflexivity); try (vm_compute; lia).
    intros [|[|[|i]]] Hi; try reflexivity. lia.
  - apply (proj2 (proj2 (proj2 (proj2 (proj2 (proj2 (proj2
             (storage_failure_propagates_from_handler_only (full_disk_env 4)
                default_config))))))));
      try (vm_compute; reflexivity); try (vm_compute; lia).
    intros [|[|[|[|i]]]] Hi; try reflexivity. lia.
Defined.

(** The storage failure at each statement of an attempt that sends
    five: it is the error of the one row [poll] then writes with
    [ok = 0]. *)
Example storage_failure_at_each_statement :
  attempt_statements (requests.mkResponse onion_page 200 "http://a.example/") = 5%nat
  /\ Forall
       (fun k =>
          fst (poll (full_disk_env k) default_config "http://a.example/"
                 (fresh empty_store)) = Ok tt
          /\ List.map checks.error
               (List.filter (fun r => checks.ok r =? 0)
                  (t_checks (conn (snd (poll (full_disk_env k) default_config
                                          "http://a.example/" (fresh empty_store))))))
             = [Some "database or disk is full"%string])
       [0; 1; 2; 3; 4]%nat.
Proof.
  split; [vm_compute; reflexivity|]. repeat constructor; vm_compute; reflexivity.
Qed.

(** ** Checks without a fingerprint *)

Lemma sig_of_None_iff (html : string) : sig_of html = None <-> html = EmptyString.
Proof.
  unfold sig_of. destruct html; simpl; split; intros H; try reflexivity; discriminate H.
Qed.

Lemma filter_where_without_null (s A : string) (rows : list checks.row) :
  List.filter
    (fun r =>
       sqlite3.is_true
         (sqlite3.sql_and (sqlite3.sql_eq (checks.content_sig r) (Some s))
            (sqlite3.sql_ne (Some (checks.target_url r)) (Some A))))
    (List.filter
       (fun r => match checks.content_sig r with Some _ => true | None => false end)
       rows)
  = List.filter
      (fun r =>
         sqlite3.is_true
           (sqlite3.sql_and (sqlite3.sql_eq (checks.content_sig r) (Some s))
              (sqlite3.sql_ne (Some (checks.target_url r)) (Some A))))
      rows.
Proof.
  induction rows as [|r rows IH]; [reflexivity|].
  cbn [List.filter]. destruct (checks.content_sig r) as [c|] eqn:Hc.
  - cbn [List.filter]. rewrite Hc, IH. reflexivity.
  - rewrite IH. unfold sqlite3.sql_eq, sqlite3.sql_ne. cbn.
    now destruct (String.eqb (checks.target_url r) A).
Qed.

Lemma same_queries_refl (w : world) : same_queries w w.
Proof. reflexivity. Qed.

Lemma same_queries_trans (a b c : world) :
  same_queries a b -> same_queries b c -> same_queries a c.
Proof. unfold same_queries. congruence. Qed.

Lemma conn_execute_same_queries (E : env) (statement : database -> database) :
  preserves same_queries (conn_execute E statement).
Proof. intros w. unfold conn_execute. now destruct (disk E (n_sql w)). Qed.

Ltac queries_step :=
  first
    [ apply (preserves_bind same_queries same_queries_trans)
    | apply (preserves_for_each same_queries same_queries_refl same_queries_trans)
    | apply (preserves_ret same_queries same_queries_refl)
    | apply (preserves_lift same_queries same_queries_refl)
    | apply conn_execute_same_queries
    | (intros ?w; reflexivity) ].

Lemma conn_insert_discovery_same_queries (E : env) (now src u : string) :
  preserves same_queries (conn_insert_discovery E now src u).
Proof. intros w. unfold conn_insert_discovery. now destruct (disk E (n_sql w)). Qed.

Lemma save_discoveries_same_queries (E : env) (src : string) (urls : list string) :
  preserves same_queries (save_discoveries E src urls).
Proof.
  unfold save_discoveries. queries_step; [|intros _; queries_step].
  queries_step. intros u. queries_step; [queries_step|]. intros now.
  apply conn_insert_discovery_same_queries.
Qed.

(** After a body without a fingerprint, nothing is asked of the check
    ledger. *)
Lemma after_commit_same_queries (E : env) (target checked_at : string)
  (response : requests.Response) :
  sig_of (requests.text response) = None ->
  preserves same_queries (after_commit E target checked_at response).
Proof.
  intros Hsig. unfold after_commit. rewrite Hsig.
  queries_step; [queries_step|].
  intros discoveries. queries_step.
  { destruct (decide (discoveries = ∅)); [queries_step | apply save_discoveries_same_queries]. }
  intros _. queries_step; [queries_step|].
  intros _. queries_step.
  { destruct (String.eqb (requests.url response) target); queries_step. }
  intros _. queries_step.
Qed.

Lemma poll_without_fingerprint_same_queries (E : env) (cfg : Config) (target : string)
  (w : world) :
  (forall response,
     network E (n_get w) target 45 (follow_redirects cfg) = Ok response ->
     sig_of (requests.text response) = None) ->
  queried (snd (poll E cfg target w)) = queried w.
Proof.
  intros Hsig. rewrite poll_eq.
  assert (Ha : queried (snd (attempt E cfg target (clock E (n_now w)) (ticked w)))
               = queried w).
  { rewrite attempt_eq. cbn [n_get n_sql ticked].
    destruct (network E (n_get w) target 45 (follow_redirects cfg)) as [response|e] eqn:Hnet;
      [|reflexivity].
    cbv zeta. destruct (disk E (n_sql w)); [reflexivity|].
    destruct (disk E (S (n_sql w))); [reflexivity|].
    rewrite (after_commit_same_queries E target _ response (Hsig response eq_refl)).
    reflexivity. }
  destruct (attempt E cfg target (clock E (n_now w)) (ticked w)) as [[[]|e] w1];
    cbn [fst snd] in *; [exact Ha|].
  rewrite record_failure_eq. cbv zeta.
  destruct (disk E (n_sql w1)); [exact Ha|].
  destruct (disk E (S (n_sql w1))); exact Ha.
Qed.

(** C10: a check row without a fingerprint never contributes to the
    result of the mirror query: the query gives the same list on the
    store without such rows; hence a target whose rows all lack a
    fingerprint is in no result; and [poll] runs no mirror query when the
    fetch gave no fingerprint (an empty body, or a failure). *)
Theorem null_fingerprints_are_never_mirrors :
  (forall conn s A,
     recently_seen_signature (without_null_sig conn) s A = recently_seen_signature conn s A)
  /\ (forall conn s A t,
        (forall r, In r (t_checks conn) -> checks.target_url r = t ->
                   checks.content_sig r = None) ->
        ~ In t (recently_seen_signature conn s A))
  /\ (forall E cfg target w,
        (forall response,
           network E (n_get w) target 45 (follow_redirects cfg) = Ok response ->
           requests.text response = EmptyString) ->
        queried (snd (poll E cfg target w)) = queried w).
Proof.
  split; [|split].
  - intros conn s A. unfold recently_seen_signature, without_null_sig. cbn [t_checks].
    now rewrite filter_where_without_null.
  - intros conn s A t Hnull Hin. rewrite recently_seen_signature_unfold in Hin.
    apply in_map_iff in Hin. destruct Hin as (r & Ht & Hr).
    apply In_firstn, candidates_In in Hr. destruct Hr as (Hr & Hs & _).
    rewrite (Hnull r Hr Ht) in Hs. discriminate Hs.
  - intros E cfg target w Hempty. apply poll_without_fingerprint_same_queries.
    intros response Hnet. apply sig_of_None_iff. now apply Hempty.
Qed.

(** The theorem at [empty_bodies], whose two targets only ever served
    empty bodies: neither is a mirror of the other, for any signature;
    and in [blank_env] a poll asks nothing of the check ledger. *)
Lemma null_fingerprints_are_never_mirrors_witness :
  (forall s A, ~ In "http://b.example/" (recently_seen_signature empty_bodies s A))
  /\ queried (snd (poll blank_env default_config "http://a.example/" (fresh empty_bodies)))
     = queried (fresh empty_bodies).
Proof.
  split.
  - intros s A.
    apply (proj1 (proj2 null_fingerprints_are_never_mirrors) empty_bodies s A).
    intros r [<-|[<-|[]]] _; reflexivity.
  - apply (proj2 (proj2 null_fingerprints_are_never_mirrors) blank_env default_config).
    intros response [= <-]. reflexivity.
Defined.

(** ** The discovery ledger *)

Lemma same_pair_iff (s u : string) (r : discovered_onions.row) :
  same_pair s u r = true <-> pair_of r = (s, u).
Proof.
  unfold same_pair, pair_of. rewrite andb_true_iff, !String.eqb_eq.
  split; [intros [-> ->]; reflexivity | intros [= -> ->]; now split].
Qed.

Lemma recorded_iff (s u : string) (db : database) :
  recorded s u db <-> In (s, u) (List.map pair_of (t_discovered_onions db)).
Proof.
  unfold recorded. rewrite existsb_exists, in_map_iff.
  split; intros (r & H1 & H2); exists r.
  - apply same_pair_iff in H2. now split.
  - split; [assumption | now apply same_pair_iff].
Qed.

Lemma insert_or_ignore_recorded (id : Z) (now s u : string) (db : database) :
  recorded s u (insert_or_ignore_discovery id now s u db).
Proof.
  unfold insert_or_ignore_discovery.
  destruct (existsb (same_pair s u) (t_discovered_onions db)) eqn:Hex; [exact Hex|].
  unfold recorded. cbn [t_discovered_onions]. rewrite existsb_app. cbn [existsb].
  rewrite (proj2 (same_pair_iff s u _)) by reflexivity. apply orb_true_r.
Qed.

Lemma insert_or_ignore_keeps (id : Z) (now s u s' u' : string) (db : database) :
  recorded s' u' db -> recorded s' u' (insert_or_ignore_discovery id now s u db).
Proof.
  unfold insert_or_ignore_discovery, recorded. intros H.
  destruct (existsb (same_pair s u) (t_discovered_onions db)); [exact H|].
  cbn [t_discovered_onions]. rewrite existsb_app, H. reflexivity.
Qed.

Lemma insert_or_ignore_unique (id : Z) (now s u : string) (db : database) :
  unique_pairs db -> unique_pairs (insert_or_ignore_discovery id now s u db).
Proof.
  unfold insert_or_ignore_discovery, unique_pairs. intros H.
  destruct (existsb (same_pair s u) (t_discovered_onions db)) eqn:Hex; [exact H|].
  cbn [t_discovered_onions]. rewrite map_app. cbn.
  apply List.NoDup_app; [exact H | constructor; [intros [] | constructor] |].
  intros p Hp [<-|[]]. unfold pair_of in Hp; cbn in Hp.
  apply (proj2 (recorded_iff s u db)) in Hp. unfold recorded in Hp. congruence.
Qed.

(** [INSERT OR IGNORE] of a pair that is recorded changes nothing in
    the tables. *)
Lemma insert_or_ignore_recorded_id (id : Z) (now s u : string) (db : database) :
  recorded s u db -> insert_or_ignore_discovery id now s u db = db.
Proof. unfold insert_or_ignore_discovery, recorded. now intros ->. Qed.

(** The loop of [save_discoveries], on a disk that does not fail. *)
Lemma save_loop_returns (E : env) (s : string) (urls : list string) (w : world) :
  disk_ok E ->
  exists w',
    for_each urls
      (fun url => now <- utc_now E ;; conn_insert_discovery E now s url) w
    = (Ok tt, w')
    /\ (forall u, In u urls -> recorded s u (conn w'))
    /\ (forall s' u', recorded s' u' (conn w) -> recorded s' u' (conn w'))
    /\ (unique_pairs (conn w) -> unique_pairs (conn w'))
    /\ ((forall u, In u urls -> recorded s u (conn w)) -> conn w' = conn w).
Proof.
  intros Hdisk. revert w. induction urls as [|u urls IH]; intros w.
  - exists w. repeat split; auto. intros u [].
  - cbn [for_each]. unfold bind at 1. unfold bind at 1. unfold utc_now at 1.
    unfold conn_insert_discovery at 1. rewrite Hdisk.
    match goal with |- context [for_each urls _ ?w1] => destruct (IH w1) as (w' & Hrun & Hall & Hkeep & Huniq & Hid) end.
    cbn [conn counted executed ticked] in Hkeep, Huniq, Hid.
    exists w'. split; [exact Hrun|]. repeat split.
    + intros u0 [<-|Hin]; [|now apply Hall].
      apply Hkeep, insert_or_ignore_recorded.
    + intros s' u' H. now apply Hkeep, insert_or_ignore_keeps.
    + intros H. now apply Huniq, insert_or_ignore_unique.
    + intros H. rewrite Hid.
      * apply insert_or_ignore_recorded_id, H. now left.
      * intros u0 Hin. apply insert_or_ignore_keeps, H. now right.
Qed.

Lemma save_discoveries_eq (E : env) (s : string) (urls : list string) (w : world) :
  save_discoveries E s urls w
  = match for_each urls
            (fun url =>
               now <- utc_now E ;; conn_insert_discovery E now s url) w
    with
    | (Ok _, w') => conn_commit E w'
    | (Raise e, w') => (Raise e, w')
    end.
Proof. reflexivity. Qed.

Lemma save_discoveries_returns (E : env) (s : string) (urls : list string) (w : world) :
  disk_ok E ->
  fst (save_discoveries E s urls w) = Ok tt
  /\ (forall u, In u urls -> recorded s u (conn (snd (save_discoveries E s urls w))))
  /\ (unique_pairs (conn w) -> unique_pairs (conn (snd (save_discoveries E s urls w))))
  /\ ((forall u, In u urls -> recorded s u (conn w)) ->
      conn (snd (save_discoveries E s urls w)) = conn w).
Proof.
  intros Hdisk. rewrite save_discoveries_eq.
  destruct (save_loop_returns E s urls w Hdisk) as (w' & -> & Hall & _ & Huniq & Hid).
  unfold conn_commit, conn_execute. rewrite Hdisk. cbn [fst snd conn executed].
  repeat split; assumption.
Qed.

Lemma unique_recorded_once (s u : string) (rows : list discovered_onions.row) :
  List.NoDup (List.map pair_of rows) -> existsb (same_pair s u) rows = true ->
  length (List.filter (same_pair s u) rows) = 1%nat.
Proof.
  induction rows as [|r rows IH]; cbn [List.map existsb List.filter]; [discriminate|].
  intros Hnd Hex. inversion Hnd as [|p ps Hnotin Hnd' Heq]; subst.
  destruct (same_pair s u r) eqn:Hr.
  - cbn [length]. f_equal.
    destruct (List.filter (same_pair s u) rows) as [|r' rest] eqn:Hf; [reflexivity|].
    exfalso. apply Hnotin.
    assert (Hin : In r' (List.filter (same_pair s u) rows)) by (rewrite Hf; now left).
    apply filter_In in Hin. destruct Hin as [Hin Hr'].
    apply same_pair_iff in Hr, Hr'. rewrite Hr, <- Hr'. now apply in_map.
  - apply IH; assumption.
Qed.

(** C6: on a disk that does not fail, and for every store that satisfies
    its [UNIQUE] constraint, calling [save_discoveries] twice with the
    same source and discoveries raises no error either time, leaves
    exactly one row for each pair, and the second call changes nothing in
    the store (so the [discovered_at] of the first call stays). *)
Theorem save_discoveries_is_idempotent (E : env) (source_url url : string)
  (discoveries : list string) (w : world) :
  disk_ok E -> unique_pairs (conn w) -> In url discoveries ->
  fst (save_discoveries E source_url discoveries w) = Ok tt
  /\ fst (save_discoveries E source_url discoveries
            (snd (save_discoveries E source_url discoveries w))) = Ok tt
  /\ length
       (List.filter (same_pair source_url url)
          (t_discovered_onions
             (conn (snd (save_discoveries E source_url discoveries
                           (snd (save_discoveries E source_url discoveries w)))))))
     = 1%nat
  /\ conn (snd (save_discoveries E source_url discoveries
                  (snd (save_discoveries E source_url discoveries w))))
     = conn (snd (save_discoveries E source_url discoveries w)).
Proof.
  intros Hdisk Huniq Hin.
  destruct (save_discoveries_returns E source_url discoveries w Hdisk)
    as (Hok1 & Hall1 & Hu1 & _).
  destruct (save_discoveries_returns E source_url discoveries
              (snd (save_discoveries E source_url discoveries w)) Hdisk)
    as (Hok2 & _ & _ & Hid2).
  specialize (Hid2 Hall1). repeat split; try assumption.
  rewrite Hid2. apply unique_recorded_once; [now apply Hu1 | now apply Hall1].
Qed.

(** The theorem for one discovery in an empty store; the row kept is the
    one of the first call. *)
Lemma save_discoveries_is_idempotent_witness :
  fst (save_discoveries flaky_env "http://a.example/" [onion_url] (fresh empty_store)) = Ok tt
  /\ fst (save_discoveries flaky_env "http://a.example/" [onion_url]
            (snd (save_discoveries flaky_env "http://a.example/" [onion_url]
                    (fresh empty_store)))) = Ok tt
  /\ length
       (List.filter (same_pair "http://a.example/" onion_url)
          (t_discovered_onions
             (conn (snd (save_discoveries flaky_env "http://a.example/" [onion_url]
                           (snd (save_discoveries flaky_env "http://a.example/" [onion_url]
                                   (fresh empty_store))))))))
     = 1%nat
  /\ conn (snd (save_discoveries flaky_env "http://a.example/" [onion_url]
                  (snd (save_discoveries flaky_env "http://a.example/" [onion_url]
                          (fresh empty_store)))))
     = conn (snd (save_discoveries flaky_env "http://a.example/" [onion_url]
                    (fresh empty_store))).
Proof.
  apply (save_discoveries_is_idempotent flaky_env "http://a.example/" onion_url
           [onion_url] (fresh empty_store)).
  - intros n. reflexivity.
  - constructor.
  - now left.
Defined.

Example save_discoveries_twice :
  t_discovered_onions
    (conn (snd (save_discoveries flaky_env "http://a.example/" [onion_url]
                  (snd (save_discoveries flaky_env "http://a.example/" [onion_url]
                          (fresh empty_store))))))
  = [discovered_onions.mk 1 (second 0) "http://a.example/" onion_url].
Proof. vm_compute. reflexivity. Qed.

(** An ignored insert draws an id all the same: after the pair is saved
    three times, the next new pair gets the id 4. *)
Example ignored_inserts_use_up_ids :
  List.map discovered_onions.id
    (t_discovered_onions
       (conn (snd (save_discoveries flaky_env "http://b.example/" [onion_url]
                     (snd (save_discoveries flaky_env "http://a.example/" [onion_url]
                             (snd (save_discoveries flaky_env "http://a.example/"
                                     [onion_url]
                                     (snd (save_discoveries flaky_env "http://a.example/"
                                             [onion_url] (fresh empty_store)))))))))))
  = [1; 4].
Proof. vm_compute. reflexivity. Qed.

(** ** The fingerprint recorded for a body *)

(** C3, as the claim states it, fails: a [div] without content and a
    page that is only a script have no visible text, and the fingerprint
    recorded for them is the digest of the empty string. *)
Lemma markup_only_body_gets_the_empty_digest :
  bs4.all_strings true (bs4.BeautifulSoup "<div></div>") = []
  /\ bs4.all_strings true (bs4.BeautifulSoup "<script>var x = 1;</script>") = []
  /\ hashlib.hexdigest (Str.encode_utf8 EmptyString) = empty_digest
  /\ sig_of "<div></div>" = Some empty_digest
  /\ sig_of "<script>var x = 1;</script>" = Some empty_digest
  /\ List.map checks.content_sig
       (t_checks (conn (snd (poll markup_env default_config "http://a.example/"
                               (fresh empty_store)))))
     = [Some empty_digest].
Proof. by_computation. Qed.

(** With a response and a working insert, the attempt adds the [ok = 1]
    row of the response to the check ledger, and nothing else. *)
Lemma attempt_records (E : env) (cfg : Config) (target checked_at : string)
  (response : requests.Response) (w : world) :
  network E (n_get w) target 45 (follow_redirects cfg) = Ok response ->
  disk E (n_sql w) = None ->
  t_checks (conn (snd (attempt E cfg target checked_at w)))
  = t_checks (conn w) ++ [success_row (conn w) checked_at target response].
Proof.
  intros Hnet Hd. rewrite attempt_eq, Hnet. cbv zeta. rewrite Hd.
  destruct (disk E (S (n_sql w))); [reflexivity|].
  match goal with
  | |- context [after_commit E target checked_at response ?w2] =>
      destruct (after_commit_same_ledger E target checked_at response w2) as (H1 & _)
  end.
  rewrite H1. reflexivity.
Qed.

Lemma record_failure_ledger (E : env) (target checked_at : string) (exc : exception)
  (w : world) :
  exists rest,
    t_checks (conn (snd (record_failure E target checked_at exc w)))
    = t_checks (conn w) ++ rest.
Proof.
  rewrite record_failure_eq. cbv zeta.
  destruct (disk E (n_sql w)); [exists []; now rewrite app_nil_r|].
  destruct (disk E (S (n_sql w))); eexists; reflexivity.
Qed.

Lemma normalize_text_no_strings (html : string) :
  bs4.all_strings true (bs4.BeautifulSoup html) = [] -> normalize_text html = EmptyString.
Proof. intros H. unfold normalize_text, bs4.get_text. now rewrite H. Qed.

(** C3 (amended): the fingerprint recorded with a successful fetch is
    null exactly for the empty body.  For a body that is not empty it is
    the digest of the normalized text, and so, when the body has no
    visible text, the digest of the empty string. *)
Theorem recorded_fingerprint_is_null_for_empty_body_only (E : env) (cfg : Config)
  (target : string) (response : requests.Response) (w : world) :
  network E (n_get w) target 45 (follow_redirects cfg) = Ok response ->
  disk E (n_sql w) = None ->
  (exists rest,
     t_checks (conn (snd (poll E cfg target w)))
     = t_checks (conn w)
       ++ success_row (conn w) (clock E (n_now w)) target response :: rest)
  /\ (requests.text response = EmptyString ->
      checks.content_sig (success_row (conn w) (clock E (n_now w)) target response) = None)
  /\ (requests.text response <> EmptyString ->
      checks.content_sig (success_row (conn w) (clock E (n_now w)) target response)
      = Some (content_signature (requests.text response)))
  /\ (requests.text response <> EmptyString ->
      bs4.all_strings true (bs4.BeautifulSoup (requests.text response)) = [] ->
      checks.content_sig (success_row (conn w) (clock E (n_now w)) target response)
      = Some empty_digest).
Proof.
  intros Hnet Hd.
  assert (Hsig : requests.text response <> EmptyString ->
                 sig_of (requests.text response)
                 = Some (content_signature (requests.text response))).
  { unfold sig_of. destruct (requests.text response); [congruence | reflexivity]. }
  split; [|split; [|split]].
  - rewrite poll_eq.
    pose proof (attempt_records E cfg target (clock E (n_now w)) response (ticked w)
                  Hnet Hd) as Hrow.
    destruct (attempt E cfg target (clock E (n_now w)) (ticked w)) as [[[]|e] w1];
      cbn [fst snd] in *.
    + exists []. exact Hrow.
    + destruct (record_failure_ledger E target (clock E (n_now w)) e w1) as (rest & Hr).
      exists rest. rewrite Hr, Hrow, <- app_assoc. reflexivity.
  - intros Hempty. cbn [checks.content_sig success_row]. now apply sig_of_None_iff.
  - intros Hne. cbn [checks.content_sig success_row]. now apply Hsig.
  - intros Hne Hnone. cbn [checks.content_sig success_row]. rewrite (Hsig Hne).
    unfold content_signature. rewrite (normalize_text_no_strings _ Hnone).
    vm_compute. reflexivity.
Qed.

(** The theorem in [markup_env], whose pages are an empty [div]. *)
Lemma recorded_fingerprint_is_null_for_empty_body_only_witness :
  checks.content_sig
    (success_row (conn (fresh empty_store)) (clock markup_env (n_now (fresh empty_store)))
       "http://a.example/" (requests.mkResponse "<div></div>" 200 "http://a.example/"))
  = Some empty_digest.
Proof.
  apply (proj2 (proj2 (proj2
           (recorded_fingerprint_is_null_for_empty_body_only markup_env default_config
              "http://a.example/"
              (requests.mkResponse "<div></div>" 200 "http://a.example/")
              (fresh empty_store) eq_refl eq_refl)))).
  - discriminate.
  - vm_compute. reflexivity.
Defined.

(** ** Strings: [strip], [split] and the collapsing of whitespace *)

Lemma append_cons (x : ascii) (a b : string) : String x a +:+ b = String x (a +:+ b).
Proof. reflexivity. Qed.

Lemma append_nil (b : string) : EmptyString +:+ b = b.
Proof. reflexivity. Qed.

Lemma lower_append (a b : string) : Str.lower (a +:+ b) = Str.lower a +:+ Str.lower b.
Proof.
  induction a as [|x a IH]; [reflexivity|].
  rewrite append_cons. cbn [Str.lower]. now rewrite IH, append_cons.
Qed.

Lemma is_empty_true (s : string) : Str.is_empty s = true -> s = EmptyString.
Proof. destruct s; [reflexivity | discriminate]. Qed.

(** A string that starts with a character that is no whitespace has a
    first word. *)
Lemma words_head (c : ascii) (r : string) :
  Str.isspace c = false -> exists w ws, Str.words (String c r) = String c w :: ws.
Proof.
  intros Hc. cbn [Str.words]. rewrite Hc.
  destruct (Str.is_empty r || Str.starts_space r); [eauto|].
  destruct (Str.words r) as [|w ws]; eauto.
Qed.

Lemma words_cons (c : ascii) (r : string) :
  Str.words (String c r)
  = if Str.isspace c then Str.words r
    else if Str.is_empty r || Str.starts_space r then String c EmptyString :: Str.words r
    else match Str.words r with
         | w :: ws => String c w :: ws
         | [] => [String c EmptyString]
         end.
Proof. reflexivity. Qed.

Lemma words_cons_space (c : ascii) (r : string) :
  Str.isspace c = true -> Str.words (String c r) = Str.words r.
Proof. intros Hc. cbn [Str.words]. now rewrite Hc. Qed.

(** [words] of a text cut in two at a whitespace character. *)
Lemma words_append_space (a b : string) (c : ascii) :
  Str.isspace c = true ->
  Str.words (a +:+ String c b) = Str.words a ++ Str.words b.
Proof.
  intros Hc. induction a as [|x a IH].
  - rewrite append_nil. now rewrite words_cons_space.
  - rewrite append_cons. destruct (Str.isspace x) eqn:Hx.
    + now rewrite !words_cons_space.
    + cbn [Str.words]. rewrite Hx. destruct a as [|y a].
      * rewrite append_nil. cbn [Str.is_empty Str.starts_space orb]. rewrite Hc.
        now rewrite words_cons_space.
      * rewrite append_cons in *. cbn [Str.is_empty Str.starts_space orb].
        destruct (Str.isspace y) eqn:Hy.
        -- now rewrite IH.
        -- rewrite IH. destruct (words_head y a Hy) as (w & ws & ->). reflexivity.
Qed.

Lemma join_cons_cons (sep p q : string) (ps : list string) :
  Str.join sep (p :: q :: ps) = p +:+ sep +:+ Str.join sep (q :: ps).
Proof. reflexivity. Qed.

Lemma join_head (c : ascii) (w : string) (ws : list string) :
  Str.join " " (String c w :: ws) = String c (Str.join " " (w :: ws)).
Proof. destruct ws; reflexivity. Qed.

(** The words of strings joined by single spaces. *)
Lemma words_join (parts : list string) :
  Str.words (Str.join " " parts) = flat_map Str.words parts.
Proof.
  induction parts as [|p [|q ps] IH]; [reflexivity | |].
  - cbn. now rewrite app_nil_r.
  - rewrite join_cons_cons.
    change (flat_map Str.words (p :: q :: ps))
      with (Str.words p ++ flat_map Str.words (q :: ps)).
    rewrite <- IH.
    change (" " +:+ Str.join " " (q :: ps)) with (String " " (Str.join " " (q :: ps))).
    now apply words_append_space.
Qed.

(** [rstrip] *)

Lemma rstrip_cons (c : ascii) (r : string) :
  Str.rstrip (String c r)
  = if Str.is_empty (Str.rstrip r) && Str.isspace c then EmptyString
    else String c (Str.rstrip r).
Proof. reflexivity. Qed.

Lemma rstrip_fixed_tail (c : ascii) (r : string) :
  Str.rstrip (String c r) = String c r -> Str.rstrip r = r.
Proof.
  cbn [Str.rstrip]. destruct (Str.is_empty (Str.rstrip r) && Str.isspace c);
    [discriminate | now intros [= ->]].
Qed.

Lemma rstrip_fixed_last (c : ascii) :
  Str.rstrip (String c EmptyString) = String c EmptyString -> Str.isspace c = false.
Proof. cbn. destruct (Str.isspace c); [discriminate | reflexivity]. Qed.

Lemma words_rstrip (s : string) : Str.words (Str.rstrip s) = Str.words s.
Proof.
  induction s as [|c r IH]; [reflexivity|].
  cbn [Str.rstrip]. destruct (Str.rstrip r) as [|y r'] eqn:Hr.
  - (* [r] is all whitespace *)
    cbn [Str.is_empty andb]. cbn [Str.words] in IH.
    destruct (Str.isspace c) eqn:Hc.
    + cbn [Str.words]. now rewrite Hc.
    + cbn [Str.words]. rewrite Hc. cbn [Str.is_empty orb]. rewrite <- IH.
      destruct r as [|z r2]; [reflexivity|].
      cbn [Str.is_empty Str.starts_space orb].
      destruct (Str.isspace z) eqn:Hz; [reflexivity|].
      destruct (words_head z r2 Hz) as (w & ws & Hw). rewrite Hw in IH. discriminate IH.
  - cbn [Str.is_empty andb].
    assert (Hstart : Str.is_empty r || Str.starts_space r
                     = Str.is_empty (String y r') || Str.starts_space (String y r')).
    { destruct r as [|z r2]; [discriminate Hr|]. cbn [Str.rstrip] in Hr.
      destruct (Str.is_empty (Str.rstrip r2) && Str.isspace z); [discriminate Hr|].
      injection Hr as -> _. reflexivity. }
    rewrite !(words_cons c), Hstart, IH. reflexivity.
Qed.

Lemma words_lstrip (s : string) : Str.words (Str.lstrip s) = Str.words s.
Proof.
  induction s as [|c r IH]; [reflexivity|].
  cbn [Str.lstrip]. destruct (Str.isspace c) eqn:Hc; [|reflexivity].
  now rewrite words_cons_space.
Qed.

Lemma words_strip (s : string) : Str.words (Str.strip s) = Str.words s.
Proof. unfold Str.strip. now rewrite words_rstrip, words_lstrip. Qed.

Lemma rstrip_idempotent (s : string) : Str.rstrip (Str.rstrip s) = Str.rstrip s.
Proof.
  induction s as [|c r IH]; [reflexivity|].
  rewrite rstrip_cons.
  destruct (Str.is_empty (Str.rstrip r) && Str.isspace c) eqn:H; [reflexivity|].
  now rewrite rstrip_cons, IH, H.
Qed.

Lemma rstrip_starts_space (s : string) :
  Str.starts_space s = false -> Str.starts_space (Str.rstrip s) = false.
Proof.
  destruct s as [|c r]; [reflexivity|]. cbn [Str.starts_space Str.rstrip]. intros Hc.
  destruct (Str.is_empty (Str.rstrip r) && Str.isspace c); [reflexivity | exact Hc].
Qed.

Lemma lstrip_starts_space (s : string) : Str.starts_space (Str.lstrip s) = false.
Proof.
  induction s as [|c r IH]; [reflexivity|].
  cbn [Str.lstrip]. destruct (Str.isspace c) eqn:Hc; [exact IH | exact Hc].
Qed.

(** A text is trimmed when whitespace neither starts nor ends it. *)
Lemma strip_trimmed (s : string) :
  Str.starts_space (Str.strip s) = false /\ Str.rstrip (Str.strip s) = Str.strip s.
Proof.
  unfold Str.strip. split.
  - apply rstrip_starts_space, lstrip_starts_space.
  - apply rstrip_idempotent.
Qed.

Lemma rstrip_append (a b : string) :
  Str.rstrip b <> EmptyString -> Str.rstrip (a +:+ b) = a +:+ Str.rstrip b.
Proof.
  intros Hb. induction a as [|x a IH]; [reflexivity|].
  rewrite !append_cons, rstrip_cons, IH.
  destruct (a +:+ Str.rstrip b) as [|y t] eqn:Ht; [|reflexivity].
  destruct a; [rewrite append_nil in Ht; contradiction | discriminate Ht].
Qed.

(** Trimmed texts that are not empty, joined by single spaces, make a
    trimmed text. *)
Lemma join_trimmed (parts : list string) :
  Forall (fun p => p <> EmptyString /\ Str.starts_space p = false /\ Str.rstrip p = p)
    parts ->
  Str.starts_space (Str.join " " parts) = false
  /\ Str.rstrip (Str.join " " parts) = Str.join " " parts
  /\ (parts <> [] -> Str.join " " parts <> EmptyString).
Proof.
  induction 1 as [|p ps (Hne & Hs & Hr) Hall IH]; [repeat split; congruence|].
  destruct ps as [|q ps].
  - cbn. repeat split; auto.
  - rewrite join_cons_cons. destruct IH as (IHs & IHr & IHne).
    specialize (IHne ltac:(discriminate)).
    assert (Hb : Str.rstrip (" " +:+ Str.join " " (q :: ps))
                 = " " +:+ Str.join " " (q :: ps)).
    { change (" " +:+ Str.join " " (q :: ps)) with (String " " (Str.join " " (q :: ps))).
      rewrite rstrip_cons, IHr.
      destruct (Str.join " " (q :: ps)); [contradiction | reflexivity]. }
    repeat split.
    + destruct p; [contradiction | exact Hs].
    + rewrite rstrip_append; rewrite Hb; [reflexivity | discriminate].
    + intros _. destruct p; [contradiction | discriminate].
Qed.

(** A text that does not end in whitespace, and is not empty, has a
    word. *)
Lemma words_nonempty (s : string) :
  Str.rstrip s = s -> s <> EmptyString -> Str.words s <> [].
Proof.
  induction s as [|c r IH]; [congruence|]. intros Hfix _.
  destruct (Str.isspace c) eqn:Hc.
  - rewrite words_cons_space by exact Hc. apply IH.
    + now apply rstrip_fixed_tail in Hfix.
    + intros ->. apply rstrip_fixed_last in Hfix. congruence.
  - destruct (words_head c r Hc) as (w & ws & ->). discriminate.
Qed.

(** [re.sub(r"\s+", " ", s)] on a text that does not end in whitespace:
    its words joined by single spaces, after a space if the text starts
    with whitespace. *)
Lemma sub_spaces_words (s : string) :
  Str.rstrip s = s ->
  re.sub_spaces " " s
  = (if Str.starts_space s then " " else EmptyString) +:+ Str.join " " (Str.words s).
Proof.
  induction s as [|c r IH]; [reflexivity|]. intros Hfix.
  pose proof (rstrip_fixed_tail c r Hfix) as Hr. specialize (IH Hr).
  cbn [re.sub_spaces Str.starts_space]. destruct (Str.isspace c) eqn:Hc.
  - rewrite words_cons_space by exact Hc. rewrite IH.
    destruct (Str.starts_space r); reflexivity.
  - rewrite IH. cbn [Str.words]. rewrite Hc. destruct r as [|y r2].
    + reflexivity.
    + cbn [Str.is_empty Str.starts_space orb]. destruct (Str.isspace y) eqn:Hy.
      * pose proof (words_nonempty (String y r2) Hr ltac:(discriminate)) as Hw.
        destruct (Str.words (String y r2)) as [|w ws]; [contradiction|]. reflexivity.
      * destruct (words_head y r2 Hy) as (w & ws & ->). rewrite append_nil.
        now rewrite !join_head.
Qed.

Lemma lower_join (ws : list string) :
  Str.lower (Str.join " " ws) = Str.join " " (List.map Str.lower ws).
Proof.
  induction ws as [|p [|q ps] IH]; [reflexivity | reflexivity |].
  rewrite join_cons_cons.
  change (List.map Str.lower (p :: q :: ps))
    with (Str.lower p :: Str.lower q :: List.map Str.lower ps).
  rewrite join_cons_cons.
  change (Str.lower q :: List.map Str.lower ps) with (List.map Str.lower (q :: ps)).
  rewrite <- IH. now rewrite !lower_append.
Qed.

(** ** The normalized text *)

(** The strings [get_text] joins when it strips: the text strings,
    stripped, without the empty ones. *)
Lemma all_strings_strip (e : bs4.PageElement) :
  bs4.all_strings true e
  = List.filter (fun s => negb (Str.is_empty s))
      (List.map Str.strip (bs4.all_strings false e)).
Proof.
  unfold bs4.all_strings. induction (bs4.descendants e) as [|d ds IH]; [reflexivity|].
  cbn [flat_map]. rewrite List.map_app, List.filter_app, <- IH. f_equal.
  destruct d as [name attrs contents | cls s]; [reflexivity|].
  destruct (existsb (bs4.string_class_eqb cls) (bs4.interesting_string_types e));
    [|reflexivity].
  cbn [List.map List.filter]. now destruct (Str.is_empty (Str.strip s)).
Qed.

Lemma words_of_stripped (strings : list string) :
  flat_map Str.words
    (List.filter (fun s => negb (Str.is_empty s)) (List.map Str.strip strings))
  = flat_map Str.words strings.
Proof.
  induction strings as [|s ss IH]; [reflexivity|].
  cbn [List.map List.filter flat_map]. rewrite <- IH, <- (words_strip s).
  destruct (Str.strip s) eqn:Hs; reflexivity.
Qed.

Lemma stripped_are_trimmed (strings : list string) :
  Forall (fun p => p <> EmptyString /\ Str.starts_space p = false /\ Str.rstrip p = p)
    (List.filter (fun s => negb (Str.is_empty s)) (List.map Str.strip strings)).
Proof.
  apply List.Forall_forall. intros p Hp. apply filter_In in Hp. destruct Hp as [Hin Hne].
  apply in_map_iff in Hin. destruct Hin as (s & <- & _).
  split; [|apply strip_trimmed].
  intros H. rewrite H in Hne. discriminate Hne.
Qed.

(** The normalized text of a document is its word sequence, joined by
    single spaces. *)
Lemma normalize_text_words (html : string) :
  normalize_text html = Str.join " " (word_sequence html).
Proof.
  unfold normalize_text, word_sequence, text_strings, bs4.get_text.
  rewrite all_strings_strip.
  set (strings := bs4.all_strings false (bs4.BeautifulSoup html)).
  destruct (join_trimmed _ (stripped_are_trimmed strings)) as (Hs & Hr & _).
  rewrite (sub_spaces_words _ Hr), Hs, append_nil, words_join, words_of_stripped.
  apply lower_join.
Qed.

(** C2, as the claim states it, fails: a comment placed inside a word
    leaves the visible text as it was, and changes the fingerprint,
    because the two halves of the word are now joined by a space. *)
Lemma comment_inside_a_word_changes_the_fingerprint :
  visible_text "foo<!--c-->bar" = visible_text "foobar"
  /\ normalize_text "foo<!--c-->bar" = "foo bar"%string
  /\ normalize_text "foobar" = "foobar"%string
  /\ content_signature "foo<!--c-->bar"
     = "fbc1a9f858ea9e177916964bd88c3d37b91a1e84412765e29950777f265c4b75"%string
  /\ content_signature "foobar"
     = "c3ab8ff13720e8ad9047dd39466b3c8974e592c2fa383d4a3960714caef0c4f2"%string
  /\ content_signature "foo<!--c-->bar" <> content_signature "foobar".
Proof.
  assert (H1 : content_signature "foo<!--c-->bar"
               = "fbc1a9f858ea9e177916964bd88c3d37b91a1e84412765e29950777f265c4b75"%string)
    by (vm_compute; reflexivity).
  assert (H2 : content_signature "foobar"
               = "c3ab8ff13720e8ad9047dd39466b3c8974e592c2fa383d4a3960714caef0c4f2"%string)
    by (vm_compute; reflexivity).
  split; [vm_compute; reflexivity|].
  split; [vm_compute; reflexivity|].
  split; [vm_compute; reflexivity|].
  split; [exact H1|]. split; [exact H2|].
  rewrite H1, H2. discriminate.
Qed.

(** C2 (amended): the fingerprint of a document is a function of its
    word sequence, the lower-cased whitespace-free runs of its text
    strings (comments, scripts and styles left out): two documents with
    the same word sequence have the same fingerprint.  So it is
    unchanged by reformatting whitespace, by changes of case, and by
    comments, scripts and styles that are added or removed without
    cutting a word in two. *)
Theorem fingerprint_depends_on_word_sequence (html1 html2 : string) :
  word_sequence html1 = word_sequence html2 ->
  content_signature html1 = content_signature html2.
Proof.
  intros H. unfold content_signature. now rewrite !normalize_text_words, H.
Qed.

(** The theorem for a page and a copy of it with other whitespace, other
    case, a comment, a script and a style. *)
Lemma fingerprint_depends_on_word_sequence_witness :
  content_signature "<p>Hello   World</p>"
  = content_signature
      "<style>p { color: red }</style> <P>hello <!-- c -->WORLD<script>var x = 1;</script></P>".
Proof.
  apply fingerprint_depends_on_word_sequence. vm_compute. reflexivity.
Defined.

Example normalize_text_small_page : normalize_text small_page = "mirror hello world"%string.
Proof. vm_compute. reflexivity. Qed.

(** ** Matches of a pattern *)

Lemma string_append_assoc (a b c : string) : (a +:+ b) +:+ c = a +:+ (b +:+ c).
Proof.
  induction a as [|x a IH]; [reflexivity|]. rewrite !append_cons. now rewrite IH.
Qed.

Lemma string_append_empty_r (a : string) : a +:+ EmptyString = a.
Proof.
  induction a as [|x a IH]; [reflexivity|]. rewrite append_cons. now rewrite IH.
Qed.

Lemma length_append (a b : string) :
  String.length (a +:+ b) = (String.length a + String.length b)%nat.
Proof.
  induction a as [|x a IH]; [reflexivity|]. rewrite append_cons. cbn. now rewrite IH.
Qed.

Lemma take_append (a b : string) : Str.take (String.length a) (a +:+ b) = a.
Proof.
  induction a as [|x a IH]; [now destruct b|]. rewrite append_cons. cbn. now rewrite IH.
Qed.

(** A match at the head of [s] takes a prefix [m] off [s], and [m] is
    matched whatever follows it. *)
Lemma match_here_prefix (ic : bool) (r : re.regex) (s rest : string) :
  re.match_here ic r s = Some rest ->
  exists m, s = m +:+ rest /\ forall t, re.match_here ic r (m +:+ t) = Some t.
Proof.
  revert s rest. induction r as [| a | p | n r IH | r1 IH1 r2 IH2]; intros s rest; cbn [re.match_here].
  - intros [= ->]. exists EmptyString. split; reflexivity.
  - destruct s as [|c s']; [discriminate|].
    destruct (Ascii.eqb (re.fold_case ic c) (re.fold_case ic a)) eqn:Hc; [|discriminate].
    intros [= ->]. exists (String c EmptyString). split; [reflexivity|].
    intros t. rewrite append_cons, append_nil. cbn [re.match_here]. now rewrite Hc.
  - destruct s as [|c s']; [discriminate|].
    destruct (p (re.fold_case ic c)) eqn:Hc; [|discriminate].
    intros [= ->]. exists (String c EmptyString). split; [reflexivity|].
    intros t. rewrite append_cons, append_nil. cbn [re.match_here]. now rewrite Hc.
  - revert s. induction n as [|n IHn]; intros s.
    + intros [= ->]. exists EmptyString. split; reflexivity.
    + destruct (re.match_here ic r s) as [s1|] eqn:H1; [|discriminate].
      intros Hrep. apply IH in H1. destruct H1 as (m1 & -> & Hm1).
      apply IHn in Hrep. destruct Hrep as (m2 & -> & Hm2).
      exists (m1 +:+ m2). split; [now rewrite string_append_assoc|].
      intros t. rewrite string_append_assoc, Hm1. apply Hm2.
  - destruct (re.match_here ic r1 s) as [s1|] eqn:H1; [|discriminate].
    intros H2. apply IH1 in H1. destruct H1 as (m1 & -> & Hm1).
    apply IH2 in H2. destruct H2 as (m2 & -> & Hm2).
    exists (m1 +:+ m2). split; [now rewrite string_append_assoc|].
    intros t. rewrite string_append_assoc, Hm1. apply Hm2.
Qed.

(** The text of a match is matched in full by the pattern. *)
Lemma matched_text_fullmatch (P : re.Pattern) (s rest : string) :
  re.match_here (re.IGNORECASE P) (re.pattern P) s = Some rest ->
  re.fullmatch P (Str.take (String.length s - String.length rest) s) = true.
Proof.
  intros H. apply match_here_prefix in H. destruct H as (m & -> & Hm).
  rewrite length_append, Nat.add_sub, take_append.
  unfold re.fullmatch. specialize (Hm EmptyString).
  rewrite string_append_empty_r in Hm. now rewrite Hm.
Qed.

Lemma findall_from_fullmatch (P : re.Pattern) (skip : nat) (s m : string) :
  In m (re.findall_from P skip s) -> re.fullmatch P m = true.
Proof.
  revert skip. induction s as [|c s IH]; intros skip.
  - cbn [re.findall_from]. destruct skip; [|intros []].
    destruct (re.match_here (re.IGNORECASE P) (re.pattern P) EmptyString) as [rest|] eqn:H;
      [|intros []].
    intros [<-|[]]. apply matched_text_fullmatch in H. exact H.
  - cbn [re.findall_from]. destruct skip as [|k]; [|apply IH].
    destruct (re.match_here (re.IGNORECASE P) (re.pattern P) (String c s)) as [rest|] eqn:H;
      [|apply IH].
    intros [<-|Hin]; [|now apply IH in Hin].
    now apply matched_text_fullmatch.
Qed.

(** Every match [findall] returns is matched in full by the pattern. *)
Lemma findall_fullmatch (P : re.Pattern) (s m : string) :
  In m (re.findall P s) -> re.fullmatch P m = true.
Proof. apply findall_from_fullmatch. Qed.

(** ** Discovery *)

Lemma fold_add_anchor_raise (base_url : string) (anchors : list bs4.PageElement)
  (e : exception) :
  fold_left (add_anchor base_url) anchors (Raise e) = Raise e.
Proof. induction anchors as [|a anchors IH]; [reflexivity | exact IH]. Qed.

(** The hosts gathered from the anchors are matched in full by
    [ONION_RE], like those the scan of the markup found. *)
Lemma fold_add_anchor_fullmatch (base_url : string) (anchors : list bs4.PageElement)
  (found found' : gset string) :
  fold_left (add_anchor base_url) anchors (Ok found) = Ok found' ->
  (forall h, h ∈ found -> re.fullmatch ONION_RE h = true) ->
  forall h, h ∈ found' -> re.fullmatch ONION_RE h = true.
Proof.
  revert found. induction anchors as [|a anchors IH]; intros found.
  - intros [= ->]. auto.
  - cbn [fold_left]. intros Hfold Hall.
    destruct (add_anchor base_url (Ok found) a) as [found1|e] eqn:Ha.
    + apply (IH found1 Hfold). intros h Hh. revert Ha. unfold add_anchor.
      destruct (urllib.urljoin base_url _) as [full|?]; [|discriminate].
      destruct (urllib.urlparse full EmptyString) as [parsed|?]; [|discriminate].
      destruct (re.fullmatch ONION_RE _) eqn:Hm; intros [= <-]; [|now apply Hall].
      apply elem_of_union in Hh. destruct Hh as [Hh|Hh]; [|now apply Hall].
      apply elem_of_singleton in Hh. now subst h.
    + now rewrite fold_add_anchor_raise in Hfold.
Qed.

Lemma match_here_width (ic : bool) (r : re.regex) (s rest : string) :
  re.match_here ic r s = Some rest ->
  String.length s = (width r + String.length rest)%nat.
Proof.
  revert s rest. induction r as [| a | p | n r IH | r1 IH1 r2 IH2]; intros s rest;
    cbn [re.match_here width].
  - now intros [= ->].
  - destruct s as [|c s']; [discriminate|].
    destruct (Ascii.eqb _ _); [|discriminate]. now intros [= ->].
  - destruct s as [|c s']; [discriminate|].
    destruct (p _); [|discriminate]. now intros [= ->].
  - revert s. induction n as [|n IHn]; intros s.
    + now intros [= ->].
    + destruct (re.match_here ic r s) as [s1|] eqn:H1; [|discriminate].
      intros Hrep. apply IH in H1. apply IHn in Hrep. cbn [Nat.mul]. lia.
  - destruct (re.match_here ic r1 s) as [s1|] eqn:H1; [|discriminate].
    intros H2. apply IH1 in H1. apply IH2 in H2. lia.
Qed.

(** A host that [ONION_RE] matches in full has 62 characters: the 56 of
    the label and the 6 of the suffix. *)
Lemma fullmatch_onion_length (host : string) :
  re.fullmatch ONION_RE host = true -> String.length host = 62%nat.
Proof.
  unfold re.fullmatch.
  destruct (re.match_here (re.IGNORECASE ONION_RE) (re.pattern ONION_RE) host)
    as [[|c rest]|] eqn:H; try discriminate.
  intros _. apply match_here_width in H. exact H.
Qed.

Lemma lower_char_idempotent (c : ascii) : Str.lower_char (Str.lower_char c) = Str.lower_char c.
Proof. destruct c as [[] [] [] [] [] [] [] []]; reflexivity. Qed.

Lemma lower_idempotent (s : string) : Str.lower (Str.lower s) = Str.lower s.
Proof.
  induction s as [|c s IH]; [reflexivity|]. cbn [Str.lower].
  now rewrite lower_char_idempotent, IH.
Qed.

(** An outcome of [discover_onion_candidates] settled by evaluation. *)
Ltac by_decision := apply (bool_decide_unpack _); vm_compute; exact I.

(** The label of the design document's example, as printed, has 51
    characters, not 56: neither pass matches it, and nothing is
    discovered. *)
Example example_label_is_too_short_to_be_discovered :
  String.length upper_label51 = 51%nat
  /\ anchor ("http://" +:+ upper_label51 +:+ ".onion/x")
     = "<a href=" +:+ String html_parser.dquote
         ("http://ABCDEFGHIJKLMNOPQRSTUVWXYZABCDEFGHIJKLMNOPQRSTUVWXY.onion/x"
          +:+ String html_parser.dquote ">")
  /\ discover_onion_candidates "http://example.com/"
       (anchor ("http://" +:+ upper_label51 +:+ ".onion/x")) = Ok ∅
  /\ discover_onion_candidates "http://example.com/"
       (anchor ("http://" +:+ upper_label51 +:+ ".onion/x"))
     <> Ok {[ "http://abcdefghijklmnopqrstuvwxyzabcdefghijklmnopqrstuvwxy.onion/"%string ]}.
Proof.
  split; [vm_compute; reflexivity|]. split; [vm_compute; reflexivity|].
  split; by_decision.
Qed.

(** What holds of the candidates: for an anchor whose link target has a
    label of 56 lower-case base32 characters, [discover_onion_candidates]
    returns exactly the one candidate [http://<label>.onion/].  Every
    candidate it ever returns has the form [http://<host>/], where
    [ONION_RE] matches [<host>] in full (56 base32 characters and
    [.onion], 62 characters in all), so the path is dropped; and a host
    that the anchors add is in lower case. *)
Lemma discover_returns_canonical_onion_urls :
  discover_onion_candidates "http://example.com/"
    (anchor ("http://" +:+ label56 +:+ ".onion/x")) = Ok {[ onion_url ]}
  /\ (forall base_url html candidates u,
        discover_onion_candidates base_url html = Ok candidates -> u ∈ candidates ->
        exists host,
          u = "http://" +:+ host +:+ "/" /\ re.fullmatch ONION_RE host = true
          /\ String.length host = 62%nat)
  /\ (forall base_url found a found' host,
        add_anchor base_url (Ok found) a = Ok found' -> host ∈ found' ->
        host ∈ found \/ Str.lower host = host).
Proof.
  split; [by_decision|]. split.
  - intros base_url html candidates u. unfold discover_onion_candidates.
    destruct (fold_left _ _ _) as [found|e] eqn:Hfold; [|discriminate].
    intros [= <-] Hu. apply elem_of_map in Hu. destruct Hu as (host & -> & Hhost).
    assert (Hm : re.fullmatch ONION_RE host = true).
    { apply (fold_add_anchor_fullmatch _ _ _ _ Hfold); [|exact Hhost].
      intros h Hh. apply elem_of_list_to_set, list_elem_of_In in Hh.
      now apply findall_fullmatch in Hh. }
    exists host. split; [reflexivity|]. split; [exact Hm|].
    now apply fullmatch_onion_length.
  - intros base_url found a found' host. unfold add_anchor.
    destruct (urllib.urljoin base_url _) as [full|?]; [|discriminate].
    destruct (urllib.urlparse full EmptyString) as [parsed|?]; [|discriminate].
    destruct (re.fullmatch ONION_RE _); intros [= <-] Hh; [|now left].
    apply elem_of_union in Hh. destruct Hh as [Hh|Hh]; [|now left].
    apply elem_of_singleton in Hh. right. subst host. apply lower_idempotent.
Qed.

(** C4: the claim fails for the upper-case label of its example, taken
    with the 56 characters the design document gives it (the example's
    letters, continued).  The label is found twice: by the scan of the
    markup, which keeps the case of what it finds, and by the pass over
    the anchors, which lowers the host.  The result has two candidates,
    one of them not in lower case, where the claim has the lower-case one
    alone.  For the same label in lower case the claim holds: the two
    passes find the same host. *)
Theorem upper_case_label_is_discovered_in_both_cases :
  String.length upper_label56 = 56%nat
  /\ re.fullmatch ONION_RE (upper_label56 +:+ ".onion") = true
  /\ anchor ("http://" +:+ upper_label56 +:+ ".onion/x")
     = "<a href=" +:+ String html_parser.dquote
         ("http://ABCDEFGHIJKLMNOPQRSTUVWXYZABCDEFGHIJKLMNOPQRSTUVWXYZABCD.onion/x"
          +:+ String html_parser.dquote ">")
  /\ discover_onion_candidates "http://example.com/"
       (anchor ("http://" +:+ upper_label56 +:+ ".onion/x"))
     = Ok ({[ "http://" +:+ upper_label56 +:+ ".onion/" ]}
           ∪ {[ "http://" +:+ Str.lower upper_label56 +:+ ".onion/" ]})
  /\ "http://" +:+ upper_label56 +:+ ".onion/"
     <> "http://" +:+ Str.lower upper_label56 +:+ ".onion/"
  /\ discover_onion_candidates "http://example.com/"
       (anchor ("http://" +:+ upper_label56 +:+ ".onion/x"))
     <> Ok {[ "http://" +:+ Str.lower upper_label56 +:+ ".onion/" ]}
  /\ discover_onion_candidates "http://example.com/"
       (anchor ("http://" +:+ Str.lower upper_label56 +:+ ".onion/x"))
     = Ok {[ "http://" +:+ Str.lower upper_label56 +:+ ".onion/" ]}.
Proof.
  split; [vm_compute; reflexivity|]. split; [vm_compute; reflexivity|].
  split; [vm_compute; reflexivity|]. split; [by_decision|].
  split; [by_decision|]. split; by_decision.
Qed.

(** C5: the claim holds for a label of 55 characters and fails for one
    of 57: the scan of the markup has no left boundary, so it matches the
    last 56 characters of the longer label, although [fullmatch], which
    the anchors go through, rejects the whole label. *)
Theorem label_of_57_characters_is_discovered :
  String.length label57 = 57%nat
  /\ re.fullmatch ONION_RE (label57 +:+ ".onion") = false
  /\ discover_onion_candidates EmptyString (label57 +:+ ".onion")
     = Ok {[ "http://" +:+ label56 +:+ ".onion/" ]}
  /\ discover_onion_candidates "http://example.com/"
       (anchor ("http://" +:+ label57 +:+ ".onion/"))
     = Ok {[ "http://" +:+ label56 +:+ ".onion/" ]}
  /\ String.length label55 = 55%nat
  /\ discover_onion_candidates EmptyString (label55 +:+ ".onion") = Ok ∅
  /\ discover_onion_candidates "http://example.com/"
       (anchor ("http://" +:+ label55 +:+ ".onion/")) = Ok ∅.
Proof.
  split; [vm_compute; reflexivity|]. split; [vm_compute; reflexivity|].
  split; [by_decision|]. split; [by_decision|].
  split; [vm_compute; reflexivity|]. split; by_decision.
Qed.

(** The scan of the markup keeps the case of what it finds, while the
    anchors lower theirs: an upper-case address in an anchor is
    discovered twice. *)
Example upper_case_address_is_discovered_twice :
  discover_onion_candidates "http://example.com/"
    (anchor ("HTTP://" +:+ upper_label51 +:+ "ABCDE.ONION/x"))
  = Ok ({[ "http://" +:+ upper_label51 +:+ "ABCDE.ONION/" ]}
        ∪ {[ "http://" +:+ Str.lower upper_label51 +:+ "abcde.onion/" ]}).
Proof. by_decision. Qed.

(** * Further properties *)

(** ** The shape of a fingerprint *)

Lemma blocks_length (n : nat) (h ws : list Z) :
  length h = 8%nat -> length (hashlib.blocks n h ws) = 8%nat.
Proof.
  revert h ws. induction n as [|n IH]; intros h ws Hh; [exact Hh|].
  cbn [hashlib.blocks]. apply IH. reflexivity.
Qed.

Lemma sha256_length (msg : list Z) : length (hashlib.sha256 msg) = 8%nat.
Proof. unfold hashlib.sha256. apply blocks_length. reflexivity. Qed.

Lemma all_chars_append (p : ascii -> bool) (a b : string) :
  urllib.all_chars p (a +:+ b) = urllib.all_chars p a && urllib.all_chars p b.
Proof.
  induction a as [|c a IH]; [reflexivity|].
  rewrite append_cons. cbn [urllib.all_chars]. now rewrite IH, andb_assoc.
Qed.

Lemma hex_digit_hex (n : Z) : 0 <= n < 16 -> hex_char (hashlib.hex_digit n) = true.
Proof.
  intros H.
  assert (Hn : In n [0; 1; 2; 3; 4; 5; 6; 7; 8; 9; 10; 11; 12; 13; 14; 15]).
  { simpl. lia. }
  repeat (destruct Hn as [<-|Hn]; [reflexivity|]). destruct Hn.
Qed.

Lemma hex_of_shape (n : nat) (x : Z) :
  String.length (hashlib.hex_of n x) = n /\ hex_string (hashlib.hex_of n x) = true.
Proof.
  induction n as [|n [IHl IHh]]; [split; reflexivity|].
  cbn [hashlib.hex_of String.length]. split; [now rewrite IHl|].
  unfold hex_string in *. cbn [urllib.all_chars]. rewrite IHh, andb_true_r.
  apply hex_digit_hex. apply Z.mod_pos_bound. lia.
Qed.

Lemma hexdigest_shape (msg : list Z) :
  String.length (hashlib.hexdigest msg) = 64%nat
  /\ hex_string (hashlib.hexdigest msg) = true.
Proof.
  unfold hashlib.hexdigest. pose proof (sha256_length msg) as Hlen.
  assert (H : forall ws : list Z,
             String.length (fold_right (fun w acc => hashlib.hex_of 8 w +:+ acc) EmptyString ws)
             = (8 * length ws)%nat
             /\ hex_string (fold_right (fun w acc => hashlib.hex_of 8 w +:+ acc) EmptyString ws)
                = true).
  { induction ws as [|w ws [IHl IHh]]; [split; reflexivity|].
    cbn [fold_right length]. destruct (hex_of_shape 8 w) as [Hl Hh]. split.
    - rewrite length_append, Hl, IHl. lia.
    - unfold hex_string in *. now rewrite all_chars_append, Hh, IHh. }
  destruct (H (hashlib.sha256 msg)) as [Hl Hh]. rewrite Hlen in Hl. now split.
Qed.

(** X1: whatever the document, its fingerprint is a text of 64
    lower-case hexadecimal digits; in particular it is never empty, so a
    fingerprint that was computed always passes the test [if sig]. *)
Theorem content_signature_is_64_hex_digits (html : string) :
  String.length (content_signature html) = 64%nat
  /\ hex_string (content_signature html) = true
  /\ Str.is_empty (content_signature html) = false.
Proof.
  unfold content_signature.
  destruct (hexdigest_shape (Str.encode_utf8 (normalize_text html))) as [Hl Hh].
  repeat split; [exact Hl | exact Hh |].
  destruct (hashlib.hexdigest _); [discriminate Hl | reflexivity].
Qed.

(** ** The normalized text is a normal form *)

Lemma isspace_lower_char (c : ascii) : Str.isspace (Str.lower_char c) = Str.isspace c.
Proof. destruct c as [[] [] [] [] [] [] [] []]; reflexivity. Qed.

Lemma whitespace_free_lower (s : string) :
  whitespace_free (Str.lower s) = whitespace_free s.
Proof.
  unfold whitespace_free. induction s as [|c s IH]; [reflexivity|].
  cbn [Str.lower urllib.all_chars]. now rewrite isspace_lower_char, IH.
Qed.

Lemma lower_not_empty (s : string) : s <> EmptyString -> Str.lower s <> EmptyString.
Proof. destruct s; [congruence | discriminate]. Qed.

(** A word: a text that is not empty and has no whitespace. *)
Lemma words_are_words (s : string) :
  Forall (fun w => w <> EmptyString /\ whitespace_free w = true) (Str.words s).
Proof.
  induction s as [|c r IH]; [constructor|].
  rewrite words_cons. destruct (Str.isspace c) eqn:Hc; [exact IH|].
  assert (Hone : String c EmptyString <> EmptyString
                 /\ whitespace_free (String c EmptyString) = true).
  { split; [discriminate|]. unfold whitespace_free. cbn. now rewrite Hc. }
  destruct (Str.is_empty r || Str.starts_space r).
  - constructor; assumption.
  - destruct (Str.words r) as [|w ws]; [constructor; [exact Hone | constructor]|].
    inversion IH as [|? ? [_ Hw] Hws]; subst. constructor; [|exact Hws].
    split; [discriminate|]. unfold whitespace_free in *. cbn [urllib.all_chars].
    now rewrite Hc, Hw.
Qed.

Lemma words_of_word (w : string) :
  w <> EmptyString -> whitespace_free w = true -> Str.words w = [w].
Proof.
  unfold whitespace_free. induction w as [|c r IH]; [congruence|]. intros _ Hfree.
  cbn [urllib.all_chars] in Hfree. apply andb_true_iff in Hfree. destruct Hfree as [Hc Hr].
  apply negb_true_iff in Hc. rewrite words_cons, Hc.
  destruct r as [|d r']; [reflexivity|].
  cbn [Str.is_empty Str.starts_space orb].
  pose proof Hr as Hd. cbn [urllib.all_chars] in Hd. apply andb_true_iff in Hd.
  destruct Hd as [Hd _]. apply negb_true_iff in Hd. rewrite Hd.
  rewrite IH; [reflexivity | discriminate | exact Hr].
Qed.

Lemma word_rstrip (w : string) : whitespace_free w = true -> Str.rstrip w = w.
Proof.
  unfold whitespace_free. induction w as [|c r IH]; [reflexivity|]. intros Hfree.
  cbn [urllib.all_chars] in Hfree. apply andb_true_iff in Hfree. destruct Hfree as [Hc Hr].
  apply negb_true_iff in Hc. rewrite rstrip_cons, (IH Hr), Hc, andb_false_r. reflexivity.
Qed.

Lemma word_starts_space (w : string) :
  whitespace_free w = true -> Str.starts_space w = false.
Proof.
  destruct w as [|c r]; [reflexivity|]. unfold whitespace_free. cbn. intros H.
  apply andb_true_iff in H. destruct H as [H _]. now apply negb_true_iff in H.
Qed.

Lemma word_sequence_words (html : string) :
  Forall (fun w => w <> EmptyString /\ whitespace_free w = true) (word_sequence html).
Proof.
  unfold word_sequence. apply List.Forall_forall. intros w Hw.
  apply in_map_iff in Hw. destruct Hw as (v & <- & Hv).
  apply in_flat_map in Hv. destruct Hv as (s & _ & Hv).
  pose proof (words_are_words s) as Hall. rewrite List.Forall_forall in Hall.
  destruct (Hall v Hv) as [Hne Hfree]. split.
  - now apply lower_not_empty.
  - now rewrite whitespace_free_lower.
Qed.

Lemma flat_map_words_of_words (ws : list string) :
  Forall (fun w => w <> EmptyString /\ whitespace_free w = true) ws ->
  flat_map Str.words ws = ws.
Proof.
  induction 1 as [|w ws [Hne Hfree] _ IH]; [reflexivity|].
  cbn [flat_map]. now rewrite (words_of_word w Hne Hfree), IH.
Qed.

Lemma words_normalize_text (html : string) :
  Str.words (normalize_text html) = word_sequence html.
Proof.
  rewrite normalize_text_words, words_join.
  apply flat_map_words_of_words, word_sequence_words.
Qed.

(** X2: the normalized text is in normal form: it is in lower case, it
    neither starts nor ends with whitespace, and its only whitespace is
    the single space between two words; so lowering it, stripping it or
    collapsing its whitespace again changes nothing. *)
Theorem normalize_text_is_normal_form (html : string) :
  Str.lower (normalize_text html) = normalize_text html
  /\ Str.strip (normalize_text html) = normalize_text html
  /\ re.sub_spaces " " (normalize_text html) = normalize_text html
  /\ normalize_text html = Str.join " " (Str.words (normalize_text html)).
Proof.
  assert (Htrim : Str.starts_space (normalize_text html) = false
                  /\ Str.rstrip (normalize_text html) = normalize_text html).
  { rewrite normalize_text_words.
    destruct (join_trimmed (word_sequence html)) as (Hs & Hr & _); [|now split].
    eapply List.Forall_impl; [|apply word_sequence_words].
    intros w [Hne Hfree]. repeat split;
      [exact Hne | now apply word_starts_space | now apply word_rstrip]. }
  destruct Htrim as [Hs Hr].
  assert (Hjoin : normalize_text html = Str.join " " (Str.words (normalize_text html))).
  { rewrite words_normalize_text. apply normalize_text_words. }
  split; [|split; [|split]].
  - unfold normalize_text. apply lower_idempotent.
  - unfold Str.strip.
    destruct (normalize_text html) as [|c r] eqn:Hn; [reflexivity|].
    cbn [Str.starts_space] in Hs. cbn [Str.lstrip]. rewrite Hs. exact Hr.
  - rewrite (sub_spaces_words _ Hr), Hs, append_nil. symmetry. exact Hjoin.
  - exact Hjoin.
Qed.

(** X3: two documents have the same normalized text exactly when they
    have the same word sequence: the normalized text loses nothing of the
    lower-cased words and their order. *)
Theorem normalize_text_determines_word_sequence (html1 html2 : string) :
  normalize_text html1 = normalize_text html2 <-> word_sequence html1 = word_sequence html2.
Proof.
  split; intros H.
  - rewrite <- !words_normalize_text. now rewrite H.
  - rewrite !normalize_text_words. now rewrite H.
Qed.

(** ** One poll, on a disk that does not fail *)

Lemma same_output_refl (w : world) : same_output w w.
Proof. now repeat split. Qed.

Lemma same_output_trans (a b c : world) :
  same_output a b -> same_output b c -> same_output a c.
Proof. intros (H1 & H2 & H3) (G1 & G2 & G3). repeat split; congruence. Qed.

Lemma conn_execute_same_output (E : env) (statement : database -> database) :
  preserves same_output (conn_execute E statement).
Proof. intros w. unfold conn_execute. now destruct (disk E (n_sql w)). Qed.

Lemma conn_insert_discovery_same_output (E : env) (at_ src url : string) :
  preserves same_output (conn_insert_discovery E at_ src url).
Proof. intros w. unfold conn_insert_discovery. now destruct (disk E (n_sql w)). Qed.

Ltac output_step :=
  first
    [ apply conn_insert_discovery_same_output
    | apply (preserves_bind same_output same_output_trans)
    | apply (preserves_for_each same_output same_output_refl same_output_trans)
    | apply (preserves_ret same_output same_output_refl)
    | apply (preserves_lift same_output same_output_refl)
    | apply conn_execute_same_output
    | (intros ?w; now repeat split) ].

Lemma save_discoveries_same_output (E : env) (src : string) (urls : list string) :
  preserves same_output (save_discoveries E src urls).
Proof.
  unfold save_discoveries. output_step; [|intros _; output_step].
  output_step. intros u. output_step; [output_step|]. intros now. output_step.
Qed.

Lemma sig_of_not_empty (html sig : string) :
  sig_of html = Some sig -> Str.is_empty sig = false.
Proof.
  unfold sig_of, content_signature. destruct (Str.is_empty html); [discriminate|].
  intros [= <-].
  destruct (hexdigest_shape (Str.encode_utf8 (normalize_text html))) as [Hl _].
  destruct (hashlib.hexdigest _); [discriminate Hl | reflexivity].
Qed.

(** The discoveries of a page are saved: afterwards each is in the
    ledger with the target as its source, and the ledger has lost
    nothing. *)
Lemma save_step (E : env) (target : string) (discoveries : gset string) (w : world) :
  disk_ok E ->
  exists w1,
    (if decide (discoveries = ∅) then ret tt
     else save_discoveries E target (elements discoveries)) w = (Ok tt, w1)
    /\ same_ledger w w1 /\ same_queries w w1 /\ same_output w w1
    /\ (forall u, u ∈ discoveries -> recorded target u (conn w1))
    /\ (forall s u, recorded s u (conn w) -> recorded s u (conn w1))
    /\ (unique_pairs (conn w) -> unique_pairs (conn w1)).
Proof.
  intros Hdisk. destruct (decide (discoveries = ∅)) as [->|Hne].
  - exists w. split; [reflexivity|].
    split; [apply same_ledger_refl|]. split; [apply same_queries_refl|].
    split; [apply same_output_refl|]. split; [|split; auto].
    intros u Hu. now apply elem_of_empty in Hu.
  - pose proof (save_discoveries_same_ledger E target (elements discoveries) w) as Hl.
    pose proof (save_discoveries_same_queries E target (elements discoveries) w) as Hq.
    pose proof (save_discoveries_same_output E target (elements discoveries) w) as Ho.
    revert Hl Hq Ho. rewrite save_discoveries_eq.
    destruct (save_loop_returns E target (elements discoveries) w Hdisk)
      as (w' & -> & Hall & Hkeep & Huniq & _).
    unfold conn_commit, conn_execute. rewrite Hdisk. cbn [snd]. intros Hl Hq Ho.
    eexists. split; [reflexivity|]. split; [exact Hl|]. split; [exact Hq|].
    split; [exact Ho|]. cbn [conn executed]. split; [|split; assumption].
    intros u Hu. apply Hall. now apply list_elem_of_In, elem_of_elements.
Qed.

(** The mirror query of [attempt], and what it prints. *)
Lemma mirror_step (E : env) (target checked_at : string) (response : requests.Response)
  (w : world) :
  disk_ok E ->
  exists w2,
    match sig_of (requests.text response) with
    | Some sig =>
        if Str.is_empty sig then ret tt
        else
          mirrors <- conn_select_mirrors E sig target ;;
          match mirrors with
          | [] => ret tt
          | _ => print (mirror_line checked_at target mirrors)
          end
    | None => ret tt
    end w = (Ok tt, w2)
    /\ conn w2 = conn w /\ fetched w2 = fetched w /\ n_get w2 = n_get w
    /\ slept w2 = slept w /\ n_open w2 = n_open w /\ n_now w2 = n_now w
    /\ queried w2 = queried w ++ query_for target response
    /\ stdout w2
       = stdout w
         ++ mirror_report checked_at target (mirrors_for (conn w) target response).
Proof.
  intros Hdisk. unfold query_for, mirrors_for.
  destruct (sig_of (requests.text response)) as [sig|] eqn:Hsig.
  2:{ exists w. rewrite !app_nil_r. now repeat split. }
  rewrite (sig_of_not_empty _ _ Hsig).
  unfold bind, conn_select_mirrors. rewrite Hdisk.
  destruct (recently_seen_signature (conn w) sig target) as [|m ms].
  - eexists. split; [reflexivity|]. cbn. rewrite app_nil_r. now repeat split.
  - eexists. split; [reflexivity|]. cbn. now repeat split.
Qed.

(** [attempt] after the commit, when the discovery returns: it returns,
    leaves the check ledger as it is, records the discoveries, runs at
    most one mirror query, and prints the mirrors found, the redirect
    and the [ok] line. *)
Lemma after_commit_returns (E : env) (target checked_at : string)
  (response : requests.Response) (discoveries : gset string) (w : world) :
  disk_ok E ->
  discover_onion_candidates (requests.url response) (requests.text response)
  = Ok discoveries ->
  exists w',
    after_commit E target checked_at response w = (Ok tt, w')
    /\ t_checks (conn w') = t_checks (conn w)
    /\ fetched w' = fetched w /\ n_get w' = n_get w
    /\ slept w' = slept w /\ n_open w' = n_open w
    /\ queried w' = queried w ++ query_for target response
    /\ stdout w'
       = stdout w
         ++ mirror_report checked_at target (mirrors_for (conn w) target response)
         ++ redirect_report checked_at target (requests.url response)
         ++ [ok_line checked_at target (requests.status_code response)]
    /\ (forall u, u ∈ discoveries -> recorded target u (conn w'))
    /\ (forall s u, recorded s u (conn w) -> recorded s u (conn w'))
    /\ (unique_pairs (conn w) -> unique_pairs (conn w')).
Proof.
  intros Hdisk Hd. unfold after_commit.
  rewrite (bind_ok _ _ w w discoveries) by (unfold lift; now rewrite Hd).
  destruct (save_step E target discoveries w Hdisk)
    as (w1 & Hs & (Hl1 & Hl2 & Hl3) & Hq & (Ho1 & Ho2 & Ho3) & Hrec & Hkeep & Huniq).
  rewrite (bind_ok _ _ w w1 tt Hs).
  destruct (mirror_step E target checked_at response w1 Hdisk)
    as (w2 & Hm & Hc & Hf & Hg & Hsl & Hop & _ & Hqu & Hout).
  rewrite (bind_ok _ _ w1 w2 tt Hm).
  assert (Hmir : mirrors_for (conn w1) target response = mirrors_for (conn w) target response).
  { unfold mirrors_for, recently_seen_signature. now rewrite Hl1. }
  unfold redirect_report.
  destruct (String.eqb (requests.url response) target).
  - eexists. split; [reflexivity|]. cbn [conn fetched n_get slept n_open queried stdout printed].
    rewrite Hc, Hf, Hg, Hsl, Hop, Hqu, Hout, Hmir, Hl1, Hl2, Hl3, Hq, Ho1, Ho2, Ho3.
    rewrite <- !app_assoc. repeat split; assumption.
  - eexists. split; [reflexivity|]. cbn [conn fetched n_get slept n_open queried stdout printed].
    rewrite Hc, Hf, Hg, Hsl, Hop, Hqu, Hout, Hmir, Hl1, Hl2, Hl3, Hq, Ho1, Ho2, Ho3.
    rewrite <- !app_assoc. repeat split; assumption.
Qed.

Lemma insert_success_row (checked_at target : string)
  (response : requests.Response) :
  insert_check checked_at target (Some (requests.url response))
    (Some (requests.status_code response)) 1 None (sig_of (requests.text response))
    (option_map (bs4.get_text EmptyString true)
       (bs4.title (bs4.BeautifulSoup (requests.text response))))
  = fun db => with_check db (success_row db checked_at target response).
Proof. reflexivity. Qed.

Lemma insert_failure_row (checked_at target : string) (exc : exception) :
  insert_check checked_at target None None 0 (Some (str_exc exc)) None None
  = fun db => with_check db (failure_row db checked_at target exc).
Proof. reflexivity. Qed.

(** A poll whose fetch and discovery both return. *)
Lemma poll_success (E : env) (cfg : Config) (target : string)
  (response : requests.Response) (discoveries : gset string) (w : world) :
  disk_ok E ->
  network E (n_get w) target 45 (follow_redirects cfg) = Ok response ->
  discover_onion_candidates (requests.url response) (requests.text response)
  = Ok discoveries ->
  let checked_at := clock E (n_now w) in
  let row := success_row (conn w) checked_at target response in
  exists w',
    poll E cfg target w = (Ok tt, w')
    /\ t_checks (conn w') = t_checks (conn w) ++ [row]
    /\ fetched w' = fetched w ++ [target] /\ n_get w' = S (n_get w)
    /\ slept w' = slept w /\ n_open w' = n_open w
    /\ queried w' = queried w ++ query_for target response
    /\ stdout w'
       = stdout w
         ++ mirror_report checked_at target
              (mirrors_for (with_check (conn w) row) target response)
         ++ redirect_report checked_at target (requests.url response)
         ++ [ok_line checked_at target (requests.status_code response)]
    /\ (forall u, u ∈ discoveries -> recorded target u (conn w'))
    /\ (forall s u, recorded s u (conn w) -> recorded s u (conn w'))
    /\ (unique_pairs (conn w) -> unique_pairs (conn w')).
Proof.
  intros Hdisk Hnet Hd checked_at row. rewrite poll_eq, attempt_eq.
  cbn [n_get n_sql ticked]. rewrite Hnet. cbv zeta. rewrite !Hdisk.
  rewrite insert_success_row. fold checked_at. fold row.
  match goal with
  | |- context [after_commit E target checked_at response ?w2] =>
      destruct (after_commit_returns E target checked_at response discoveries w2 Hdisk Hd)
        as (w' & -> & Hc & Hf & Hg & Hsl & Hop & Hq & Hout & Hrec & Hkeep & Huniq)
  end.
  cbn [conn fetched n_get slept n_open queried stdout executed requested ticked] in *.
  exists w'. split; [reflexivity|]. repeat split; assumption.
Qed.

(** A poll whose fetch returns and whose discovery raises: the [ok = 1]
    row is in the ledger by then, and the handler adds an [ok = 0] row
    for the same fetch. *)
Lemma poll_discovery_failure (E : env) (cfg : Config) (target : string)
  (response : requests.Response) (exc : exception) (w : world) :
  disk_ok E ->
  network E (n_get w) target 45 (follow_redirects cfg) = Ok response ->
  discover_onion_candidates (requests.url response) (requests.text response)
  = Raise exc ->
  let checked_at := clock E (n_now w) in
  let row := success_row (conn w) checked_at target response in
  exists w',
    poll E cfg target w = (Ok tt, w')
    /\ conn w'
       = with_check (with_check (conn w) row)
           (failure_row (with_check (conn w) row) checked_at target exc)
    /\ fetched w' = fetched w ++ [target] /\ n_get w' = S (n_get w)
    /\ slept w' = slept w /\ n_open w' = n_open w
    /\ queried w' = queried w
    /\ stdout w' = stdout w ++ [fail_line checked_at target (str_exc exc)].
Proof.
  intros Hdisk Hnet Hd checked_at row. rewrite poll_eq, attempt_eq.
  cbn [n_get n_sql ticked]. rewrite Hnet. cbv zeta. rewrite !Hdisk.
  rewrite insert_success_row. fold checked_at. fold row.
  unfold after_commit.
  rewrite (bind_raise _ _ _ _ exc) by (unfold lift; now rewrite Hd).
  rewrite record_failure_eq. cbv zeta. rewrite !Hdisk. rewrite insert_failure_row.
  eexists. split; [reflexivity|]. now repeat split.
Qed.

(** A poll whose fetch raises. *)
Lemma poll_fetch_failure (E : env) (cfg : Config) (target : string) (exc : exception)
  (w : world) :
  disk_ok E ->
  network E (n_get w) target 45 (follow_redirects cfg) = Raise exc ->
  let checked_at := clock E (n_now w) in
  exists w',
    poll E cfg target w = (Ok tt, w')
    /\ conn w' = with_check (conn w) (failure_row (conn w) checked_at target exc)
    /\ fetched w' = fetched w ++ [target] /\ n_get w' = S (n_get w)
    /\ slept w' = slept w /\ n_open w' = n_open w
    /\ queried w' = queried w
    /\ stdout w' = stdout w ++ [fail_line checked_at target (str_exc exc)].
Proof.
  intros Hdisk Hnet checked_at.
  rewrite (poll_transport_failure E cfg target exc w Hnet (Hdisk _) (Hdisk _)).
  eexists. split; [reflexivity|]. now repeat split.
Qed.

(** [AUTOINCREMENT]: the id of a new row is above every id of the
    table, and the ids of two rows inserted one after the other follow
    each other. *)
Lemma fold_max_from (a : Z) (ids : list Z) :
  fold_right Z.max a ids = Z.max (fold_right Z.max 0 ids) a \/ a < 0.
Proof.
  destruct (Z.lt_ge_cases a 0) as [Hneg|Hpos]; [now right | left].
  induction ids as [|i ids IH]; cbn [fold_right]; lia.
Qed.

Lemma next_id_above (ids : list Z) (i : Z) : In i ids -> i < next_id ids.
Proof.
  unfold next_id. induction ids as [|j ids IH]; [intros []|].
  cbn [fold_right]. intros [->|Hin]; [lia|]. specialize (IH Hin). lia.
Qed.

Lemma next_id_positive (ids : list Z) : 0 < next_id ids.
Proof. unfold next_id. induction ids as [|j ids IH]; cbn [fold_right]; lia. Qed.

Lemma next_id_next (ids : list Z) : next_id (ids ++ [next_id ids]) = next_id ids + 1.
Proof.
  pose proof (next_id_positive ids) as Hpos. unfold next_id in *.
  rewrite fold_right_app. cbn [fold_right].
  destruct (fold_max_from (Z.max (1 + fold_right Z.max 0 ids) 0) ids) as [->|H]; lia.
Qed.

(** X4: on a disk that does not fail, a poll always returns, and it adds
    one or two rows to the check ledger, each for its target and with the
    time read at its start; it adds two exactly when the fetch returned
    and the discovery then raised. *)
Theorem poll_writes_one_or_two_check_rows (E : env) (cfg : Config) (target : string)
  (w : world) :
  disk_ok E ->
  exists rows,
    fst (poll E cfg target w) = Ok tt
    /\ t_checks (conn (snd (poll E cfg target w))) = t_checks (conn w) ++ rows
    /\ (1 <= length rows <= 2)%nat
    /\ Forall (fun r => checks.target_url r = target
                        /\ checks.checked_at r = clock E (n_now w)) rows
    /\ (length rows = 2%nat
        <-> exists response exc,
              network E (n_get w) target 45 (follow_redirects cfg) = Ok response
              /\ discover_onion_candidates (requests.url response) (requests.text response)
                 = Raise exc).
Proof.
  intros Hdisk.
  destruct (network E (n_get w) target 45 (follow_redirects cfg)) as [response|exc] eqn:Hnet.
  - destruct (discover_onion_candidates (requests.url response) (requests.text response))
      as [discoveries|exc] eqn:Hd.
    + destruct (poll_success E cfg target response discoveries w Hdisk Hnet Hd)
        as (w' & -> & Hrows & _).
      eexists. split; [reflexivity|]. split; [exact Hrows|]. cbn [length].
      split; [lia|]. split; [repeat constructor|].
      split; [discriminate|]. intros (r & e & [= <-] & He). congruence.
    + destruct (poll_discovery_failure E cfg target response exc w Hdisk Hnet Hd)
        as (w' & -> & Hconn & _).
      cbn [fst snd]. rewrite Hconn. cbn [with_check t_checks]. eexists. split; [reflexivity|].
      split; [rewrite <- app_assoc; reflexivity|]. cbn [length app].
      split; [lia|]. split; [repeat constructor|].
      split; [|reflexivity]. intros _. now exists response, exc.
  - destruct (poll_fetch_failure E cfg target exc w Hdisk Hnet) as (w' & -> & Hconn & _).
    cbn [fst snd]. rewrite Hconn. cbn [with_check t_checks]. eexists. split; [reflexivity|].
    split; [reflexivity|]. cbn [length]. split; [lia|]. split; [repeat constructor|].
    split; [discriminate|]. intros (r & e & [=] & _).
Qed.

(** The theorem in [flaky_env], for a target that answers. *)
Lemma poll_writes_one_or_two_check_rows_witness :
  exists rows,
    fst (poll flaky_env default_config "http://a.example/" (fresh empty_store)) = Ok tt
    /\ t_checks (conn (snd (poll flaky_env default_config "http://a.example/"
                               (fresh empty_store))))
       = t_checks (conn (fresh empty_store)) ++ rows
    /\ (1 <= length rows <= 2)%nat
    /\ Forall (fun r => checks.target_url r = "http://a.example/"%string
                        /\ checks.checked_at r = clock flaky_env (n_now (fresh empty_store)))
         rows
    /\ (length rows = 2%nat
        <-> exists response exc,
              network flaky_env (n_get (fresh empty_store)) "http://a.example/" 45
                (follow_redirects default_config) = Ok response
              /\ discover_onion_candidates (requests.url response) (requests.text response)
                 = Raise exc).
Proof.
  apply (poll_writes_one_or_two_check_rows flaky_env default_config "http://a.example/"
           (fresh empty_store)).
  intros n. reflexivity.
Defined.

(** X5: when the fetch returns and the discovery raises, for instance a
    [ValueError] of [urljoin] for a link it cannot parse, the fetch is in
    the check ledger twice: the [ok = 1] row, committed before the
    discovery, and after it the [ok = 0] row of the handler with the text
    of the exception; the line printed is the [fail] line. *)
Theorem discovery_failure_is_recorded_after_the_success (E : env) (cfg : Config)
  (target : string) (response : requests.Response) (exc : exception) (w : world) :
  disk_ok E ->
  network E (n_get w) target 45 (follow_redirects cfg) = Ok response ->
  discover_onion_candidates (requests.url response) (requests.text response) = Raise exc ->
  fst (poll E cfg target w) = Ok tt
  /\ (exists first second,
        t_checks (conn (snd (poll E cfg target w))) = t_checks (conn w) ++ [first; second]
        /\ first = success_row (conn w) (clock E (n_now w)) target response
        /\ checks.ok first = 1
        /\ checks.ok second = 0
        /\ checks.error second = Some (str_exc exc)
        /\ checks.id second = checks.id first + 1)
  /\ stdout (snd (poll E cfg target w))
     = stdout w ++ [fail_line (clock E (n_now w)) target (str_exc exc)].
Proof.
  intros Hdisk Hnet Hd.
  destruct (poll_discovery_failure E cfg target response exc w Hdisk Hnet Hd)
    as (w' & -> & Hconn & _ & _ & _ & _ & _ & Hout).
  cbn [fst snd]. split; [reflexivity|]. split; [|exact Hout].
  rewrite Hconn. cbn [with_check t_checks]. eexists _, _.
  split; [rewrite <- app_assoc; reflexivity|].
  split; [reflexivity|]. split; [reflexivity|]. split; [reflexivity|].
  split; [reflexivity|].
  cbn [failure_row success_row checks.id with_check t_checks].
  rewrite map_app. cbn [List.map checks.id]. apply next_id_next.
Qed.

(** The theorem in [bracket_env], whose pages hold the link
    [http://[]: [urljoin] raises [ValueError], "Invalid IPv6 URL". *)
Lemma discovery_failure_is_recorded_after_the_success_witness :
  fst (poll bracket_env default_config "http://a.example/" (fresh empty_store)) = Ok tt
  /\ (exists first second,
        t_checks (conn (snd (poll bracket_env default_config "http://a.example/"
                               (fresh empty_store))))
        = t_checks (conn (fresh empty_store)) ++ [first; second]
        /\ first = success_row (conn (fresh empty_store))
                     (clock bracket_env (n_now (fresh empty_store))) "http://a.example/"
                     (requests.mkResponse bracket_page 200 "http://a.example/")
        /\ checks.ok first = 1
        /\ checks.ok second = 0
        /\ checks.error second = Some (str_exc (ValueError "Invalid IPv6 URL"))
        /\ checks.id second = checks.id first + 1)
  /\ stdout (snd (poll bracket_env default_config "http://a.example/" (fresh empty_store)))
     = stdout (fresh empty_store)
       ++ [fail_line (clock bracket_env (n_now (fresh empty_store))) "http://a.example/"
             (str_exc (ValueError "Invalid IPv6 URL"))].
Proof.
  apply (discovery_failure_is_recorded_after_the_success bracket_env default_config
           "http://a.example/" (requests.mkResponse bracket_page 200 "http://a.example/")
           (ValueError "Invalid IPv6 URL") (fresh empty_store)).
  - intros n. reflexivity.
  - reflexivity.
  - vm_compute. reflexivity.
Defined.

(** X6: a poll whose fetch and discovery return, on a disk that does not
    fail, adds the one [ok = 1] row with the status code of the response,
    whatever that code is, and prints: the mirror line when the query
    found mirrors, the redirect line when the final URL is not the
    target, and last the [ok] line. *)
Theorem poll_of_a_response_prints_mirrors_redirect_and_ok (E : env) (cfg : Config)
  (target : string) (response : requests.Response) (discoveries : gset string)
  (w : world) :
  disk_ok E ->
  network E (n_get w) target 45 (follow_redirects cfg) = Ok response ->
  discover_onion_candidates (requests.url response) (requests.text response)
  = Ok discoveries ->
  exists row,
    t_checks (conn (snd (poll E cfg target w))) = t_checks (conn w) ++ [row]
    /\ checks.ok row = 1
    /\ checks.status_code row = Some (requests.status_code response)
    /\ checks.final_url row = Some (requests.url response)
    /\ stdout (snd (poll E cfg target w))
       = stdout w
         ++ mirror_report (clock E (n_now w)) target
              (mirrors_for (with_check (conn w) row) target response)
         ++ redirect_report (clock E (n_now w)) target (requests.url response)
         ++ [ok_line (clock E (n_now w)) target (requests.status_code response)].
Proof.
  intros Hdisk Hnet Hd.
  destruct (poll_success E cfg target response discoveries w Hdisk Hnet Hd)
    as (w' & -> & Hrows & _ & _ & _ & _ & _ & Hout & _).
  cbn [snd]. eexists. split; [exact Hrows|]. repeat split. exact Hout.
Qed.

(** The theorem in [flaky_env], for a target that answers. *)
Lemma poll_of_a_response_prints_mirrors_redirect_and_ok_witness :
  exists row,
    t_checks (conn (snd (poll flaky_env default_config "http://a.example/"
                           (fresh empty_store))))
    = t_checks (conn (fresh empty_store)) ++ [row]
    /\ checks.ok row = 1
    /\ checks.status_code row = Some 200
    /\ checks.final_url row = Some "http://a.example/"%string
    /\ stdout (snd (poll flaky_env default_config "http://a.example/" (fresh empty_store)))
       = stdout (fresh empty_store)
         ++ mirror_report (clock flaky_env (n_now (fresh empty_store))) "http://a.example/"
              (mirrors_for (with_check (conn (fresh empty_store)) row) "http://a.example/"
                 (requests.mkResponse small_page 200 "http://a.example/"))
         ++ redirect_report (clock flaky_env (n_now (fresh empty_store)))
              "http://a.example/" "http://a.example/"
         ++ [ok_line (clock flaky_env (n_now (fresh empty_store))) "http://a.example/" 200].
Proof.
  apply (poll_of_a_response_prints_mirrors_redirect_and_ok flaky_env default_config
           "http://a.example/" (requests.mkResponse small_page 200 "http://a.example/")
           ∅ (fresh empty_store)).
  - intros n. reflexivity.
  - reflexivity.
  - by_decision.
Defined.

(** The mirror query finds a target that has a row with the signature,
    unless five others fill the result. *)
Lemma mirror_found_or_full (db : database) (s A B : string) (r : checks.row) :
  A <> B -> In r (t_checks db) -> checks.target_url r = B ->
  checks.content_sig r = Some s ->
  In B (recently_seen_signature db s A)
  \/ length (recently_seen_signature db s A) = 5%nat.
Proof.
  intros HAB Hin Ht Hs. rewrite recently_seen_signature_unfold.
  destruct (Nat.le_gt_cases (length (candidates db s A)) 5) as [Hle|Hgt].
  - left. rewrite firstn_all2 by exact Hle.
    rewrite <- Ht. apply candidates_complete; congruence.
  - right. rewrite length_map, length_firstn. lia.
Qed.

Lemma content_signature_words (html1 html2 : string) :
  word_sequence html1 = word_sequence html2 ->
  content_signature html1 = content_signature html2.
Proof. intros H. unfold content_signature. now rewrite !normalize_text_words, H. Qed.

(** X7: mirror detection, end to end.  When the check ledger holds a row
    of another target [A] with the fingerprint of a document, and the
    target [B] now serves a body that is not empty and has the same word
    sequence as that document, the poll of [B] prints a mirror line, and
    the line names [A] unless it is full with five other targets. *)
Theorem poll_reports_the_mirror_of_a_known_document (E : env) (cfg : Config)
  (A B html : string) (response : requests.Response) (discoveries : gset string)
  (w : world) :
  disk_ok E ->
  A <> B ->
  (exists r, In r (t_checks (conn w)) /\ checks.target_url r = A
             /\ checks.content_sig r = Some (content_signature html)) ->
  network E (n_get w) B 45 (follow_redirects cfg) = Ok response ->
  requests.text response <> EmptyString ->
  word_sequence (requests.text response) = word_sequence html ->
  discover_onion_candidates (requests.url response) (requests.text response)
  = Ok discoveries ->
  exists mirrors,
    In (mirror_line (clock E (n_now w)) B mirrors) (stdout (snd (poll E cfg B w)))
    /\ (In A mirrors \/ length mirrors = 5%nat).
Proof.
  intros Hdisk HAB (r & Hin & Ht & Hs) Hnet Hne Hwords Hd.
  destruct (poll_success E cfg B response discoveries w Hdisk Hnet Hd)
    as (w' & -> & _ & _ & _ & _ & _ & _ & Hout & _).
  cbn [snd]. rewrite Hout. unfold mirrors_for, sig_of.
  destruct (requests.text response) as [|c body] eqn:Htext; [congruence|].
  cbn [Str.is_empty]. rewrite (content_signature_words _ _ Hwords).
  set (db := with_check _ _).
  assert (Hfound : In A (recently_seen_signature db (content_signature html) B)
                   \/ length (recently_seen_signature db (content_signature html) B) = 5%nat).
  { apply (mirror_found_or_full db _ B A r); [congruence | | exact Ht | exact Hs].
    subst db. cbn [with_check t_checks]. apply in_or_app. now left. }
  exists (recently_seen_signature db (content_signature html) B). split; [|exact Hfound].
  apply in_or_app. right. apply in_or_app. left.
  destruct (recently_seen_signature db (content_signature html) B) as [|m ms];
    [|now left].
  destruct Hfound as [[]|Hlen]. discriminate Hlen.
Qed.

(** The theorem in [flaky_env]: [a.example] served the small page
    before, and [b.example] serves it now. *)
Lemma poll_reports_the_mirror_of_a_known_document_witness :
  exists mirrors,
    In (mirror_line (clock flaky_env (n_now (fresh mirror_store))) "http://b.example/" mirrors)
      (stdout (snd (poll flaky_env default_config "http://b.example/" (fresh mirror_store))))
    /\ (In "http://a.example/"%string mirrors \/ length mirrors = 5%nat).
Proof.
  apply (poll_reports_the_mirror_of_a_known_document flaky_env default_config
           "http://a.example/" "http://b.example/" small_page
           (requests.mkResponse small_page 200 "http://b.example/") ∅ (fresh mirror_store)).
  - intros n. reflexivity.
  - discriminate.
  - eexists. split; [left; reflexivity|]. split; reflexivity.
  - reflexivity.
  - discriminate.
  - reflexivity.
  - by_decision.
Defined.

(** ** Mirror lines are justified by the ledger *)

Lemma justified_extends (db db' : database) (rows : list checks.row) (l : line) :
  t_checks db' = t_checks db ++ rows -> justified db l -> justified db' l.
Proof.
  intros Hrows. destruct l as [t target mirrors| | |]; cbn [justified]; [|auto..].
  intros (Hne & Hlen & Hall). split; [exact Hne|]. split; [exact Hlen|].
  intros m Hm. destruct (Hall m Hm) as (Hmt & s & r & r' & Hr & Hr' & H).
  split; [exact Hmt|]. exists s, r, r'. rewrite Hrows.
  split; [apply in_or_app; now left|]. split; [apply in_or_app; now left | exact H].
Qed.

Lemma prints_justified_refl (w : world) : prints_justified w w.
Proof.
  split; [exists []; now rewrite app_nil_r|].
  exists []. split; [now rewrite app_nil_r | constructor].
Qed.

Lemma prints_justified_trans (a b c : world) :
  prints_justified a b -> prints_justified b c -> prints_justified a c.
Proof.
  intros ((r1 & H1) & n1 & O1 & F1) ((r2 & H2) & n2 & O2 & F2). split.
  - exists (r1 ++ r2). now rewrite H2, H1, <- app_assoc.
  - exists (n1 ++ n2). split; [now rewrite O2, O1, <- app_assoc|].
    apply Forall_app. split; [|exact F2].
    eapply List.Forall_impl; [|exact F1]. intros l. now apply (justified_extends (conn b) (conn c) r2).
Qed.

(** A step that prints nothing and only adds rows to the check ledger. *)
Lemma prints_justified_silent (w w' : world) (rows : list checks.row) :
  t_checks (conn w') = t_checks (conn w) ++ rows -> stdout w' = stdout w ->
  prints_justified w w'.
Proof.
  intros Hc Ho. split; [now exists rows|].
  exists []. split; [now rewrite Ho, app_nil_r | constructor].
Qed.

Lemma prints_justified_quiet (w w' : world) :
  t_checks (conn w') = t_checks (conn w) -> stdout w' = stdout w ->
  prints_justified w w'.
Proof.
  intros Hc Ho. apply (prints_justified_silent w w' []); [|exact Ho].
  now rewrite Hc, app_nil_r.
Qed.

(** What the mirror query returns: at most five targets, each another
    than the current one and with a row of the signature. *)
Lemma mirrors_sound (db : database) (s A m : string) :
  In m (recently_seen_signature db s A) ->
  m <> A
  /\ exists r, In r (t_checks db) /\ checks.target_url r = m
               /\ checks.content_sig r = Some s.
Proof.
  rewrite recently_seen_signature_unfold. intros Hm.
  apply in_map_iff in Hm. destruct Hm as (r & <- & Hr).
  apply In_firstn, candidates_In in Hr. destruct Hr as (Hr & Hs & HA).
  split; [exact HA|]. now exists r.
Qed.

Lemma mirrors_at_most_five (db : database) (s A : string) :
  (length (recently_seen_signature db s A) <= 5)%nat.
Proof. rewrite recently_seen_signature_unfold, length_map, length_firstn. lia. Qed.

(** After the commit of a row for the target with the fingerprint of the
    response, [attempt] leaves the check ledger as it is and prints only
    justified lines, however it ends. *)
Lemma after_commit_prints_justified (E : env) (target checked_at : string)
  (response : requests.Response) (w : world) :
  (exists r', In r' (t_checks (conn w)) /\ checks.target_url r' = target
              /\ checks.content_sig r' = sig_of (requests.text response)) ->
  prints_justified w (snd (after_commit E target checked_at response w)).
Proof.
  intros (r' & Hr' & Ht' & Hs'). unfold after_commit, bind, lift.
  destruct (discover_onion_candidates (requests.url response) (requests.text response))
    as [discoveries|e]; [|apply prints_justified_refl].
  assert (H1 : same_ledger w
                 (snd ((if decide (discoveries = ∅) then ret tt
                        else save_discoveries E target (elements discoveries)) w))
               /\ same_output w
                    (snd ((if decide (discoveries = ∅) then ret tt
                           else save_discoveries E target (elements discoveries)) w))).
  { destruct (decide (discoveries = ∅)).
    - split; [apply same_ledger_refl | apply same_output_refl].
    - split; [apply save_discoveries_same_ledger | apply save_discoveries_same_output]. }
  destruct ((if decide (discoveries = ∅) then ret tt
             else save_discoveries E target (elements discoveries)) w) as [[[]|e] w1].
  2:{ cbn [snd] in *. destruct H1 as [(Hc & _) (Ho & _)].
      now apply prints_justified_quiet. }
  cbn [snd] in H1. destruct H1 as [(Hc & _) (Ho & _)].
  assert (Hlast : forall w2 : world,
             prints_justified w w2 ->
             prints_justified w
               (snd (let (r, w3) :=
                       (if String.eqb (requests.url response) target then ret tt
                        else print (redirect_line checked_at target (requests.url response)))
                         w2 in
                     match r with
                     | Ok _ =>
                         print (ok_line checked_at target (requests.status_code response)) w3
                     | Raise e => (Raise e, w3)
                     end))).
  { intros w2 H2. eapply prints_justified_trans; [exact H2|].
    destruct (String.eqb (requests.url response) target); cbn.
    - split; [exists []; now rewrite app_nil_r|].
      eexists. split; [reflexivity|]. repeat constructor.
    - split; [exists []; now rewrite app_nil_r|].
      exists [redirect_line checked_at target (requests.url response);
              ok_line checked_at target (requests.status_code response)].
      split; [cbn [stdout printed]; now rewrite <- app_assoc|]. repeat constructor. }
  destruct (sig_of (requests.text response)) as [sig|] eqn:Hsig.
  2:{ apply Hlast. now apply prints_justified_quiet. }
  destruct (Str.is_empty sig).
  { apply Hlast. now apply prints_justified_quiet. }
  unfold conn_select_mirrors. destruct (disk E (n_sql w1)) as [msg|].
  { cbn [snd]. now apply prints_justified_quiet. }
  destruct (recently_seen_signature (conn w1) sig target) as [|m ms] eqn:Hm.
  { apply Hlast. now apply prints_justified_quiet. }
  apply Hlast. cbn [print]. split; [exists []; cbn; now rewrite Hc, app_nil_r|].
  exists [mirror_line checked_at target (m :: ms)].
  split; [cbn; now rewrite Ho|]. constructor; [|constructor].
  cbn [justified conn printed selected]. split; [discriminate|].
  split; [rewrite <- Hm; apply mirrors_at_most_five|].
  intros m' Hm'. rewrite <- Hm in Hm'. apply mirrors_sound in Hm'.
  destruct Hm' as (Hne & r & Hr & Ht & Hs). split; [exact Hne|].
  exists sig, r, r'. rewrite Hc. repeat split; try assumption.
  - rewrite Hc in Hr. exact Hr.
Qed.

Lemma attempt_prints_justified (E : env) (cfg : Config) (target checked_at : string) :
  preserves prints_justified (attempt E cfg target checked_at).
Proof.
  intros w. rewrite attempt_eq.
  destruct (network E (n_get w) target 45 (follow_redirects cfg)) as [response|e];
    [|now apply prints_justified_quiet].
  cbv zeta. destruct (disk E (n_sql w)); [now apply prints_justified_quiet|].
  rewrite insert_success_row.
  destruct (disk E (S (n_sql w))).
  { cbn [snd]. now apply (prints_justified_silent _ _ [success_row (conn w) checked_at target response]). }
  eapply prints_justified_trans; [|apply after_commit_prints_justified].
  - now apply (prints_justified_silent _ _ [success_row (conn w) checked_at target response]).
  - exists (success_row (conn w) checked_at target response).
    cbn [conn executed requested with_check t_checks]. split; [|now split].
    apply in_or_app. right. now left.
Qed.

Lemma record_failure_prints_justified (E : env) (target checked_at : string)
  (exc : exception) :
  preserves prints_justified (record_failure E target checked_at exc).
Proof.
  intros w. rewrite record_failure_eq. cbv zeta. rewrite insert_failure_row.
  destruct (disk E (n_sql w)); [now apply prints_justified_quiet|].
  destruct (disk E (S (n_sql w))).
  - now apply (prints_justified_silent _ _ [failure_row (conn w) checked_at target exc]).
  - split; [now exists [failure_row (conn w) checked_at target exc]|].
    exists [fail_line checked_at target (str_exc exc)]. split; [reflexivity|].
    repeat constructor.
Qed.

Lemma conn_execute_same_prints_justified (E : env) :
  preserves prints_justified (conn_execute E (fun db => db)).
Proof.
  intros w. unfold conn_execute.
  destruct (disk E (n_sql w)); now apply prints_justified_quiet.
Qed.

Ltac justified_step :=
  first
    [ apply attempt_prints_justified
    | apply record_failure_prints_justified
    | apply conn_execute_same_prints_justified
    | apply (preserves_bind prints_justified prints_justified_trans)
    | apply (preserves_try_except prints_justified prints_justified_trans)
    | apply (preserves_for_each prints_justified prints_justified_refl
               prints_justified_trans)
    | apply (preserves_ret prints_justified prints_justified_refl)
    | (intros ?w; now apply prints_justified_quiet) ].

Lemma poll_prints_justified (E : env) (cfg : Config) (target : string) :
  preserves prints_justified (poll E cfg target).
Proof.
  unfold poll. justified_step; [justified_step|].
  intros checked_at. justified_step; [justified_step|]. intros e. justified_step.
Qed.

Lemma loop_prints_justified (E : env) (cfg : Config) (cycles : nat) :
  preserves prints_justified (loop E cycles cfg).
Proof.
  induction cycles as [|n IH]; cbn [loop]; [justified_step|].
  justified_step; [|intros _; exact IH].
  unfold cycle, load_targets. justified_step.
  { justified_step; [justified_step|]. intros lines. justified_step. }
  intros targets. justified_step; [|intros _; justified_step].
  justified_step. intros t. apply poll_prints_justified.
Qed.

(** X8: whatever the surroundings do, and for any number of turns of the
    loop, every mirror line [run] prints is justified by the check ledger
    it leaves: the line names between one and five targets, none of them
    the target of the line, and each shares a fingerprint recorded in the
    ledger with the target of the line. *)
Theorem run_prints_only_justified_mirror_lines (E : env) (cfg : Config) (cycles : nat)
  (w : world) :
  exists new,
    stdout (snd (run E cfg cycles w)) = stdout w ++ new
    /\ Forall (justified (conn (snd (run E cfg cycles w)))) new.
Proof.
  assert (H : preserves prints_justified (run E cfg cycles)).
  { unfold run, init_db, conn_commit. justified_step.
    - justified_step; [justified_step|]. intros _. justified_step; [justified_step|].
      intros _. justified_step.
    - intros _. apply loop_prints_justified. }
  exact (proj2 (H w)).
Qed.

(** ** The discovery ledger only grows, by canonical candidates *)

Lemma discover_canonical (base_url html : string) (candidates : gset string) (u : string) :
  discover_onion_candidates base_url html = Ok candidates -> u ∈ candidates ->
  canonical_onion_url u.
Proof.
  unfold discover_onion_candidates.
  destruct (fold_left _ _ _) as [found|e] eqn:Hfold; [|discriminate].
  intros [= <-] Hu. apply elem_of_map in Hu. destruct Hu as (host & -> & Hhost).
  exists host. split; [reflexivity|].
  apply (fold_add_anchor_fullmatch _ _ _ _ Hfold); [|exact Hhost].
  intros h Hh. apply elem_of_list_to_set, list_elem_of_In in Hh.
  now apply findall_fullmatch in Hh.
Qed.

Lemma insert_or_ignore_rows (id : Z) (now s u : string) (db : database) :
  exists new,
    t_discovered_onions (insert_or_ignore_discovery id now s u db)
    = t_discovered_onions db ++ new
    /\ Forall (fun r => discovered_onions.source_url r = s
                        /\ discovered_onions.discovered_url r = u) new.
Proof.
  unfold insert_or_ignore_discovery.
  destruct (existsb (same_pair s u) (t_discovered_onions db)).
  - exists []. split; [now rewrite app_nil_r | constructor].
  - eexists. split; [reflexivity|]. repeat constructor.
Qed.

(** The loop of [save_discoveries], however it ends: the rows it adds
    have the source and one of the discoveries. *)
Lemma save_loop_appends (E : env) (s : string) (urls : list string) (w : world) :
  exists new,
    t_discovered_onions
      (conn (snd (for_each urls
                    (fun url =>
                       now <- utc_now E ;;
                       conn_insert_discovery E now s url) w)))
    = t_discovered_onions (conn w) ++ new
    /\ Forall (fun r => discovered_onions.source_url r = s
                        /\ In (discovered_onions.discovered_url r) urls) new
    /\ (unique_pairs (conn w) ->
        unique_pairs
          (conn (snd (for_each urls
                        (fun url =>
                           now <- utc_now E ;;
                           conn_insert_discovery E now s url) w)))).
Proof.
  revert w. induction urls as [|u urls IH]; intros w.
  - exists []. cbn. rewrite app_nil_r. split; [reflexivity|]. split; [constructor | auto].
  - rewrite for_each_cons, save_one_eq.
    destruct (disk E (n_sql w)) as [msg|].
    { exists []. cbn. rewrite app_nil_r. split; [reflexivity|]. split; [constructor | auto]. }
    match goal with
    | |- context [for_each urls _ ?w1] => destruct (IH w1) as (new & Hnew & Hall & Huniq)
    end.
    cbn [conn counted executed ticked] in Hnew, Huniq.
    destruct (insert_or_ignore_rows (next_discovery_id w) (clock E (n_now w)) s u (conn w))
      as (n1 & H1 & F1).
    exists (n1 ++ new). split; [now rewrite Hnew, H1, <- app_assoc|]. split.
    + apply Forall_app. split.
      * eapply List.Forall_impl; [|exact F1]. intros r [Hs ->]. split; [exact Hs | now left].
      * eapply List.Forall_impl; [|exact Hall]. intros r [Hs Hin].
        split; [exact Hs | now right].
    + intros H. now apply Huniq, insert_or_ignore_unique.
Qed.

Lemma save_discoveries_appends_rows (E : env) (s : string) (urls : list string)
  (w : world) :
  exists new,
    t_discovered_onions (conn (snd (save_discoveries E s urls w)))
    = t_discovered_onions (conn w) ++ new
    /\ Forall (fun r => discovered_onions.source_url r = s
                        /\ In (discovered_onions.discovered_url r) urls) new
    /\ (unique_pairs (conn w) -> unique_pairs (conn (snd (save_discoveries E s urls w)))).
Proof.
  rewrite save_discoveries_eq.
  destruct (save_loop_appends E s urls w) as (new & Hnew & Hall & Huniq).
  destruct (for_each urls _ w) as [[[]|e] w1]; cbn [snd] in *.
  - unfold conn_commit, conn_execute. exists new.
    destruct (disk E (n_sql w1)); cbn [snd conn executed]; now repeat split.
  - exists new. now repeat split.
Qed.

Lemma same_conn_refl (w : world) : same_conn w w.
Proof. reflexivity. Qed.

Lemma same_conn_trans (a b c : world) : same_conn a b -> same_conn b c -> same_conn a c.
Proof. unfold same_conn. congruence. Qed.

Lemma select_same_conn (E : env) (sig target : string) :
  preserves same_conn (conn_select_mirrors E sig target).
Proof. intros w. unfold conn_select_mirrors. now destruct (disk E (n_sql w)). Qed.

Ltac conn_step :=
  first
    [ apply select_same_conn
    | apply (preserves_bind same_conn same_conn_trans)
    | apply (preserves_ret same_conn same_conn_refl)
    | (intros ?w; reflexivity) ].

(** What [attempt] does after the discoveries are saved leaves the
    tables as they are. *)
Lemma report_same_conn (E : env) (target checked_at : string)
  (response : requests.Response) :
  preserves same_conn
    (match sig_of (requests.text response) with
     | Some sig =>
         if Str.is_empty sig then ret tt
         else
           mirrors <- conn_select_mirrors E sig target ;;
           match mirrors with
           | [] => ret tt
           | _ => print (mirror_line checked_at target mirrors)
           end
     | None => ret tt
     end ;;
     (if String.eqb (requests.url response) target then ret tt
      else print (redirect_line checked_at target (requests.url response))) ;;
     print (ok_line checked_at target (requests.status_code response))).
Proof.
  conn_step.
  { destruct (sig_of (requests.text response)) as [sig|]; [|conn_step].
    destruct (Str.is_empty sig); [conn_step|].
    conn_step; [conn_step|]. intros [|m ms]; conn_step. }
  intros _. conn_step; [|intros _; conn_step].
  destruct (String.eqb (requests.url response) target); conn_step.
Qed.

(** After the commit, however [attempt] ends: the rows added to the
    discovery ledger have the target as source and a canonical
    candidate. *)
Lemma after_commit_appends_discoveries (E : env) (target checked_at : string)
  (response : requests.Response) (w : world) :
  exists new,
    t_discovered_onions (conn (snd (after_commit E target checked_at response w)))
    = t_discovered_onions (conn w) ++ new
    /\ Forall (fun r => canonical_onion_url (discovered_onions.discovered_url r)
                        /\ discovered_onions.source_url r = target) new
    /\ (unique_pairs (conn w) ->
        unique_pairs (conn (snd (after_commit E target checked_at response w)))).
Proof.
  assert (Hnone : forall w' : world, conn w' = conn w ->
            exists new,
              t_discovered_onions (conn w') = t_discovered_onions (conn w) ++ new
              /\ Forall (fun r => canonical_onion_url (discovered_onions.discovered_url r)
                                  /\ discovered_onions.source_url r = target) new
              /\ (unique_pairs (conn w) -> unique_pairs (conn w'))).
  { intros w' ->. exists []. rewrite app_nil_r. split; [reflexivity|].
    split; [constructor | auto]. }
  unfold after_commit. rewrite bind_eq. unfold lift.
  destruct (discover_onion_candidates (requests.url response) (requests.text response))
    as [discoveries|e] eqn:Hd; [|now apply Hnone].
  rewrite bind_eq. destruct (decide (discoveries = ∅)) as [Hempty|Hne].
  { cbn [ret]. apply Hnone. apply report_same_conn. }
  destruct (save_discoveries_appends_rows E target (elements discoveries) w)
    as (new & Hnew & Hall & Huniq).
  assert (Hcanon : Forall (fun r => canonical_onion_url (discovered_onions.discovered_url r)
                                    /\ discovered_onions.source_url r = target) new).
  { eapply List.Forall_impl; [|exact Hall]. intros r [Hs Hin]. split; [|exact Hs].
    apply (discover_canonical _ _ _ _ Hd). now apply elem_of_elements, list_elem_of_In. }
  destruct (save_discoveries E target (elements discoveries) w) as [[[]|e] w1];
    cbn [snd] in *.
  - match goal with
    | |- context [snd (?rest w1)] =>
        assert (Hrest : conn (snd (rest w1)) = conn w1) by apply report_same_conn
    end.
    rewrite Hrest. now exists new.
  - now exists new.
Qed.

Lemma appends_discoveries_refl (w : world) : appends_discoveries w w.
Proof.
  exists [], []. rewrite !app_nil_r. split; [reflexivity|]. split; [reflexivity|].
  split; [constructor | auto].
Qed.

Lemma appends_discoveries_trans (a b c : world) :
  appends_discoveries a b -> appends_discoveries b c -> appends_discoveries a c.
Proof.
  intros (n1 & m1 & H1 & F1 & A1 & U1) (n2 & m2 & H2 & F2 & A2 & U2).
  exists (n1 ++ n2), (m1 ++ m2).
  split; [now rewrite H2, H1, <- app_assoc|].
  split; [now rewrite F2, F1, <- app_assoc|].
  split; [|auto]. apply Forall_app. split.
  - eapply List.Forall_impl; [|exact A1]. intros r [Hc Hin].
    split; [exact Hc | apply in_or_app; now left].
  - eapply List.Forall_impl; [|exact A2]. intros r [Hc Hin].
    split; [exact Hc | apply in_or_app; now right].
Qed.

(** A step that leaves the discovery ledger as it is. *)
Lemma appends_discoveries_same (w w' : world) (more : list string) :
  t_discovered_onions (conn w') = t_discovered_onions (conn w) ->
  fetched w' = fetched w ++ more ->
  appends_discoveries w w'.
Proof.
  intros Hd Hf. exists [], more. rewrite app_nil_r. split; [exact Hd|].
  split; [exact Hf|]. split; [constructor|]. unfold unique_pairs. now rewrite Hd.
Qed.

Lemma appends_discoveries_quiet (w w' : world) :
  t_discovered_onions (conn w') = t_discovered_onions (conn w) ->
  fetched w' = fetched w ->
  appends_discoveries w w'.
Proof.
  intros Hd Hf. apply (appends_discoveries_same w w' []); [exact Hd|].
  now rewrite app_nil_r.
Qed.

Lemma attempt_appends_discoveries (E : env) (cfg : Config) (target checked_at : string) :
  preserves appends_discoveries (attempt E cfg target checked_at).
Proof.
  intros w. rewrite attempt_eq.
  destruct (network E (n_get w) target 45 (follow_redirects cfg)) as [response|e];
    [|now apply (appends_discoveries_same _ _ [target])].
  cbv zeta. destruct (disk E (n_sql w)); [now apply (appends_discoveries_same _ _ [target])|].
  destruct (disk E (S (n_sql w))); [now apply (appends_discoveries_same _ _ [target])|].
  match goal with
  | |- context [after_commit E target checked_at response ?w2] =>
      destruct (after_commit_appends_discoveries E target checked_at response w2)
        as (new & Hnew & Hall & Huniq);
      destruct (after_commit_same_ledger E target checked_at response w2) as (_ & Hf & _)
  end.
  cbn [conn fetched executed requested insert_check t_discovered_onions] in Hnew, Huniq, Hf.
  exists new, [target]. split; [exact Hnew|]. split; [exact Hf|]. split; [|exact Huniq].
  eapply List.Forall_impl; [|exact Hall]. intros r [Hc ->]. split; [exact Hc | now left].
Qed.

Lemma record_failure_appends_discoveries (E : env) (target checked_at : string)
  (exc : exception) :
  preserves appends_discoveries (record_failure E target checked_at exc).
Proof.
  intros w. rewrite record_failure_eq. cbv zeta.
  destruct (disk E (n_sql w)); [now apply appends_discoveries_quiet|].
  destruct (disk E (S (n_sql w))); now apply appends_discoveries_quiet.
Qed.

Lemma conn_execute_same_appends_discoveries (E : env) :
  preserves appends_discoveries (conn_execute E (fun db => db)).
Proof.
  intros w. unfold conn_execute.
  destruct (disk E (n_sql w)); now apply appends_discoveries_quiet.
Qed.

Ltac discoveries_step :=
  first
    [ apply attempt_appends_discoveries
    | apply record_failure_appends_discoveries
    | apply conn_execute_same_appends_discoveries
    | apply (preserves_bind appends_discoveries appends_discoveries_trans)
    | apply (preserves_try_except appends_discoveries appends_discoveries_trans)
    | apply (preserves_for_each appends_discoveries appends_discoveries_refl
               appends_discoveries_trans)
    | apply (preserves_ret appends_discoveries appends_discoveries_refl)
    | (intros ?w; now apply appends_discoveries_quiet) ].

Lemma loop_appends_discoveries (E : env) (cfg : Config) (cycles : nat) :
  preserves appends_discoveries (loop E cycles cfg).
Proof.
  induction cycles as [|n IH]; cbn [loop]; [discoveries_step|].
  discoveries_step; [|intros _; exact IH].
  unfold cycle, load_targets. discoveries_step.
  { discoveries_step; [discoveries_step|]. intros lines. discoveries_step. }
  intros targets. discoveries_step; [|intros _; discoveries_step].
  discoveries_step. intros t. unfold poll. discoveries_step; [discoveries_step|].
  intros checked_at. discoveries_step; [discoveries_step|]. intros e. discoveries_step.
Qed.

(** X9: whatever the surroundings do, and for any number of turns of the
    loop, [run] only adds rows at the end of the discovery ledger; each
    added row holds a candidate in canonical form, [http://<host>/] for a
    host [ONION_RE] matches in full, and as source a target requested
    during the run; and a ledger that satisfies its [UNIQUE] constraint
    still satisfies it afterwards. *)
Theorem run_only_appends_canonical_discoveries (E : env) (cfg : Config) (cycles : nat)
  (w : world) :
  exists new asked,
    t_discovered_onions (conn (snd (run E cfg cycles w)))
    = t_discovered_onions (conn w) ++ new
    /\ fetched (snd (run E cfg cycles w)) = fetched w ++ asked
    /\ Forall (fun r => canonical_onion_url (discovered_onions.discovered_url r)
                        /\ In (discovered_onions.source_url r) asked) new
    /\ (unique_pairs (conn w) -> unique_pairs (conn (snd (run E cfg cycles w)))).
Proof.
  assert (H : preserves appends_discoveries (run E cfg cycles)).
  { unfold run, init_db, conn_commit. discoveries_step.
    - discoveries_step; [discoveries_step|]. intros _.
      discoveries_step; [discoveries_step|]. intros _. discoveries_step.
    - intros _. apply loop_appends_discoveries. }
  exact (H w).
Qed.

(** ** The targets file *)

Lemma load_targets_eq (E : env) (path : string) (w : world) :
  load_targets E path w
  = match files E (n_open w) path with
    | Ok lines =>
        (Ok (flat_map
               (fun raw =>
                  let line := Str.strip raw in
                  if Str.is_empty line || Str.startswith "#" line then [] else [line])
               lines),
         opened w)
    | Raise e => (Raise e, opened w)
    end.
Proof.
  unfold load_targets, bind, read_lines. now destruct (files E (n_open w) path).
Qed.

Lemma lstrip_fixed (s : string) : Str.starts_space s = false -> Str.lstrip s = s.
Proof. destruct s as [|c r]; [reflexivity|]. cbn. now intros ->. Qed.

Lemma strip_idempotent (s : string) : Str.strip (Str.strip s) = Str.strip s.
Proof.
  destruct (strip_trimmed s) as [Hs Hr]. unfold Str.strip at 1.
  now rewrite (lstrip_fixed _ Hs).
Qed.

Lemma lstrip_blank_append (pre x : string) :
  blank pre = true -> Str.lstrip (pre +:+ x) = Str.lstrip x.
Proof.
  unfold blank. induction pre as [|c pre IH]; [reflexivity|].
  cbn [urllib.all_chars]. intros H. apply andb_true_iff in H. destruct H as [Hc Hp].
  rewrite append_cons. cbn [Str.lstrip]. rewrite Hc. now apply IH.
Qed.

Lemma rstrip_blank (post : string) : blank post = true -> Str.rstrip post = EmptyString.
Proof.
  unfold blank. induction post as [|c post IH]; [reflexivity|].
  cbn [urllib.all_chars]. intros H. apply andb_true_iff in H. destruct H as [Hc Hp].
  rewrite rstrip_cons, (IH Hp), Hc. reflexivity.
Qed.

Lemma rstrip_append_blank (x post : string) :
  blank post = true -> Str.rstrip (x +:+ post) = Str.rstrip x.
Proof.
  intros Hp. induction x as [|c x IH]; [now apply rstrip_blank|].
  rewrite append_cons, !rstrip_cons, IH. reflexivity.
Qed.

Lemma strip_line_of (raw t : string) : line_of raw t -> is_target t -> Str.strip raw = t.
Proof.
  intros (pre & post & -> & Hpre & Hpost) (Hstrip & Hne & _).
  destruct (strip_trimmed t) as [Hs Hr]. rewrite Hstrip in Hs, Hr.
  unfold Str.strip. rewrite (lstrip_blank_append _ _ Hpre).
  rewrite lstrip_fixed.
  - now rewrite rstrip_append_blank.
  - destruct t as [|c r]; [contradiction | exact Hs].
Qed.

(** X10: [load_targets] returns the stripped lines of the file that are
    neither empty nor comments, in the order of the file and with their
    repetitions; each target it returns is stripped, is not empty and
    does not start with [#]. *)
Theorem load_targets_keeps_the_target_lines (E : env) (path : string)
  (lines : list string) (w : world) :
  files E (n_open w) path = Ok lines ->
  exists targets,
    load_targets E path w = (Ok targets, opened w)
    /\ targets
       = List.filter (fun t => negb (Str.is_empty t) && negb (Str.startswith "#" t))
           (List.map Str.strip lines)
    /\ Forall is_target targets.
Proof.
  intros Hfile. rewrite load_targets_eq, Hfile. cbv zeta. eexists. split; [reflexivity|].
  assert (Heq : flat_map
                  (fun raw =>
                     if Str.is_empty (Str.strip raw) || Str.startswith "#" (Str.strip raw)
                     then [] else [Str.strip raw])
                  lines
                = List.filter (fun t => negb (Str.is_empty t) && negb (Str.startswith "#" t))
                    (List.map Str.strip lines)).
  { clear Hfile. induction lines as [|raw lines IH]; [reflexivity|].
    cbn [flat_map List.map List.filter]. rewrite IH, <- negb_orb.
    now destruct (Str.is_empty (Str.strip raw) || Str.startswith "#" (Str.strip raw)). }
  split; [exact Heq|]. rewrite Heq. apply List.Forall_forall. intros t Ht.
  apply filter_In in Ht. destruct Ht as [Hin Hkeep].
  apply in_map_iff in Hin. destruct Hin as (raw & <- & _).
  apply andb_true_iff in Hkeep. destruct Hkeep as [Hne Hc].
  apply negb_true_iff in Hne, Hc.
  split; [apply strip_idempotent|]. split; [|exact Hc].
  intros H. now rewrite H in Hne.
Qed.

(** The theorem for a file with a comment, a blank line and two padded
    targets. *)
Lemma load_targets_keeps_the_target_lines_witness :
  exists targets,
    load_targets padded_env "/app/targets.txt" (fresh empty_store)
    = (Ok targets, opened (fresh empty_store))
    /\ targets
       = List.filter (fun t => negb (Str.is_empty t) && negb (Str.startswith "#" t))
           (List.map Str.strip padded_lines)
    /\ Forall is_target targets.
Proof.
  apply (load_targets_keeps_the_target_lines padded_env "/app/targets.txt" padded_lines
           (fresh empty_store)).
  reflexivity.
Defined.

Example load_targets_padded_lines :
  fst (load_targets padded_env "/app/targets.txt" (fresh empty_store))
  = Ok ["http://a.example/"; "http://b.example/"]%string.
Proof. vm_compute. reflexivity. Qed.

(** X11: reading back.  When each line of the file holds one target,
    with any whitespace before and after it, and the targets are
    stripped, not empty and no comments, [load_targets] returns exactly
    these targets, in order. *)
Theorem load_targets_reads_back_the_targets (E : env) (path : string)
  (lines targets : list string) (w : world) :
  Forall is_target targets ->
  Forall2 line_of lines targets ->
  files E (n_open w) path = Ok lines ->
  load_targets E path w = (Ok targets, opened w).
Proof.
  intros Htargets Hlines Hfile. rewrite load_targets_eq, Hfile. cbv zeta. f_equal. f_equal.
  clear Hfile. induction Hlines as [|raw t lines targets Hline Hrest IH]; [reflexivity|].
  inversion Htargets as [|? ? Ht Hts]; subst.
  cbn [flat_map]. rewrite (strip_line_of raw t Hline Ht), (IH Hts).
  destruct Ht as (_ & Hne & Hc). rewrite Hc.
  destruct t; [contradiction | reflexivity].
Qed.

(** The theorem for a file of two lines. *)
Lemma load_targets_reads_back_the_targets_witness :
  load_targets flaky_env "/app/targets.txt"
    (fresh empty_store)
  = (Ok ["http://a.example/"; "http://down.example/"; "http://b.example/"]%string,
     opened (fresh empty_store)).
Proof.
  apply (load_targets_reads_back_the_targets flaky_env "/app/targets.txt"
           ["http://a.example/"; "http://down.example/"; "http://b.example/"]%string).
  - repeat constructor; discriminate.
  - repeat constructor; exists EmptyString, EmptyString; repeat split;
      symmetry; apply string_append_empty_r.
  - reflexivity.
Defined.

(** ** Passes, turns and the loop *)

(** A poll on a disk that does not fail, in short. *)
Lemma poll_summary (E : env) (cfg : Config) (target : string) (w : world) :
  disk_ok E ->
  exists w' rows,
    poll E cfg target w = (Ok tt, w')
    /\ t_checks (conn w') = t_checks (conn w) ++ rows
    /\ (1 <= length rows <= 2)%nat
    /\ fetched w' = fetched w ++ [target]
    /\ slept w' = slept w /\ n_open w' = n_open w.
Proof.
  intros Hdisk.
  destruct (network E (n_get w) target 45 (follow_redirects cfg)) as [response|exc] eqn:Hnet.
  - destruct (discover_onion_candidates (requests.url response) (requests.text response))
      as [discoveries|exc] eqn:Hd.
    + destruct (poll_success E cfg target response discoveries w Hdisk Hnet Hd)
        as (w' & Hp & Hrows & Hf & _ & Hs & Ho & _).
      exists w'. eexists. split; [exact Hp|]. split; [exact Hrows|]. cbn [length].
      repeat split; try assumption; lia.
    + destruct (poll_discovery_failure E cfg target response exc w Hdisk Hnet Hd)
        as (w' & Hp & Hconn & Hf & _ & Hs & Ho & _).
      exists w'. eexists. split; [exact Hp|]. rewrite Hconn. cbn [with_check t_checks].
      split; [rewrite <- app_assoc; reflexivity|]. cbn [length app].
      repeat split; try assumption; lia.
  - destruct (poll_fetch_failure E cfg target exc w Hdisk Hnet)
      as (w' & Hp & Hconn & Hf & _ & Hs & Ho & _).
    exists w'. eexists. split; [exact Hp|]. rewrite Hconn. cbn [with_check t_checks].
    split; [reflexivity|]. cbn [length]. repeat split; try assumption; lia.
Qed.

(** A pass over the targets on a disk that does not fail. *)
Lemma pass_summary (E : env) (cfg : Config) (targets : list string) (w : world) :
  disk_ok E ->
  exists w' rows,
    for_each targets (poll E cfg) w = (Ok tt, w')
    /\ t_checks (conn w') = t_checks (conn w) ++ rows
    /\ (length targets <= length rows <= 2 * length targets)%nat
    /\ fetched w' = fetched w ++ targets
    /\ slept w' = slept w /\ n_open w' = n_open w.
Proof.
  intros Hdisk. revert w. induction targets as [|t ts IH]; intros w.
  - exists w, []. cbn. rewrite !app_nil_r. repeat split; lia.
  - destruct (poll_summary E cfg t w Hdisk) as (w1 & r1 & Hp & Hr1 & Hl1 & Hf1 & Hs1 & Ho1).
    destruct (IH w1) as (w2 & r2 & Hp2 & Hr2 & Hl2 & Hf2 & Hs2 & Ho2).
    exists w2, (r1 ++ r2). rewrite for_each_cons, Hp.
    split; [exact Hp2|]. split; [now rewrite Hr2, Hr1, <- app_assoc|].
    rewrite length_app. cbn [length].
    split; [lia|]. split; [now rewrite Hf2, Hf1, <- app_assoc|].
    split; congruence.
Qed.

Lemma cycle_eq (E : env) (cfg : Config) (w : world) :
  cycle E cfg w
  = match load_targets E (targets_file cfg) w with
    | (Ok targets, w1) =>
        match for_each targets (poll E cfg) w1 with
        | (Ok _, w2) => (Ok tt, asleep (interval_s cfg) w2)
        | (Raise e, w2) => (Raise e, w2)
        end
    | (Raise e, w1) => (Raise e, w1)
    end.
Proof.
  unfold cycle. rewrite bind_eq. destruct (load_targets E (targets_file cfg) w) as [[ts|e] w1];
    [|reflexivity].
  rewrite bind_eq. now destruct (for_each ts (poll E cfg) w1) as [[[]|e] w2].
Qed.

Lemma init_db_eq (E : env) (w : world) :
  init_db E w
  = match disk E (n_sql w) with
    | Some msg => (Raise (sqlite3_Error msg), executed (fun db => db) w)
    | None =>
        match disk E (S (n_sql w)) with
        | Some msg =>
            (Raise (sqlite3_Error msg), executed (fun db => db) (executed (fun db => db) w))
        | None =>
            match disk E (S (S (n_sql w))) with
            | Some msg =>
                (Raise (sqlite3_Error msg),
                 executed (fun db => db)
                   (executed (fun db => db) (executed (fun db => db) w)))
            | None =>
                (Ok tt,
                 executed (fun db => db)
                   (executed (fun db => db) (executed (fun db => db) w)))
            end
        end
    end.
Proof.
  unfold init_db, conn_commit, bind, conn_execute.
  destruct (disk E (n_sql w)); [reflexivity|]. cbn [n_sql executed].
  destruct (disk E (S (n_sql w))); [reflexivity|]. cbn [n_sql executed].
  destruct (disk E (S (S (n_sql w)))); reflexivity.
Qed.

(** X12: what [run] needs to start.  When the first statement on the
    store fails, [run] ends with the storage error before anything else
    is done; and when the store is set up and the targets file cannot be
    read, [run] ends with the error of the file in its first turn:
    nothing is requested, nothing is recorded and the process does not
    sleep. *)
Theorem run_halts_when_it_cannot_start (E : env) (cfg : Config) (cycles : nat)
  (w : world) :
  (forall msg,
     disk E (n_sql w) = Some msg ->
     run E cfg cycles w = (Raise (sqlite3_Error msg), executed (fun db => db) w))
  /\ (forall e,
        disk E (n_sql w) = None -> disk E (S (n_sql w)) = None ->
        disk E (S (S (n_sql w))) = None ->
        files E (n_open w) (targets_file cfg) = Raise e ->
        fst (run E cfg (S cycles) w) = Raise e
        /\ conn (snd (run E cfg (S cycles) w)) = conn w
        /\ fetched (snd (run E cfg (S cycles) w)) = fetched w
        /\ stdout (snd (run E cfg (S cycles) w)) = stdout w
        /\ slept (snd (run E cfg (S cycles) w)) = slept w).
Proof.
  split.
  - intros msg Hd. unfold run. rewrite bind_eq, init_db_eq, Hd. reflexivity.
  - intros e Hd0 Hd1 Hd2 Hfile. unfold run. rewrite bind_eq, init_db_eq, Hd0, Hd1, Hd2.
    cbn [loop]. rewrite bind_eq, cycle_eq, load_targets_eq.
    cbn [n_open executed]. rewrite Hfile. now repeat split.
Qed.

(** The theorem in [broken_env], whose disk fails, and in [missing_env],
    which has no targets file. *)
Lemma run_halts_when_it_cannot_start_witness :
  run broken_env default_config 1 (fresh empty_store)
  = (Raise (sqlite3_Error "disk I/O error"), executed (fun db => db) (fresh empty_store))
  /\ fst (run missing_env default_config 1 (fresh empty_store))
     = Raise (OSError "[Errno 2] No such file or directory")
  /\ fetched (snd (run missing_env default_config 1 (fresh empty_store))) = [].
Proof.
  split.
  - apply (proj1 (run_halts_when_it_cannot_start broken_env default_config 1
                    (fresh empty_store))).
    reflexivity.
  - destruct (proj2 (run_halts_when_it_cannot_start missing_env default_config 0
                       (fresh empty_store))
                (OSError "[Errno 2] No such file or directory")
                eq_refl eq_refl eq_refl eq_refl) as (H1 & _ & H2 & _).
    split; [exact H1 | exact H2].
Defined.

(** X13: one turn of the loop, on a disk that does not fail and with a
    targets file that can be read: every target of the file is requested
    once, in the order of the file (a target listed twice is requested
    twice), each request adds one or two rows to the check ledger, and
    the process then sleeps [interval_s] seconds, once. *)
Theorem cycle_polls_every_target_and_sleeps (E : env) (cfg : Config)
  (lines : list string) (w : world) :
  disk_ok E ->
  sleepable (interval_s cfg) ->
  files E (n_open w) (targets_file cfg) = Ok lines ->
  exists targets rows,
    fst (load_targets E (targets_file cfg) w) = Ok targets
    /\ fst (cycle E cfg w) = Ok tt
    /\ fetched (snd (cycle E cfg w)) = fetched w ++ targets
    /\ t_checks (conn (snd (cycle E cfg w))) = t_checks (conn w) ++ rows
    /\ (length targets <= length rows <= 2 * length targets)%nat
    /\ slept (snd (cycle E cfg w)) = slept w ++ [interval_s cfg]
    /\ n_open (snd (cycle E cfg w)) = S (n_open w).
Proof.
  intros Hdisk _ Hfile. rewrite cycle_eq, load_targets_eq, Hfile.
  match goal with
  | |- context [for_each ?ts (poll E cfg) ?w1] =>
      destruct (pass_summary E cfg ts w1 Hdisk)
        as (w2 & rows & -> & Hrows & Hlen & Hf & Hs & Ho);
      exists ts, rows
  end.
  cbn [fst snd conn fetched slept n_open asleep opened] in *.
  rewrite Hs, Ho. now repeat split.
Qed.

(** The theorem in [flaky_env]. *)
Lemma cycle_polls_every_target_and_sleeps_witness :
  exists targets rows,
    fst (load_targets flaky_env (targets_file default_config) (fresh empty_store))
    = Ok targets
    /\ fst (cycle flaky_env default_config (fresh empty_store)) = Ok tt
    /\ fetched (snd (cycle flaky_env default_config (fresh empty_store)))
       = fetched (fresh empty_store) ++ targets
    /\ t_checks (conn (snd (cycle flaky_env default_config (fresh empty_store))))
       = t_checks (conn (fresh empty_store)) ++ rows
    /\ (length targets <= length rows <= 2 * length targets)%nat
    /\ slept (snd (cycle flaky_env default_config (fresh empty_store)))
       = slept (fresh empty_store) ++ [interval_s default_config]
    /\ n_open (snd (cycle flaky_env default_config (fresh empty_store)))
       = S (n_open (fresh empty_store)).
Proof.
  apply (cycle_polls_every_target_and_sleeps flaky_env default_config
           ["http://a.example/"; "http://down.example/"; "http://b.example/"]%string
           (fresh empty_store)).
  - intros n. reflexivity.
  - unfold sleepable. cbn. lia.
  - reflexivity.
Defined.

Lemma loop_summary (E : env) (cfg : Config) (cycles : nat) (w : world) :
  disk_ok E -> files_ok E (targets_file cfg) ->
  fst (loop E cycles cfg w) = Ok tt
  /\ slept (snd (loop E cycles cfg w)) = slept w ++ repeat (interval_s cfg) cycles
  /\ n_open (snd (loop E cycles cfg w)) = (n_open w + cycles)%nat
  /\ exists rows, t_checks (conn (snd (loop E cycles cfg w))) = t_checks (conn w) ++ rows.
Proof.
  intros Hdisk Hfiles. revert w. induction cycles as [|n IH]; intros w.
  - cbn. rewrite app_nil_r, Nat.add_0_r. repeat split. exists []. now rewrite app_nil_r.
  - cbn [loop]. rewrite bind_eq, cycle_eq, load_targets_eq.
    destruct (Hfiles (n_open w)) as (lines & ->).
    match goal with
    | |- context [for_each ?ts (poll E cfg) ?w1] =>
        destruct (pass_summary E cfg ts w1 Hdisk)
          as (w2 & rows & -> & Hrows & _ & _ & Hs & Ho)
    end.
    destruct (IH (asleep (interval_s cfg) w2)) as (H1 & H2 & H3 & rows' & H4).
    cbn [slept n_open conn asleep opened] in *.
    split; [exact H1|]. split; [|split].
    + rewrite H2, Hs. cbn [repeat]. now rewrite <- app_assoc.
    + rewrite H3, Ho. lia.
    + exists (rows ++ rows'). now rewrite H4, Hrows, <- app_assoc.
Qed.

(** X14: on a disk that does not fail and with a targets file that can
    be read, [run] goes on for as many turns as one likes, whatever the
    network answers (failures, error statuses, pages that cannot be
    parsed): no exception leaves it, it reads the targets file once per
    turn and sleeps [interval_s] seconds after each turn. *)
Theorem run_keeps_going_whatever_the_network_does (E : env) (cfg : Config)
  (cycles : nat) (w : world) :
  disk_ok E ->
  files_ok E (targets_file cfg) ->
  sleepable (interval_s cfg) ->
  fst (run E cfg cycles w) = Ok tt
  /\ slept (snd (run E cfg cycles w)) = slept w ++ repeat (interval_s cfg) cycles
  /\ n_open (snd (run E cfg cycles w)) = (n_open w + cycles)%nat.
Proof.
  intros Hdisk Hfiles _. unfold run. rewrite bind_eq, init_db_eq, !Hdisk.
  match goal with
  | |- context [loop E cycles cfg ?w1] =>
      destruct (loop_summary E cfg cycles w1 Hdisk Hfiles) as (H1 & H2 & H3 & _)
  end.
  cbn [slept n_open executed] in *. now repeat split.
Qed.

(** The theorem in [flaky_env], for three turns. *)
Lemma run_keeps_going_whatever_the_network_does_witness :
  fst (run flaky_env default_config 3 (fresh empty_store)) = Ok tt
  /\ slept (snd (run flaky_env default_config 3 (fresh empty_store)))
     = slept (fresh empty_store) ++ repeat (interval_s default_config) 3
  /\ n_open (snd (run flaky_env default_config 3 (fresh empty_store)))
     = (n_open (fresh empty_store) + 3)%nat.
Proof.
  apply (run_keeps_going_whatever_the_network_does flaky_env default_config 3
           (fresh empty_store)).
  - intros n. reflexivity.
  - intros n. eexists. reflexivity.
  - unfold sleepable. cbn. lia.
Defined.

(** ** More on the discovery ledger *)

Lemma recorded_app (s u : string) (db db' : database) (new : list discovered_onions.row) :
  t_discovered_onions db' = t_discovered_onions db ++ new ->
  recorded s u db' <-> recorded s u db \/ existsb (same_pair s u) new = true.
Proof.
  unfold recorded. intros ->. rewrite existsb_app. apply orb_true_iff.
Qed.

Lemma save_discoveries_recorded_iff (E : env) (s : string) (urls : list string)
  (w : world) (s' u' : string) :
  disk_ok E ->
  recorded s' u' (conn (snd (save_discoveries E s urls w)))
  <-> recorded s' u' (conn w) \/ (s' = s /\ In u' urls).
Proof.
  intros Hdisk.
  destruct (save_discoveries_appends_rows E s urls w) as (new & Hnew & Hall & _).
  destruct (save_discoveries_returns E s urls w Hdisk) as (_ & Hrec & _).
  rewrite (recorded_app s' u' _ _ new Hnew). split.
  - intros [H|H]; [now left | right].
    apply existsb_exists in H. destruct H as (r & Hr & Hpair).
    rewrite List.Forall_forall in Hall. destruct (Hall r Hr) as [Hs Hu].
    apply same_pair_iff in Hpair. unfold pair_of in Hpair.
    injection Hpair as <- <-. now split.
  - intros [H|[-> H]]; [now left|].
    apply (recorded_app s u' _ _ new Hnew). now apply Hrec.
Qed.

(** X15: on a disk that does not fail, [save_discoveries] returns, leaves
    the check ledger as it is, and afterwards a pair is in the discovery
    ledger exactly when it was there before or it is the source with one
    of the discoveries.  So the pairs recorded do not depend on the order
    or the repetitions in which the discoveries are given. *)
Theorem save_discoveries_records_exactly_the_discoveries (E : env) (source_url : string)
  (discoveries : list string) (w : world) :
  disk_ok E ->
  fst (save_discoveries E source_url discoveries w) = Ok tt
  /\ t_checks (conn (snd (save_discoveries E source_url discoveries w)))
     = t_checks (conn w)
  /\ (forall s u,
        recorded s u (conn (snd (save_discoveries E source_url discoveries w)))
        <-> recorded s u (conn w) \/ (s = source_url /\ In u discoveries))
  /\ (forall others,
        (forall u, In u discoveries <-> In u others) ->
        forall s u,
          recorded s u (conn (snd (save_discoveries E source_url discoveries w)))
          <-> recorded s u (conn (snd (save_discoveries E source_url others w)))).
Proof.
  intros Hdisk.
  split; [apply (save_discoveries_returns E source_url discoveries w Hdisk)|].
  split; [apply save_discoveries_same_ledger|].
  split.
  - intros s u. now apply save_discoveries_recorded_iff.
  - intros others Hsame s u. rewrite !save_discoveries_recorded_iff by exact Hdisk.
    now rewrite Hsame.
Qed.

(** The theorem for one discovery in an empty store. *)
Lemma save_discoveries_records_exactly_the_discoveries_witness :
  fst (save_discoveries flaky_env "http://a.example/" [onion_url] (fresh empty_store))
  = Ok tt
  /\ recorded "http://a.example/" onion_url
       (conn (snd (save_discoveries flaky_env "http://a.example/" [onion_url]
                     (fresh empty_store)))).
Proof.
  destruct (save_discoveries_records_exactly_the_discoveries flaky_env "http://a.example/"
              [onion_url] (fresh empty_store) (fun n => eq_refl)) as (H1 & _ & H2 & _).
  split; [exact H1|]. apply H2. right. split; [reflexivity | now left].
Defined.

(** X16: a poll whose fetch and discovery return, on a disk that does not
    fail, leaves every candidate of the page in the discovery ledger,
    with the polled target as its source (the links were resolved against
    the final URL of the response); and no pair that was in the ledger is
    lost. *)
Theorem poll_records_the_discoveries_under_the_target (E : env) (cfg : Config)
  (target : string) (response : requests.Response) (discoveries : gset string)
  (w : world) :
  disk_ok E ->
  network E (n_get w) target 45 (follow_redirects cfg) = Ok response ->
  discover_onion_candidates (requests.url response) (requests.text response)
  = Ok discoveries ->
  (forall u, u ∈ discoveries -> recorded target u (conn (snd (poll E cfg target w))))
  /\ (forall s u, recorded s u (conn w) -> recorded s u (conn (snd (poll E cfg target w)))).
Proof.
  intros Hdisk Hnet Hd.
  destruct (poll_success E cfg target response discoveries w Hdisk Hnet Hd)
    as (w' & -> & _ & _ & _ & _ & _ & _ & _ & Hrec & Hkeep & _).
  cbn [snd]. split; [exact Hrec|].
  intros s u H. apply Hkeep. exact H.
Qed.

(** The theorem in [onion_env], whose pages link to an onion address. *)
Lemma poll_records_the_discoveries_under_the_target_witness :
  recorded "http://a.example/" onion_url
    (conn (snd (poll onion_env default_config "http://a.example/" (fresh empty_store)))).
Proof.
  apply (proj1 (poll_records_the_discoveries_under_the_target onion_env default_config
                  "http://a.example/" (requests.mkResponse onion_page 200 "http://a.example/")
                  {[ onion_url ]} (fresh empty_store) (fun n => eq_refl) eq_refl
                  ltac:(by_decision))).
  now apply elem_of_singleton.
Defined.

(** ** More on the mirror query and on discovery *)

(** X17: below the limit the mirror query is complete: when it returns
    fewer than five targets, these are exactly the targets other than
    the current one that have a check row with the signature. *)
Theorem find_mirrors_is_complete_below_the_limit (conn : database) (s A : string) :
  (length (recently_seen_signature conn s A) < 5)%nat ->
  forall t,
    In t (recently_seen_signature conn s A)
    <-> t <> A
        /\ exists r, In r (t_checks conn) /\ checks.target_url r = t
                     /\ checks.content_sig r = Some s.
Proof.
  intros Hlen t. split; [apply mirrors_sound|].
  intros (HtA & r & Hr & Ht & Hs).
  rewrite recently_seen_signature_unfold in *.
  rewrite length_map, length_firstn in Hlen.
  rewrite firstn_all2 by lia. rewrite <- Ht. apply candidates_complete; congruence.
Qed.

(** The theorem at [two_mirrors], for [b.example]. *)
Lemma find_mirrors_is_complete_below_the_limit_witness :
  In "http://b.example/"%string
    (recently_seen_signature two_mirrors "c0ffee" "http://a.example/")
  <-> "http://b.example/"%string <> "http://a.example/"%string
      /\ exists r, In r (t_checks two_mirrors)
                   /\ checks.target_url r = "http://b.example/"%string
                   /\ checks.content_sig r = Some "c0ffee"%string.
Proof.
  apply (find_mirrors_is_complete_below_the_limit two_mirrors "c0ffee" "http://a.example/").
  vm_compute. lia.
Defined.

Lemma fold_add_anchor_grows (base_url : string) (anchors : list bs4.PageElement)
  (found found' : gset string) :
  fold_left (add_anchor base_url) anchors (Ok found) = Ok found' -> found ⊆ found'.
Proof.
  revert found. induction anchors as [|a anchors IH]; intros found.
  - now intros [= ->].
  - cbn [fold_left]. intros Hfold.
    destruct (add_anchor base_url (Ok found) a) as [found1|e] eqn:Ha.
    + transitivity found1; [|now apply IH]. revert Ha. unfold add_anchor.
      destruct (urllib.urljoin base_url _) as [full|?]; [|discriminate].
      destruct (urllib.urlparse full EmptyString) as [parsed|?]; [|discriminate].
      destruct (re.fullmatch ONION_RE _); intros [= <-]; set_solver.
    + now rewrite fold_add_anchor_raise in Hfold.
Qed.

(** X18: an onion address anywhere in the markup is a candidate, link
    or not: whenever [discover_onion_candidates] returns, each match of
    [ONION_RE] in the raw text of the page (in a comment, a script or an
    attribute as well as in the text) is among the candidates, with
    [http://] before it and [/] after it. *)
Theorem address_in_the_markup_is_discovered (base_url html m : string)
  (candidates : gset string) :
  In m (re.findall ONION_RE html) ->
  discover_onion_candidates base_url html = Ok candidates ->
  "http://" +:+ m +:+ "/" ∈ candidates.
Proof.
  intros Hm. unfold discover_onion_candidates.
  destruct (fold_left _ _ _) as [found|e] eqn:Hfold; [|discriminate].
  intros [= <-]. apply elem_of_map. exists m. split; [reflexivity|].
  apply (fold_add_anchor_grows _ _ _ _ Hfold).
  now apply elem_of_list_to_set, list_elem_of_In.
Qed.

(** The theorem for a page that names an address in a comment. *)
Lemma address_in_the_markup_is_discovered_witness :
  "http://" +:+ (label56 +:+ ".onion") +:+ "/" ∈ ({[ onion_url ]} : gset string).
Proof.
  apply (address_in_the_markup_is_discovered "http://a.example/" comment_page
           (label56 +:+ ".onion") {[ onion_url ]}).
  - vm_compute. left. reflexivity.
  - by_decision.
Defined.

(** ** The configuration *)

Lemma digit_char (d : Z) :
  0 <= d <= 9 ->
  builtins.is_digit (Str.chr (48 + d)) = true /\ Str.ord (Str.chr (48 + d)) - 48 = d.
Proof.
  intros H. assert (Hd : In d [0; 1; 2; 3; 4; 5; 6; 7; 8; 9]) by (simpl; lia).
  repeat (destruct Hd as [<-|Hd]; [split; reflexivity|]). destruct Hd.
Qed.

Lemma int_space_not_digit (c : ascii) :
  builtins.int_space c = true ->
  builtins.is_digit c = false /\ Ascii.eqb c "_" = false.
Proof. destruct c as [[] [] [] [] [] [] [] []]; try discriminate; now split. Qed.

Lemma skip_space_blank_append (pre x : string) :
  int_blank pre = true -> builtins.skip_space (pre +:+ x) = builtins.skip_space x.
Proof.
  unfold int_blank. induction pre as [|c pre IH]; [reflexivity|].
  cbn [urllib.all_chars]. intros H. apply andb_true_iff in H. destruct H as [Hc Hp].
  rewrite append_cons. cbn [builtins.skip_space]. rewrite Hc. now apply IH.
Qed.

Lemma skip_space_blank (post : string) :
  int_blank post = true -> builtins.skip_space post = EmptyString.
Proof.
  intros H. rewrite <- (string_append_empty_r post).
  now rewrite skip_space_blank_append.
Qed.

Lemma int_skips_space (pre x : string) :
  int_blank pre = true -> builtins.int (pre +:+ x) = builtins.int x.
Proof. intros H. unfold builtins.int. now rewrite skip_space_blank_append. Qed.

(** [scan] reads the digits of a numeral that whitespace, or nothing,
    follows. *)
Lemma scan_numeral (ds : list Z) (post : string) (acc : Z) (count : nat) :
  Forall (fun d => 0 <= d <= 9) ds -> int_blank post = true ->
  builtins.scan (numeral ds +:+ post) acc count false
  = Some (fold_left (fun a d => 10 * a + d) ds acc, (count + length ds)%nat, post).
Proof.
  intros Hds Hpost. revert acc count.
  induction Hds as [|d ds Hd Hds IH]; intros acc count.
  - cbn [numeral fold_right fold_left length]. rewrite append_nil, Nat.add_0_r.
    destruct post as [|c r]; [reflexivity|].
    unfold int_blank in Hpost. cbn [urllib.all_chars] in Hpost.
    apply andb_true_iff in Hpost. destruct Hpost as [Hc _].
    destruct (int_space_not_digit c Hc) as [H1 H2].
    cbn [builtins.scan]. now rewrite H1, H2.
  - cbn [numeral fold_right fold_left length]. rewrite append_cons.
    destruct (digit_char d Hd) as [H1 H2].
    cbn [builtins.scan]. rewrite H1, H2.
    change (fold_right (fun d s => String (Str.chr (48 + d)) s) EmptyString ds)
      with (numeral ds).
    rewrite IH. now rewrite Nat.add_succ_r.
Qed.

Lemma int_of_digits (c : ascii) (r : string) :
  builtins.is_digit c = true ->
  builtins.int (String c r)
  = match builtins.scan (String c r) 0 0 false with
    | Some (v, count, rest) =>
        if (4300 <? count)%nat then None
        else if Str.is_empty (builtins.skip_space rest) then Some (1 * v) else None
    | None => None
    end.
Proof.
  intros Hc. unfold builtins.int.
  destruct c as [[] [] [] [] [] [] [] []]; try discriminate Hc; reflexivity.
Qed.

Lemma int_of_minus_digits (c : ascii) (r : string) :
  builtins.is_digit c = true ->
  builtins.int (String "-" (String c r))
  = match builtins.scan (String c r) 0 0 false with
    | Some (v, count, rest) =>
        if (4300 <? count)%nat then None
        else if Str.is_empty (builtins.skip_space rest) then Some (-1 * v) else None
    | None => None
    end.
Proof.
  intros Hc. unfold builtins.int.
  change (builtins.skip_space (String "-" (String c r))) with (String "-" (String c r)).
  cbv iota beta. now rewrite Hc.
Qed.

(** [int] reads a decimal numeral as its value. *)
Lemma int_reads (s : string) (n : Z) : reads_as s n -> builtins.int s = Some n.
Proof.
  intros (pre & post & ds & negative & -> & Hpre & Hpost & Hne & Hds & Hlen & ->).
  rewrite (int_skips_space _ _ Hpre).
  destruct ds as [|d ds]; [contradiction|].
  inversion Hds as [|? ? Hd Hrest]; subst.
  destruct (digit_char d Hd) as [H1 _].
  assert (Hscan : builtins.scan (numeral (d :: ds) +:+ post) 0 0 false
                  = Some (value (d :: ds), length (d :: ds), post)).
  { rewrite (scan_numeral (d :: ds) post 0 0 Hds Hpost). reflexivity. }
  assert (Hcount : (4300 <? length (d :: ds))%nat = false) by (apply Nat.ltb_ge; exact Hlen).
  change (numeral (d :: ds)) with (String (Str.chr (48 + d)) (numeral ds)) in *.
  rewrite append_cons in Hscan.
  destruct negative.
  - change ("-" +:+ String (Str.chr (48 + d)) (numeral ds) +:+ post)
      with (String "-" (String (Str.chr (48 + d)) (numeral ds) +:+ post)).
    rewrite append_cons, (int_of_minus_digits _ _ H1), Hscan, Hcount.
    rewrite (skip_space_blank _ Hpost). cbn [Str.is_empty]. f_equal; lia.
  - rewrite append_nil, append_cons, (int_of_digits _ _ H1), Hscan, Hcount.
    rewrite (skip_space_blank _ Hpost). cbn [Str.is_empty]. f_equal; lia.
Qed.

Lemma int_of_blank (s : string) : int_blank s = true -> builtins.int s = None.
Proof. intros H. unfold builtins.int. now rewrite (skip_space_blank _ H). Qed.

(** X19: [Config()] takes the port and the interval as the environment
    writes them: when both texts are decimal numerals, with or without a
    minus sign and whitespace around them, the configuration exists and
    holds their values, whatever they are (zero and negative numbers
    included); redirects are followed exactly when the text for them is
    [true] in any mix of cases. *)
Theorem Config_takes_the_numerals_as_they_are (environ : string -> option string)
  (port interval : Z) :
  reads_as (os.getenv environ "TOR_SOCKS_PORT" "9050") port ->
  reads_as (os.getenv environ "MONITOR_INTERVAL_SECONDS" "300") interval ->
  exists cfg,
    Config_of environ = Some cfg
    /\ socks_port cfg = port
    /\ interval_s cfg = interval
    /\ (follow_redirects cfg = true
        <-> Str.lower (os.getenv environ "MONITOR_FOLLOW_REDIRECTS" "true") = "true"%string).
Proof.
  intros Hport Hinterval. unfold Config_of.
  rewrite (int_reads _ _ Hport), (int_reads _ _ Hinterval).
  eexists. split; [reflexivity|]. cbn [socks_port interval_s follow_redirects].
  split; [reflexivity|]. split; [reflexivity|]. apply String.eqb_eq.
Qed.

(** The theorem in [odd_environ]: the port [9150] with spaces around it,
    the interval [-5]. *)
Lemma Config_takes_the_numerals_as_they_are_witness :
  exists cfg,
    Config_of odd_environ = Some cfg
    /\ socks_port cfg = 9150
    /\ interval_s cfg = -5
    /\ (follow_redirects cfg = true
        <-> Str.lower (os.getenv odd_environ "MONITOR_FOLLOW_REDIRECTS" "true")
            = "true"%string).
Proof.
  apply (Config_takes_the_numerals_as_they_are odd_environ 9150 (-5)).
  - exists " "%string, " "%string, [9; 1; 5; 0], false.
    split; [reflexivity|]. split; [reflexivity|]. split; [reflexivity|].
    split; [discriminate|]. split; [repeat constructor; lia|]. split; [cbn; lia | reflexivity].
  - exists EmptyString, EmptyString, [5], true.
    split; [reflexivity|]. split; [reflexivity|]. split; [reflexivity|].
    split; [discriminate|]. split; [repeat constructor; lia|]. split; [cbn; lia | reflexivity].
Defined.

Example Config_of_nothing : Config_of (fun _ => None) = Some default_config.
Proof. vm_compute. reflexivity. Qed.

Example Config_of_odd_environ :
  Config_of odd_environ
  = Some (mkConfig "tor" 9150 (-5) "/app/targets.txt" "/data/monitor.db" false).
Proof. vm_compute. reflexivity. Qed.

(** X20: a variable that is set to the empty text, or to whitespace, is
    not replaced by the default: when the port or the interval is set so,
    [int] raises and there is no configuration. *)
Theorem Config_fails_on_a_blank_number (environ : string -> option string) (v : string) :
  int_blank v = true ->
  environ "TOR_SOCKS_PORT" = Some v \/ environ "MONITOR_INTERVAL_SECONDS" = Some v ->
  Config_of environ = None.
Proof.
  intros Hblank [Hv|Hv]; unfold Config_of.
  - unfold os.getenv at 1. rewrite Hv, (int_of_blank v Hblank). reflexivity.
  - destruct (builtins.int (os.getenv environ "TOR_SOCKS_PORT" "9050")); [|reflexivity].
    unfold os.getenv at 1. rewrite Hv, (int_of_blank v Hblank). reflexivity.
Qed.

(** The theorem for a port set to the empty text. *)
Lemma Config_fails_on_a_blank_number_witness : Config_of empty_port_environ = None.
Proof.
  apply (Config_fails_on_a_blank_number empty_port_environ EmptyString).
  - reflexivity.
  - left. reflexivity.
Defined.

(** ** The ids of the rows *)

Lemma increasing_snoc (ids : list Z) (x : Z) :
  increasing ids -> (forall i, In i ids -> i < x) -> increasing (ids ++ [x]).
Proof.
  induction ids as [|i ids IH]; intros Hs Hx.
  - cbn. split; constructor.
  - destruct Hs as [Hall Hs]. cbn [app increasing]. split.
    + apply Forall_app. split; [exact Hall|]. constructor; [|constructor].
      apply Hx. now left.
    + apply IH; [exact Hs|]. intros j Hj. apply Hx. now right.
Qed.

Lemma sorted_next_id (ids : list Z) : increasing ids -> increasing (ids ++ [next_id ids]).
Proof. intros H. apply increasing_snoc; [exact H|]. apply next_id_above. Qed.

Lemma insert_check_increasing (checked_at target : string) (final_url : option string)
  (status : option Z) (ok : Z) (error sig title : option string) (db : database) :
  increasing_ids db ->
  increasing_ids (insert_check checked_at target final_url status ok error sig title db).
Proof.
  intros [Hc Hd]. split; [|exact Hd].
  unfold insert_check. cbn [t_checks]. rewrite map_app. now apply sorted_next_id.
Qed.

Lemma insert_or_ignore_increasing (id : Z) (now s u : string) (db : database) :
  (forall i, In i (List.map discovered_onions.id (t_discovered_onions db)) -> i < id) ->
  increasing_ids db -> increasing_ids (insert_or_ignore_discovery id now s u db).
Proof.
  intros Hid [Hc Hd]. unfold insert_or_ignore_discovery.
  destruct (existsb (same_pair s u) (t_discovered_onions db)); [now split|].
  split; [exact Hc|]. cbn [t_discovered_onions]. rewrite map_app.
  now apply increasing_snoc.
Qed.

Lemma keeps_ids_refl (w : world) : keeps_ids w w.
Proof. intros H. exact H. Qed.

Lemma keeps_ids_trans (a b c : world) : keeps_ids a b -> keeps_ids b c -> keeps_ids a c.
Proof. unfold keeps_ids. auto. Qed.

Lemma conn_execute_keeps_ids (E : env) (statement : database -> database) :
  (forall db, increasing_ids db -> increasing_ids (statement db)) ->
  preserves keeps_ids (conn_execute E statement).
Proof.
  intros H w. unfold conn_execute, keeps_ids.
  destruct (disk E (n_sql w)); cbn [snd conn executed]; auto.
Qed.

Lemma conn_insert_discovery_keeps_ids (E : env) (now s u : string) :
  preserves keeps_ids (conn_insert_discovery E now s u).
Proof.
  intros w. unfold conn_insert_discovery, keeps_ids.
  destruct (disk E (n_sql w)); cbn [snd conn counted executed]; [auto|].
  apply insert_or_ignore_increasing. intros i Hi.
  apply next_id_above. now right.
Qed.

Lemma select_keeps_ids (E : env) (sig target : string) :
  preserves keeps_ids (conn_select_mirrors E sig target).
Proof.
  intros w. unfold conn_select_mirrors, keeps_ids. now destruct (disk E (n_sql w)).
Qed.

Ltac ids_step :=
  first
    [ apply select_keeps_ids
    | apply conn_insert_discovery_keeps_ids
    | apply conn_execute_keeps_ids
    | apply (preserves_bind keeps_ids keeps_ids_trans)
    | apply (preserves_try_except keeps_ids keeps_ids_trans)
    | apply (preserves_for_each keeps_ids keeps_ids_refl keeps_ids_trans)
    | apply (preserves_ret keeps_ids keeps_ids_refl)
    | apply (preserves_lift keeps_ids keeps_ids_refl)
    | (intros ?w ?H; exact H) ].

Lemma poll_keeps_ids (E : env) (cfg : Config) (target : string) :
  preserves keeps_ids (poll E cfg target).
Proof.
  unfold poll. ids_step; [ids_step|]. intros checked_at. ids_step.
  - unfold attempt. ids_step; [ids_step|]. intros response.
    ids_step; [ids_step; apply insert_check_increasing|]. intros _.
    ids_step; [unfold conn_commit; ids_step; auto|]. intros _.
    ids_step; [ids_step|]. intros discoveries. ids_step.
    { destruct (decide (discoveries = ∅)); [ids_step|].
      unfold save_discoveries. ids_step; [|intros _; unfold conn_commit; ids_step; auto].
      ids_step. intros u. ids_step; [ids_step|]. intros now. ids_step. }
    intros _. ids_step.
    { destruct (sig_of (requests.text response)) as [sig|]; [|ids_step].
      destruct (Str.is_empty sig); [ids_step|].
      ids_step; [ids_step|]. intros [|m ms]; ids_step. }
    intros _. ids_step.
    { destruct (String.eqb (requests.url response) target); ids_step. }
    intros _. ids_step.
  - intros e. unfold record_failure. ids_step; [ids_step; apply insert_check_increasing|].
    intros _. ids_step; [unfold conn_commit; ids_step; auto|]. intros _. ids_step.
Qed.

Lemma loop_keeps_ids (E : env) (cfg : Config) (cycles : nat) :
  preserves keeps_ids (loop E cycles cfg).
Proof.
  induction cycles as [|n IH]; cbn [loop]; [ids_step|].
  ids_step; [|intros _; exact IH].
  unfold cycle, load_targets. ids_step.
  { ids_step; [ids_step|]. intros lines. ids_step. }
  intros targets. ids_step; [|intros _; ids_step].
  ids_step. intros t. apply poll_keeps_ids.
Qed.

(** X21: the ids of the rows.  In a store whose ids grow along each
    ledger, they still do after [run], whatever the surroundings do and
    for any number of turns: each row [run] inserts gets an id above all
    the ids of its ledger ([AUTOINCREMENT]), so the ids of a ledger stay
    distinct and in the order of insertion. *)
Theorem run_keeps_the_ids_increasing (E : env) (cfg : Config) (cycles : nat) (w : world) :
  increasing_ids (conn w) ->
  increasing_ids (conn (snd (run E cfg cycles w)))
  /\ List.NoDup (List.map checks.id (t_checks (conn (snd (run E cfg cycles w)))))
  /\ List.NoDup
       (List.map discovered_onions.id
          (t_discovered_onions (conn (snd (run E cfg cycles w))))).
Proof.
  intros Hw.
  assert (H : preserves keeps_ids (run E cfg cycles)).
  { unfold run, init_db, conn_commit. ids_step.
    - ids_step; [ids_step; auto|]. intros _. ids_step; [ids_step; auto|].
      intros _. ids_step. auto.
    - intros _. apply loop_keeps_ids. }
  pose proof (H w Hw) as [Hc Hd]. split; [now split|].
  assert (Hnodup : forall l, increasing l -> List.NoDup l).
  { induction l as [|i l IH]; intros Hl; constructor.
    - destruct Hl as [Hall _]. intros Hin. rewrite List.Forall_forall in Hall.
      specialize (Hall i Hin). lia.
    - apply IH. apply Hl. }
  split; now apply Hnodup.
Qed.

(** The theorem for a run of two turns from the empty store. *)
Lemma run_keeps_the_ids_increasing_witness :
  increasing_ids (conn (snd (run onion_env default_config 2 (fresh empty_store))))
  /\ List.NoDup
       (List.map checks.id
          (t_checks (conn (snd (run onion_env default_config 2 (fresh empty_store))))))
  /\ List.NoDup
       (List.map discovered_onions.id
          (t_discovered_onions
             (conn (snd (run onion_env default_config 2 (fresh empty_store)))))).
Proof.
  apply (run_keeps_the_ids_increasing onion_env default_config 2 (fresh empty_store)).
  split; exact I.
Defined.
